(** * Chile_Wildfire_2024/functions.ipynb: geographic subsetting, channel
      selection, normalisation and the single-band renderer

    The notebook defines five helper functions over xarray / numpy arrays.
    This development embeds four of them shallowly (the RGB renderer
    [visualize_s3_pcolormesh] only displays a plot and is left out):

    - the arithmetic of the arrays is a type class [Numeric] (the helpers are
      duck-typed: they only use [+], [-], [/], [%], [<] and the [min]/[max]
      reductions), with two instances: IEEE binary64 (numpy's [float64],
      Rocq's primitive floats) and exact rationals (what the same Python
      source computes on [fractions.Fraction] elements);
    - a [DataArray] is a record with its two coordinate axes and its values;
    - Python objects live in a store addressed by references, and the
      functions are also given in a state-and-exception monad over that
      store, so that aliasing and the absence of mutation can be stated;
    - the renderer runs against an abstract plotting backend and a file
      system.

    What is proved of binary64 arithmetic rests on the standard library's
    specification of the primitive floats ([SpecFloat], [FloatAxioms]): the
    value of a double is taken as an integer number of units of [2 ^ -1074],
    on which [+], [-] and [/] are round-to-nearest-even. *)

From Stdlib Require Import ZArith QArith Qcanon Qround Floats List Bool Lia Lqa.
From stdpp Require Import base option list gmap strings.
Import ListNotations.

Local Open Scope Z_scope.

(** ** Exceptions and results *)

Inductive exn : Type :=
| KeyError (key : string)      (* a missing mapping key *)
| ValueError                   (* a reduction over a zero-size array *)
| ZeroDivisionError            (* exact division by zero *)
| AttributeError               (* a reference that holds no object of the expected kind *)
| BackendError (code : nat).   (* whatever the plotting library raises *)

Inductive result (A : Type) : Type :=
| Ok (a : A)
| Raise (e : exn).
Arguments Ok {A} a.
Arguments Raise {A} e.

#[global] Instance result_ret : MRet result := fun A a => Ok a.
#[global] Instance result_bind : MBind result := fun A B k r =>
  match r with
  | Ok a => k a
  | Raise e => Raise e
  end.

(** ** The arithmetic the helpers rely on *)

Class Numeric (T : Type) := {
  num_of_Z : Z -> T;                 (* integer literals: 180, 360 *)
  num_add : T -> T -> T;             (* a + b *)
  num_sub : T -> T -> T;             (* a - b *)
  num_mod : T -> T -> T;             (* a % b, Python's floored remainder *)
  num_div : T -> T -> result T;      (* a / b, true division *)
  num_ltb : T -> T -> bool;          (* a < b;  a > b is b < a *)
  num_isnan : T -> bool;             (* np.isnan *)
}.

(** [<] is irreflexive: a value is never strictly below itself. *)
Class LtIrrefl (T : Type) `{Numeric T} : Prop :=
  num_ltb_irrefl : forall a : T, num_ltb a a = false.

(** *** IEEE binary64 *)

Module B64.
Local Open Scope float_scope.

(** C's [fmod]: the exact remainder of the truncated quotient, with the sign
    of the dividend.  The remainder of two binary64 numbers is a binary64
    number, so the final [binary_normalize] does not round. *)
Definition fmod (x y : float) : float :=
  match Prim2SF x, Prim2SF y with
  | S754_nan, _ | _, S754_nan => nan
  | S754_infinity _, _ => nan
  | _, S754_zero _ => nan
  | S754_zero _, _ => x
  | S754_finite _ _ _, S754_infinity _ => x
  | S754_finite sx mx ex, S754_finite _ my ey =>
      let e := Z.min ex ey in
      let X := (Z.pos mx * 2 ^ (ex - e))%Z in
      let Y := (Z.pos my * 2 ^ (ey - e))%Z in
      SF2Prim (binary_normalize prec emax (cond_Zopp sx (X mod Y)%Z) e sx)
  end.

(** numpy's [npy_remainder] / [npy_divmod] for doubles: [fmod], then the
    result is moved to the sign of the divisor. *)
Definition remainder (a b : float) : float :=
  let m := fmod a b in
  if b =? 0 then m
  else if m =? 0 then (if get_sign b then neg_zero else zero)
  else if negb (Bool.eqb (b <? 0) (m <? 0)) then m + b
  else m.

#[global] Instance numeric : Numeric float := {
  num_of_Z := fun z => SF2Prim (binary_normalize prec emax z 0 false);
  num_add := PrimFloat.add;
  num_sub := PrimFloat.sub;
  num_mod := remainder;
  num_div := fun a b => Ok (a / b);
  num_ltb := PrimFloat.ltb;
  num_isnan := PrimFloat.is_nan;
}.
End B64.

(** *** Exact rationals *)

Module Exact.
Local Open Scope Qc_scope.

Definition floor (a : Qc) : Z := Qfloor a.

(** [a % b = a - b * floor (a / b)].  A zero divisor raises in Python; the
    helpers only ever take the remainder by the literal 360. *)
Definition remainder (a b : Qc) : Qc := a - b * Q2Qc (inject_Z (floor (a / b))).

Definition ltb (a b : Qc) : bool :=
  match a ?= b with Lt => true | _ => false end.

Definition div (a b : Qc) : result Qc :=
  if Qc_eq_dec b 0 then Raise ZeroDivisionError else Ok (a / b).

(** [(v - lo) / d], the value of a cell after normalisation. *)
Definition rescale (lo d v : Qc) : Qc := (v - lo) / d.

#[global] Instance numeric : Numeric Qc := {
  num_of_Z := fun z => Q2Qc (inject_Z z);
  num_add := Qcplus;
  num_sub := Qcminus;
  num_mod := remainder;
  num_div := div;
  num_ltb := ltb;
  num_isnan := fun _ => false;
}.
End Exact.

(** ** Labeled grids *)

(** An [xarray.DataArray] over the dimensions (latitude, longitude):
    [values x] has one row per latitude and, in each row, one cell per
    longitude.  Cells are of any type [V] (a number, or the vector along
    further dimensions such as time). *)
Record DataArray (T V : Type) : Type := mkDataArray {
  latitude : list T;
  longitude : list T;
  values : list (list V);
}.
Arguments mkDataArray {T V} _ _ _.
Arguments latitude {T V} _.
Arguments longitude {T V} _.
Arguments values {T V} _.

(** The shape invariant xarray enforces when a DataArray is built. *)
Definition wf_array {T V} (x : DataArray T V) : Prop :=
  length (values x) = length (latitude x) /\
  Forall (fun row => length row = length (longitude x)) (values x).

(** Positional selection by a boolean mask ([isel] with the indices of the
    true entries). *)
Fixpoint isel {A} (mask : list bool) (l : list A) : list A :=
  match mask, l with
  | b :: mask', a :: l' => if b then a :: isel mask' l' else isel mask' l'
  | _, _ => []
  end.

(** [cond.any(dim="longitude")]: one flag per row. *)
Definition any_along_longitude (cond : list (list bool)) : list bool :=
  map (existsb id) cond.

(** [cond.any(dim="latitude")]: one flag per column, for [n] columns. *)
Definition any_along_latitude (n : nat) (cond : list (list bool)) : list bool :=
  fold_right (zip_with orb) (repeat false n) cond.

Section Subset.
Context {T V : Type} `{Numeric T}.
(** The fill value of [where] ([other], by default NaN). *)
Variable na : V.

(** [((lon + 180) % 360) - 180] *)
Definition shift_longitude (lon : T) : T :=
  num_sub (num_mod (num_add lon (num_of_Z 180)) (num_of_Z 360)) (num_of_Z 180).

(** [x.assign_coords(longitude=lon')]: a new object, [x] is not touched. *)
Definition assign_coords (x : DataArray T V) (lon' : list T) : DataArray T V :=
  mkDataArray (latitude x) lon' (values x).

(** [v] lies strictly inside the interval: [(v < hi) & (v > lo)]. *)
Definition strictly_between (lo hi v : T) : bool := num_ltb v hi && num_ltb lo v.

(** [(x.latitude < latmax) & (x.latitude > latmin) & (x.longitude < lonmax)
     & (x.longitude > lonmin)], broadcast over (latitude, longitude). *)
Definition box_cond (x : DataArray T V) (latmin latmax lonmin lonmax : T)
  : list (list bool) :=
  map (fun la =>
    map (fun lo =>
      ((num_ltb la latmax && num_ltb latmin la) && num_ltb lo lonmax)
        && num_ltb lonmin lo)
      (longitude x))
    (latitude x).

(** [x.where(cond, drop=True)]: along each dimension keep the positions at
    which [cond] holds somewhere, then blank what remains where [cond] is
    false. *)
Definition where_drop (x : DataArray T V) (cond : list (list bool))
  : DataArray T V :=
  let keep_lat := any_along_longitude cond in
  let keep_lon := any_along_latitude (length (longitude x)) cond in
  let cond' := isel keep_lat (map (isel keep_lon) cond) in
  let values' := isel keep_lat (map (isel keep_lon) (values x)) in
  mkDataArray
    (isel keep_lat (latitude x))
    (isel keep_lon (longitude x))
    (zip_with (zip_with (fun (c : bool) v => if c then v else na)) cond' values').

Definition generate_geographical_subset (xarray : DataArray T V)
    (latmin latmax lonmin lonmax : T) (reassign : bool) : DataArray T V :=
  let xarray :=
    if reassign
    then assign_coords xarray (map shift_longitude (longitude xarray))
    else xarray in
  where_drop xarray (box_cond xarray latmin latmax lonmin lonmax).
End Subset.

Section Normalize.
Context {T : Type} `{Numeric T}.

(** [np.minimum] and [np.maximum] as the reductions fold them: a NaN
    accumulator or operand wins. *)
Definition minimum (a b : T) : T := if num_ltb a b || num_isnan a then a else b.
Definition maximum (a b : T) : T := if num_ltb b a || num_isnan a then a else b.

(** A reduction without identity raises on a zero-size array. *)
Definition reduce (op : T -> T -> T) (l : list T) : result T :=
  match l with
  | [] => Raise ValueError
  | x :: l' => Ok (fold_left op l' x)
  end.

Definition dropna (l : list T) : list T := List.filter (fun v => negb (num_isnan v)) l.

(** [array.min()] and [array.max()].  numpy reduces over every element
    ([skipna = false]); xarray skips NaN on float data ([skipna = true]) and
    yields NaN for an all-NaN array. *)
Definition array_reduce (op : T -> T -> T) (skipna : bool) (l : list T) : result T :=
  if skipna
  then match dropna l with
       | [] => reduce op l
       | l' => reduce op l'
       end
  else reduce op l.

Definition normalize (skipna : bool) (array : DataArray T T) : result (DataArray T T) :=
  let flat := concat (values array) in
  array_min ← array_reduce minimum skipna flat;
  array_max ← array_reduce maximum skipna flat;
  vs ← mapM (mapM (λ v, num_div (num_sub v array_min) (num_sub array_max array_min)))
            (values array);
  Ok (mkDataArray (latitude array) (longitude array) vs).
End Normalize.

(** ** Python objects, references and the store *)

Definition ref : Type := positive.

(** What a reference may hold: an array, or a band set (a [dict] or an
    [xarray.Dataset]) mapping channel names to references to arrays. *)
Inductive obj (T : Type) : Type :=
| ObjArray (a : DataArray T T)
| ObjBands (bands : gmap string ref).
Arguments ObjArray {T} a.
Arguments ObjBands {T} bands.

(** Computations that read and extend a state and may raise. *)
Definition M (S A : Type) : Type := S -> result A * S.

#[global] Instance M_ret {S} : MRet (M S) := fun A a s => (Ok a, s).
#[global] Instance M_bind {S} : MBind (M S) := fun A B k m s =>
  match m s with
  | (Ok a, s') => k a s'
  | (Raise e, s') => (Raise e, s')
  end.

Definition lift {S A} (r : result A) : M S A := fun s => (r, s).

Module Py.
Section WithStore.
Context {T : Type} `{Numeric T}.
Variable na : T.

(** The store maps each reference in use to the object it holds. *)
Local Abbreviation store := (gmap ref (obj T)).

(** Dereference an array / a band set. *)
Definition load_array (r : ref) : M store (DataArray T T) := fun s =>
  match s !! r with
  | Some (ObjArray a) => (Ok a, s)
  | _ => (Raise AttributeError, s)
  end.

Definition load_bands (r : ref) : M store (gmap string ref) := fun s =>
  match s !! r with
  | Some (ObjBands b) => (Ok b, s)
  | _ => (Raise AttributeError, s)
  end.

(** A newly built object gets a reference no existing object has. *)
Definition new (o : obj T) : M store ref := fun s =>
  let r := fresh (dom s) in (Ok r, <[r := o]> s).

(** [bands[key]] *)
Definition getitem (bands : gmap string ref) (key : string) : M store ref :=
  match bands !! key with
  | Some r => mret r
  | None => lift (Raise (KeyError key))
  end.

Definition generate_geographical_subset (xarray : ref)
    (latmin latmax lonmin lonmax : T) (reassign : bool) : M store ref :=
  xarray ← (if reassign
            then x ← load_array xarray;
                 new (ObjArray (assign_coords x (map shift_longitude (longitude x))))
            else mret xarray);
  x ← load_array xarray;
  new (ObjArray (where_drop na x (box_cond x latmin latmax lonmin lonmax))).

Definition select_channels_for_rgb (xarray : ref)
    (red_channel green_channel blue_channel : string) : M store (ref * ref * ref) :=
  bands ← load_bands xarray;
  r ← getitem bands red_channel;
  g ← getitem bands green_channel;
  b ← getitem bands blue_channel;
  mret (r, g, b).

Definition normalize (skipna : bool) (array : ref) : M store ref :=
  a ← load_array array;
  n ← lift (normalize skipna a);
  new (ObjArray n).
End WithStore.
End Py.

(** A computation that never changes or removes an object of the store it
    starts from (it may add new ones). *)
Definition frame (T : Type) {A} (m : M (gmap ref (obj T)) A) : Prop :=
  forall s, s ⊆ (m s).2.

(** ** The single-band renderer *)

Module Render.
Section WithBackend.
(** The plotting library: projections [Proj], arrays [Data], numbers [Num],
    colour maps [Cmap], the figure under construction [Canvas] and encoded
    images [Image]. *)
Context {Proj Data Num Cmap Canvas Image : Type}.

Inductive feature : Type := BORDERS | COASTLINE.

(** The library calls [visualize_pcolormesh] makes, with their arguments. *)
Inductive call : Type :=
| Figure (width height dpi : nat)
| Axes (projection : Proj)
| Pcolormesh (longitude latitude data_array : Data) (cmap : Cmap)
             (vmin vmax : Num)
| AddFeature (f : feature)
| SetExtent (lonmin lonmax latmin latmax : Num) (projection : Proj)
| Gridlines (draw_labels : bool)
| LabelStyle (size : nat)
| SetGlobal
| Colorbar (unit : string) (fontsize labelsize : nat)
| SetTitle (long_name : string) (fontsize : nat).

Record backend : Type := mkBackend {
  plate_carree : Proj;                              (* ccrs.PlateCarree() *)
  proj_eqb : Proj -> Proj -> bool;                  (* projection == ... *)
  get_cmap : string -> result Cmap;                 (* plt.get_cmap *)
  perform : call -> Canvas -> result Canvas;        (* any other call *)
  encode : Canvas -> result Image;                  (* what savefig writes *)
}.

Variable lib : backend.

(** The interpreter state: the current figure and the working directory. *)
Record state : Type := mkState {
  canvas : Canvas;
  files : gmap string Image;
}.

Definition plt (c : call) : M state unit := fun st =>
  match perform lib c (canvas st) with
  | Ok cv => (Ok tt, mkState cv (files st))
  | Raise e => (Raise e, st)
  end.

(** [plt.savefig(fname)] *)
Definition savefig (fname : string) : M state unit := fun st =>
  match encode lib (canvas st) with
  | Ok img => (Ok tt, mkState (canvas st) (<[fname := img]> (files st)))
  | Raise e => (Raise e, st)
  end.

Definition current : M state Canvas := fun st => (Ok (canvas st), st).

Definition when (b : bool) (m : M state unit) : M state unit :=
  if b then m else mret tt.

Definition visualize_pcolormesh (data_array longitude latitude : Data)
    (projection : Proj) (color_scale unit long_name : string) (vmin vmax : Num)
    (set_global : bool) (lonmin lonmax latmin latmax : Num) : M state Canvas :=
  plt (Figure 10 15 1200);;
  plt (Axes projection);;
  cmap ← lift (get_cmap lib color_scale);
  plt (Pcolormesh longitude latitude data_array cmap vmin vmax);;
  plt (AddFeature BORDERS);;
  plt (AddFeature COASTLINE);;
  when (proj_eqb lib projection (plate_carree lib))
    (plt (SetExtent lonmin lonmax latmin latmax projection);;
     plt (Gridlines true);;
     plt (LabelStyle 14));;
  when set_global
    (plt SetGlobal;;
     plt (Gridlines false));;
  plt (Colorbar unit 16 14);;
  plt (SetTitle long_name 20);;
  savefig "wildfire_co_300.png";;
  current.

(** The arguments of one call, and the call itself. *)
Record arguments : Type := mkArguments {
  arg_data_array : Data;
  arg_longitude : Data;
  arg_latitude : Data;
  arg_projection : Proj;
  arg_color_scale : string;
  arg_unit : string;
  arg_long_name : string;
  arg_vmin : Num;
  arg_vmax : Num;
  arg_set_global : bool;
  arg_lonmin : Num;
  arg_lonmax : Num;
  arg_latmin : Num;
  arg_latmax : Num;
}.

Definition invoke (a : arguments) : M state Canvas :=
  visualize_pcolormesh (arg_data_array a) (arg_longitude a) (arg_latitude a)
    (arg_projection a) (arg_color_scale a) (arg_unit a) (arg_long_name a)
    (arg_vmin a) (arg_vmax a) (arg_set_global a)
    (arg_lonmin a) (arg_lonmax a) (arg_latmin a) (arg_latmax a).

(** The path the figure is saved to. *)
Definition output_path : string := "wildfire_co_300.png".

(** A computation that leaves every file as it is. *)
Definition keeps_files {A} (m : M state A) : Prop :=
  forall st, files (m st).2 = files st.

(** A computation that, when it returns, has written the encoded figure to
    [output_path] and touched no other file, and that, when the plotting
    library raises, has written nothing. *)
Definition saves_figure {A} (m : M state A) : Prop :=
  forall st,
    match m st with
    | (Ok _, st') =>
        exists img, encode lib (canvas st') = Ok img /\
                    files st' = <[output_path := img]> (files st)
    | (Raise _, st') => files st' = files st
    end.
End WithBackend.
End Render.

(** ** Dyadic degrees in binary64 *)

Module B64Check.
Local Open Scope float_scope.

(** The double of [n / 8] degrees (whole, half, quarter and eighth degrees). *)
Definition eighths (n : Z) : float := num_of_Z n / 8.

(** The multiples of an eighth of a degree from -720 to 720 degrees, counted
    in eighths. *)
Definition eighth_range : list Z :=
  map (fun i => (Z.of_nat i - 5760)%Z) (seq 0 (Z.to_nat 11521)).

(** On [n / 8] degrees the binary64 evaluation gives the double of the exact
    value of [((lon + 180) mod 360) - 180], which lies in [-180, 180). *)
Definition shift_agrees (n : Z) : bool :=
  let lon := shift_longitude (eighths n) in
  Leibniz.eqb lon (eighths ((n + 1440) mod 2880 - 1440)%Z)
  && (-180 <=? lon) && (lon <? 180).
End B64Check.

(** ** Data for the worked examples *)

Module Examples.
Local Open Scope float_scope.

(** A 5 x 5 grid in the 0-360 convention. *)
Definition grid : DataArray float nat :=
  mkDataArray [-20; -5; 0; 5; 20] [350; 355; 0; 5; 10]
    [[ 1;  2;  3;  4;  5]; [ 6;  7;  8;  9; 10]; [11; 12; 13; 14; 15];
     [16; 17; 18; 19; 20]; [21; 22; 23; 24; 25]]%nat.

(** The largest finite double, 1.7976931348623157e308. *)
Definition huge : float := 0x1.fffffffffffffp+1023.

Definition wide : DataArray float float := mkDataArray [0] [0; 1] [[- huge; huge]].

Definition red_band : DataArray float float := mkDataArray [0] [350; 5] [[0.5; 1]].
Definition green_band : DataArray float float := mkDataArray [0] [350; 5] [[2; 4]].
Definition blue_band : DataArray float float := mkDataArray [0] [350; 5] [[3; 3]].

(** A band set at reference 1 and its three bands at references 2, 3, 4. *)
Definition bands : gmap string ref :=
  {[ "Oa08_radiance" := 2%positive; "Oa06_radiance" := 3%positive;
     "Oa04_radiance" := 4%positive ]}.

Definition store0 : gmap ref (obj float) :=
  {[ 1%positive := ObjBands bands; 2%positive := ObjArray red_band;
     3%positive := ObjArray green_band; 4%positive := ObjArray blue_band ]}.
End Examples.

Module Recorder.
Import Render.

Definition call : Type := @Render.call string unit Z string.

(** The colour maps this backend knows; any other name raises, as
    [plt.get_cmap] does. *)
Definition cmaps : list string := ["viridis"; "afmhot_r"; "hot_r"].

(** A plotting backend that records the calls it receives: a figure is
    the list of the calls made since it was created, and it is encoded as
    that list. *)
Definition lib : @backend string unit Z string (list call) (list call) :=
  mkBackend
    "PlateCarree"
    String.eqb
    (fun name => if bool_decide (name ∈ cmaps) then Ok name else Raise (BackendError 0))
    (fun c cv => match c with
                 | Figure _ _ _ => Ok [c]
                 | _ => Ok (cv ++ [c])
                 end)
    (fun cv => Ok cv).

Definition start : @state (list call) (list call) := mkState [] ∅.

Definition figure_co : list call :=
  [Figure 10 15 1200; Axes "PlateCarree"; Pcolormesh tt tt tt "afmhot_r" 0 5;
   AddFeature BORDERS; AddFeature COASTLINE;
   SetExtent (-80) (-60) (-45) (-25) "PlateCarree"; Gridlines true; LabelStyle 14;
   Colorbar "mol m-2" 16 14; SetTitle "CO total column" 20].
End Recorder.

(** ** Binary64 values and rounding *)

(** What the proofs about binary64 arithmetic are stated with: the value of
    a double as an integer number of units of [2 ^ -1074] (the smallest
    positive double), and round-to-nearest-even on such integers. *)
Module Binary64.
(** Round to nearest, ties to even, of [N / 2 ^ n]. *)
Definition rn (N n : Z) : Z :=
  let q := N / 2 ^ n in
  match 2 * (N mod 2 ^ n) ?= 2 ^ n with
  | Lt => q
  | Eq => if Z.even q then q else q + 1
  | Gt => q + 1
  end.

(** The exponent of the last place of a 53-bit significand holding [W]. *)
Definition ulp_exp (W : Z) : Z := Z.max (Z.log2 W + 1 - 53) 0.

(** [W] rounded to a 53-bit significand. *)
Definition rnd (W : Z) : Z := rn W (ulp_exp W) * 2 ^ ulp_exp W.

(** The same for either sign. *)
Definition srnd (z : Z) : Z := Z.sgn z * rnd (Z.abs z).

(** The shift [shr_fexp] performs. *)
Definition shift_of (m e : Z) : Z := Z.max (fexp prec emax (Zdigits2 m + e) - e) 0.

(** The value of a binary64 number in units of [2 ^ -1074]; the infinities
    sit at [2 ^ 2098], above every finite number. *)
Definition SFval (f : spec_float) : Z :=
  match f with
  | S754_zero _ => 0
  | S754_finite s m e => cond_Zopp s (Z.pos m * 2 ^ (e + 1074))
  | S754_infinity s => cond_Zopp s (2 ^ 2098)
  | S754_nan => 0
  end.

Definition SFfinite (f : spec_float) : bool :=
  match f with
  | S754_zero _ | S754_finite _ _ _ => true
  | _ => false
  end.

Definition SFnan (f : spec_float) : bool :=
  match f with
  | S754_nan => true
  | _ => false
  end.

(** The value of a double, in units of [2 ^ -1074]. *)
Definition V (x : float) : Z := SFval (Prim2SF x).

(** [(v - lo) / (hi - lo)], the value of a cell after normalisation. *)
Definition rescale (lo hi v : float) : float := ((v - lo) / (hi - lo))%float.

(** [v] is a number between [lo] and [hi]. *)
Definition in_range (lo hi v : float) : Prop :=
  is_nan v = false /\ V lo <= V v <= V hi.
End Binary64.

(** ** Selections *)

(** The rows and columns a grid keeps under two conditions, or the empty
    grid when no row or no column passes. *)
Definition selection {T V} (f g : T -> bool) (x : DataArray T V) : DataArray T V :=
  if existsb f (latitude x) && existsb g (longitude x)
  then mkDataArray (List.filter f (latitude x)) (List.filter g (longitude x))
         (isel (map f (latitude x)) (map (isel (map g (longitude x))) (values x)))
  else mkDataArray [] [] [].

(** The axis the filter runs on. *)
Definition relabel {T V} `{Numeric T} (reassign : bool) (x : DataArray T V)
  : DataArray T V :=
  if reassign then assign_coords x (map shift_longitude (longitude x)) else x.

(** ** The RGB renderer *)

Module RenderRGB.
Section WithBackend.
(** The plotting library: projections [Proj], coordinate arrays [Data],
    per-cell colours [Color], the figure under construction [Canvas] and
    encoded images [Image]. *)
Context {Proj Data Color Canvas Image : Type}.

(** The library calls [visualize_s3_pcolormesh] makes, with their arguments. *)
Inductive call : Type :=
| Figure (width height : nat)
| Axes (projection : Proj)
| Coastlines
| Gridlines (draw_labels : bool)
| LabelStyle (size : nat)
| Pcolormesh (longitude latitude : Data) (mesh : list (list float)) (color : Color)
| SetTitle (title : string) (fontsize : nat)
| Show.

Record backend : Type := mkBackend {
  mercator : Proj;                                  (* ccrs.Mercator() *)
  perform : call -> Canvas -> result Canvas;        (* any call *)
}.

Variable lib : backend.

Local Abbreviation state := (@Render.state Canvas Image).

Definition plt (c : call) : M state unit := fun st =>
  match perform lib c (Render.canvas st) with
  | Ok cv => (Ok tt, Render.mkState cv (Render.files st))
  | Raise e => (Raise e, st)
  end.

(** [array * np.nan] *)
Definition times_nan (array : list (list float)) : list (list float) :=
  map (map (fun v => (v * nan)%float)) array.

Definition visualize_s3_pcolormesh (color_array : Color) (array : list (list float))
    (latitude longitude : Data) (title : string) : M state unit :=
  plt (Figure 20 12);;
  plt (Axes (mercator lib));;
  plt Coastlines;;
  plt (Gridlines true);;
  plt (LabelStyle 14);;
  plt (Pcolormesh longitude latitude (times_nan array) color_array);;
  plt (SetTitle title 20);;
  plt Show.
End WithBackend.

(** A backend that records the calls it receives. *)
Definition recorder : @backend string unit string (list (@call string unit string)) :=
  mkBackend "Mercator"
    (fun c cv => match c with
                 | Figure _ _ => Ok [c]
                 | _ => Ok (cv ++ [c])
                 end).
End RenderRGB.

(** ** Rounding a quotient *)

Module Binary64Quotient.
Import Binary64.

(** Round to nearest, ties to even, of [N / M]. *)
Definition rnm (N M : Z) : Z :=
  let q := N / M in
  match 2 * (N mod M) ?= M with
  | Lt => q
  | Eq => if Z.even q then q else q + 1
  | Gt => q + 1
  end.

(** [N / D] rounded to a 53-bit significand. *)
Definition rndq (N D : Z) : Z :=
  let n := ulp_exp (N / D) in rnm N (D * 2 ^ n) * 2 ^ n.
End Binary64Quotient.

(** * Properties *)

(** ** Masks and selections *)

Lemma isel_map_filter {A} (f : A -> bool) (l : list A) :
  isel (map f l) l = List.filter f l.
Proof.
  induction l as [|a l IH]; simpl; [reflexivity|].
  destruct (f a); simpl; congruence.
Qed.

(** The size of a selection depends only on the mask and on the length of the
    list selected from. *)
Lemma isel_length_eq {A B} (mask : list bool) (l : list A) (l' : list B) :
  length l = length l' -> length (isel mask l) = length (isel mask l').
Proof.
  revert l l'; induction mask as [|b mask IH]; intros [|a l] [|a' l'] E;
    simpl in *; try discriminate; try reflexivity.
  destruct b; simpl; rewrite (IH l l'); congruence.
Qed.

Lemma isel_all_true {A} (f : A -> bool) (l : list A) :
  Forall (fun a => f a = true) l -> isel (map f l) l = l.
Proof.
  induction 1 as [|a l Ha _ IH]; simpl; [reflexivity|].
  rewrite Ha, IH; reflexivity.
Qed.

Lemma isel_true_mask {A} (mask : list bool) (l : list A) :
  Forall (fun b => b = true) mask -> length mask = length l -> isel mask l = l.
Proof.
  intros Hm; revert l; induction Hm as [|b mask Hb _ IH]; intros [|a l] E;
    simpl in *; try discriminate; try reflexivity.
  subst b; rewrite IH; [reflexivity | lia].
Qed.

Lemma existsb_id_map_andb {A} (a : bool) (f : A -> bool) (l : list A) :
  existsb id (map (fun x => a && f x) l) = a && existsb f l.
Proof.
  induction l as [|x l IH]; simpl.
  - destruct a; reflexivity.
  - rewrite IH. unfold id. destruct a, (f x); reflexivity.
Qed.

Lemma zip_with_orb_map_andb {A} (a b : bool) (f : A -> bool) (l : list A) :
  zip_with orb (map (fun x => a && f x) l) (map (fun x => b && f x) l)
  = map (fun x => (a || b) && f x) l.
Proof.
  induction l as [|x l IH]; simpl; [reflexivity|].
  rewrite IH. f_equal. destruct a, b, (f x); reflexivity.
Qed.

Lemma repeat_false_map {A} (f : A -> bool) (l : list A) :
  repeat false (length l) = map (fun x => false && f x) l.
Proof.
  induction l as [|x l IH]; [reflexivity|].
  cbn [length repeat map]. rewrite IH. reflexivity.
Qed.

(** The two reductions of a condition that is a product of a row condition
    and a column condition. *)
Lemma any_along_longitude_product {A B} (f : A -> bool) (g : B -> bool) rows cols :
  any_along_longitude (map (fun r => map (fun c => f r && g c) cols) rows)
  = map (fun r => f r && existsb g cols) rows.
Proof.
  unfold any_along_longitude. rewrite map_map.
  apply map_ext; intros r. apply existsb_id_map_andb.
Qed.

Lemma any_along_latitude_product {A B} (f : A -> bool) (g : B -> bool) rows cols :
  any_along_latitude (length cols) (map (fun r => map (fun c => f r && g c) cols) rows)
  = map (fun c => existsb f rows && g c) cols.
Proof.
  unfold any_along_latitude.
  induction rows as [|r rows IH]; simpl.
  - exact (repeat_false_map g cols).
  - rewrite IH. apply zip_with_orb_map_andb.
Qed.

(** Blanking does nothing on a row in which every kept position satisfies the
    condition. *)
Lemma mask_row_id {B V} (na : V) (m c : B -> bool) (cols : list B) (row : list V) :
  length row = length cols ->
  (forall b, m b = true -> c b = true) ->
  zip_with (fun (c : bool) v => if c then v else na)
    (isel (map m cols) (map c cols)) (isel (map m cols) row)
  = isel (map m cols) row.
Proof.
  intros E Himp. revert row E.
  induction cols as [|b cols IH]; intros [|v row] E; simpl in *;
    try discriminate; try reflexivity.
  destruct (m b) eqn:Hm; simpl.
  - rewrite (Himp b Hm), IH; [reflexivity | lia].
  - apply IH; lia.
Qed.

Lemma mask_rows_id {A B V} (na : V) (k : A -> bool) (m : B -> bool)
    (c : A -> B -> bool) (rows : list A) (cols : list B) (vals : list (list V)) :
  length vals = length rows ->
  Forall (fun row => length row = length cols) vals ->
  (forall a b, k a = true -> m b = true -> c a b = true) ->
  zip_with (zip_with (fun (c : bool) v => if c then v else na))
    (isel (map k rows) (map (isel (map m cols)) (map (fun a => map (c a) cols) rows)))
    (isel (map k rows) (map (isel (map m cols)) vals))
  = isel (map k rows) (map (isel (map m cols)) vals).
Proof.
  intros E Hrows Himp. revert vals E Hrows.
  induction rows as [|a rows IH]; intros [|row vals] E Hrows; simpl in *;
    try discriminate; try reflexivity.
  inversion Hrows as [|? ? Hrow Hrest]; subst.
  destruct (k a) eqn:Hk; simpl.
  - rewrite mask_row_id by (auto). rewrite IH; [reflexivity | lia | assumption].
  - apply IH; [lia | assumption].
Qed.

Lemma Forall_isel {A} (P : A -> Prop) (mask : list bool) (l : list A) :
  Forall P l -> Forall P (isel mask l).
Proof.
  intros Hl; revert mask; induction Hl as [|a l Ha _ IH]; intros [|b mask]; simpl;
    try constructor.
  destruct b; [constructor; [assumption | apply IH] | apply IH].
Qed.

Lemma isel_false_mask {A B} (l : list B) (l' : list A) :
  isel (map (fun _ => false) l) l' = [].
Proof.
  revert l'; induction l as [|b l IH]; intros [|a l']; simpl; auto.
Qed.

Lemma isel_andb_mask_l {A B} (b : bool) (f : B -> bool) (l : list B) (l' : list A) :
  isel (map (fun x => b && f x) l) l' = if b then isel (map f l) l' else [].
Proof.
  destruct b; simpl; [reflexivity | apply isel_false_mask].
Qed.

Lemma isel_andb_mask_r {A B} (b : bool) (f : B -> bool) (l : list B) (l' : list A) :
  isel (map (fun x => f x && b) l) l' = if b then isel (map f l) l' else [].
Proof.
  destruct b.
  - f_equal. apply map_ext; intros; apply andb_true_r.
  - rewrite (map_ext _ (fun _ => false)) by (intros; apply andb_false_r).
    apply isel_false_mask.
Qed.

Lemma isel_none {A B} (f : B -> bool) (l : list B) (l' : list A) :
  existsb f l = false -> isel (map f l) l' = [].
Proof.
  revert l'; induction l as [|b l IH]; intros l' E; simpl in *.
  - destruct l'; reflexivity.
  - apply orb_false_iff in E as [E1 E2]. rewrite E1.
    destruct l'; [reflexivity | apply IH, E2].
Qed.

Lemma filter_all {A} (f : A -> bool) (l : list A) :
  Forall (fun a => f a = true) (List.filter f l).
Proof.
  induction l as [|a l IH]; simpl; [constructor|].
  destruct (f a) eqn:E; [constructor|]; assumption.
Qed.

Lemma existsb_filter {A} (f : A -> bool) (l : list A) :
  existsb f (List.filter f l) = existsb f l.
Proof.
  induction l as [|a l IH]; simpl; [reflexivity|].
  destruct (f a) eqn:E; simpl; rewrite ?E; simpl; first [reflexivity | assumption].
Qed.

Section SubsetProps.
Context {T V : Type} `{Numeric T}.
Variable na : V.
Variables latmin latmax lonmin lonmax : T.

Local Abbreviation in_lat := (strictly_between latmin latmax).
Local Abbreviation in_lon := (strictly_between lonmin lonmax).

Lemma box_cond_product (x : DataArray T V) :
  box_cond x latmin latmax lonmin lonmax
  = map (fun la => map (fun lo => in_lat la && in_lon lo) (longitude x)) (latitude x).
Proof.
  unfold box_cond, strictly_between.
  apply map_ext; intros la. apply map_ext; intros lo.
  rewrite <- !andb_assoc. reflexivity.
Qed.

(** [where(..., drop=True)] on the box condition is a plain selection of
    rows and columns: nothing is left to blank. *)
Lemma where_drop_box (x : DataArray T V) :
  wf_array x ->
  where_drop na x (box_cond x latmin latmax lonmin lonmax)
  = if existsb in_lat (latitude x) && existsb in_lon (longitude x)
    then mkDataArray
           (List.filter in_lat (latitude x))
           (List.filter in_lon (longitude x))
           (isel (map in_lat (latitude x)) (map (isel (map in_lon (longitude x))) (values x)))
    else mkDataArray [] [] [].
Proof.
  intros [Hlen Hrows]. unfold where_drop.
  rewrite box_cond_product.
  rewrite any_along_longitude_product, any_along_latitude_product.
  rewrite mask_rows_id with (c := fun la lo => in_lat la && in_lon lo);
    [ | assumption | assumption
      | intros a b Ha Hb; apply andb_true_iff in Ha, Hb;
        apply andb_true_iff; tauto ].
  rewrite !isel_andb_mask_l, !isel_andb_mask_r.
  destruct (existsb in_lat (latitude x)) eqn:Elat;
    destruct (existsb in_lon (longitude x)) eqn:Elon; simpl;
    rewrite ?(isel_none _ _ _ Elat), ?(isel_none _ _ _ Elon), ?isel_map_filter;
    reflexivity.
Qed.
End SubsetProps.

(** ** The order of the carriers *)

Lemma SFcompare_refl (f : spec_float) :
  SFcompare f f = Some Eq \/ SFcompare f f = None.
Proof.
  destruct f as [s|s| |s m e]; simpl; auto; left.
  - destruct s; reflexivity.
  - destruct s; rewrite Z.compare_refl, Pos.compare_cont_refl; reflexivity.
Qed.

#[global] Instance B64_lt_irrefl : LtIrrefl float.
Proof.
  intros a. simpl. rewrite ltb_spec. unfold SFltb.
  destruct (SFcompare_refl (Prim2SF a)) as [-> | ->]; reflexivity.
Qed.

#[global] Instance Exact_lt_irrefl : LtIrrefl Qc.
Proof.
  intros a. simpl. unfold Exact.ltb.
  replace (a ?= a)%Qc with Eq; [reflexivity|].
  symmetry. apply Qceq_alt. reflexivity.
Qed.

Section SubsetTheorems.
Context {T V : Type} `{LtIrrefl T}.
Variable na : V.

Lemma strictly_between_spec (lo hi v : T) :
  strictly_between lo hi v = true <-> num_ltb lo v = true /\ num_ltb v hi = true.
Proof. unfold strictly_between. rewrite andb_true_iff. tauto. Qed.

Lemma strictly_between_lo (lo hi : T) : strictly_between lo hi lo = false.
Proof. unfold strictly_between. rewrite num_ltb_irrefl. apply andb_false_r. Qed.

Lemma strictly_between_hi (lo hi : T) : strictly_between lo hi hi = false.
Proof. unfold strictly_between. rewrite num_ltb_irrefl. reflexivity. Qed.

Lemma wf_assign_coords (x : DataArray T V) (lon' : list T) :
  wf_array x -> length lon' = length (longitude x) -> wf_array (assign_coords x lon').
Proof.
  intros [Hlen Hrows] E. split; simpl; [assumption|].
  eapply Forall_impl; [exact Hrows|]. simpl; intros; congruence.
Qed.

Lemma wf_selection (x : DataArray T V) (f g : T -> bool) :
  wf_array x ->
  wf_array (mkDataArray (List.filter f (latitude x)) (List.filter g (longitude x))
              (isel (map f (latitude x)) (map (isel (map g (longitude x))) (values x)))).
Proof.
  intros [Hlen Hrows]. split; simpl.
  - rewrite <- isel_map_filter. apply isel_length_eq.
    rewrite length_map. assumption.
  - apply Forall_isel. apply Forall_map.
    eapply Forall_impl; [exact Hrows|]. simpl; intros row E.
    rewrite <- isel_map_filter. apply isel_length_eq. assumption.
Qed.

(** The subset is the plain selection of the rows and columns inside the
    box, taken on the (possibly re-labelled) grid. *)
Lemma generate_geographical_subset_eq (xarray : DataArray T V)
    (latmin latmax lonmin lonmax : T) (reassign : bool) :
  wf_array xarray ->
  let lats := latitude xarray in
  let lons := if reassign then map shift_longitude (longitude xarray)
              else longitude xarray in
  generate_geographical_subset na xarray latmin latmax lonmin lonmax reassign
  = if existsb (strictly_between latmin latmax) lats
       && existsb (strictly_between lonmin lonmax) lons
    then mkDataArray
           (List.filter (strictly_between latmin latmax) lats)
           (List.filter (strictly_between lonmin lonmax) lons)
           (isel (map (strictly_between latmin latmax) lats)
              (map (isel (map (strictly_between lonmin lonmax) lons)) (values xarray)))
    else mkDataArray [] [] [].
Proof.
  intros Hwf lats lons. unfold generate_geographical_subset.
  destruct reassign.
  - rewrite where_drop_box
      by (apply wf_assign_coords; [assumption | apply length_map]).
    reflexivity.
  - rewrite where_drop_box by assumption. reflexivity.
Qed.

Lemma wf_empty : wf_array (@mkDataArray T V [] [] []).
Proof. split; simpl; [reflexivity | constructor]. Qed.

Lemma filter_strictly_between_bounds (lo hi : T) (l : list T) (v : T) :
  In v (List.filter (strictly_between lo hi) l) ->
  num_ltb lo v = true /\ num_ltb v hi = true /\ v <> lo /\ v <> hi.
Proof.
  intros Hin. apply filter_In in Hin as [_ Hv].
  pose proof (proj1 (strictly_between_spec lo hi v) Hv) as [H1 H2].
  repeat split; try assumption; intros ->.
  - rewrite strictly_between_lo in Hv; discriminate.
  - rewrite strictly_between_hi in Hv; discriminate.
Qed.

(** C1.  On every well-formed grid and for every box, the subset holds only
    coordinates strictly inside the box (a coordinate equal to a bound is
    excluded); what lies outside is removed from the axes and from the
    values, which shrink to exactly the rows and columns inside, no cell
    being blanked; and when the box contains no grid point the result is
    the empty grid. *)
Theorem generate_geographical_subset_box (xarray : DataArray T V)
    (latmin latmax lonmin lonmax : T) (reassign : bool) :
  wf_array xarray ->
  let lats := latitude xarray in
  let lons := if reassign then map shift_longitude (longitude xarray)
              else longitude xarray in
  let out := generate_geographical_subset na xarray latmin latmax lonmin lonmax reassign in
  let inside := existsb (strictly_between latmin latmax) lats
                && existsb (strictly_between lonmin lonmax) lons in
  (forall la, In la (latitude out) ->
     num_ltb latmin la = true /\ num_ltb la latmax = true /\ la <> latmin /\ la <> latmax) /\
  (forall lo, In lo (longitude out) ->
     num_ltb lonmin lo = true /\ num_ltb lo lonmax = true /\ lo <> lonmin /\ lo <> lonmax) /\
  latitude out = (if inside then List.filter (strictly_between latmin latmax) lats else []) /\
  longitude out = (if inside then List.filter (strictly_between lonmin lonmax) lons else []) /\
  values out = (if inside
                then isel (map (strictly_between latmin latmax) lats)
                       (map (isel (map (strictly_between lonmin lonmax) lons)) (values xarray))
                else []) /\
  wf_array out.
Proof.
  intros Hwf lats lons out inside.
  assert (Hout : out = if inside
                       then mkDataArray
                              (List.filter (strictly_between latmin latmax) lats)
                              (List.filter (strictly_between lonmin lonmax) lons)
                              (isel (map (strictly_between latmin latmax) lats)
                                 (map (isel (map (strictly_between lonmin lonmax) lons))
                                    (values xarray)))
                       else mkDataArray [] [] [])
    by (apply generate_geographical_subset_eq; assumption).
  rewrite Hout. destruct inside; simpl.
  - split; [|split; [|split; [|split; [|split]]]]; try reflexivity.
    + intros la Hla. eapply filter_strictly_between_bounds; eassumption.
    + intros lo Hlo. eapply filter_strictly_between_bounds; eassumption.
    + apply (wf_selection (mkDataArray lats lons (values xarray))).
      subst lats lons. destruct reassign; [|destruct xarray; exact Hwf].
      apply (wf_assign_coords xarray); [assumption | apply length_map].
  - split; [|split; [|split; [|split; [|split]]]];
      try reflexivity; try contradiction. apply wf_empty.
Qed.

Lemma filter_fixpoint (f : T -> bool) (l : list T) :
  List.filter f (List.filter f l) = List.filter f l.
Proof.
  rewrite <- (isel_map_filter f (List.filter f l)).
  apply isel_all_true, filter_all.
Qed.

Lemma Forall_map_true (f : T -> bool) (l : list T) :
  Forall (fun a => f a = true) l -> Forall (fun b => b = true) (map f l).
Proof. induction 1; simpl; constructor; assumption. Qed.

(** Selecting with the masks of a selection that is already inside the box
    changes nothing. *)
Lemma selection_fixpoint (x : DataArray T V) (f g : T -> bool) :
  wf_array x ->
  Forall (fun la => f la = true) (latitude x) ->
  Forall (fun lo => g lo = true) (longitude x) ->
  isel (map f (latitude x)) (map (isel (map g (longitude x))) (values x)) = values x.
Proof.
  intros [Hlen Hrows] Hf Hg.
  assert (Hin : map (isel (map g (longitude x))) (values x) = values x).
  { clear Hlen. induction Hrows as [|row rows Hrow _ IH]; simpl; [reflexivity|].
    rewrite IH. f_equal. apply isel_true_mask.
    - apply Forall_map_true, Hg.
    - rewrite length_map. symmetry. exact Hrow. }
  rewrite Hin. apply isel_true_mask.
  - apply Forall_map_true, Hf.
  - rewrite length_map. symmetry. exact Hlen.
Qed.

(** The selection of the rows and columns inside a box is its own subset
    for that box. *)
Lemma subset_of_selection (x : DataArray T V) (latmin latmax lonmin lonmax : T) :
  wf_array x ->
  let selection :=
    if existsb (strictly_between latmin latmax) (latitude x)
       && existsb (strictly_between lonmin lonmax) (longitude x)
    then mkDataArray
           (List.filter (strictly_between latmin latmax) (latitude x))
           (List.filter (strictly_between lonmin lonmax) (longitude x))
           (isel (map (strictly_between latmin latmax) (latitude x))
              (map (isel (map (strictly_between lonmin lonmax) (longitude x))) (values x)))
    else mkDataArray [] [] [] in
  generate_geographical_subset na selection latmin latmax lonmin lonmax false = selection.
Proof.
  intros Hwf selection. subst selection.
  destruct (existsb (strictly_between latmin latmax) (latitude x)
            && existsb (strictly_between lonmin lonmax) (longitude x)) eqn:Ein.
  - apply andb_true_iff in Ein as [Elat Elon].
    pose proof (wf_selection _ (strictly_between latmin latmax)
                  (strictly_between lonmin lonmax) Hwf) as Hwf1.
    rewrite (generate_geographical_subset_eq _ _ _ _ _ false Hwf1).
    cbn [latitude longitude values].
    rewrite !existsb_filter, Elat, Elon. cbn [andb].
    rewrite !filter_fixpoint. f_equal.
    apply (selection_fixpoint (mkDataArray _ _ _) _ _ Hwf1); apply filter_all.
  - rewrite (generate_geographical_subset_eq _ _ _ _ _ false wf_empty).
    reflexivity.
Qed.

(** C8.  Subsetting a subset again with the same box gives the subset back. *)
Theorem generate_geographical_subset_idempotent (xarray : DataArray T V)
    (latmin latmax lonmin lonmax : T) (reassign : bool) :
  wf_array xarray ->
  let subset := generate_geographical_subset na xarray latmin latmax lonmin lonmax reassign in
  generate_geographical_subset na subset latmin latmax lonmin lonmax false = subset.
Proof.
  intros Hwf subset.
  pose proof (generate_geographical_subset_eq xarray latmin latmax lonmin lonmax
                reassign Hwf) as Hsub.
  cbv zeta in Hsub. fold subset in Hsub.
  set (lons := if reassign then map shift_longitude (longitude xarray)
               else longitude xarray) in *.
  assert (Hwf0 : wf_array (mkDataArray (latitude xarray) lons (values xarray))).
  { subst lons. destruct reassign; [|destruct xarray; exact Hwf].
    apply (wf_assign_coords xarray); [assumption | apply length_map]. }
  clearbody subset. subst subset.
  apply (subset_of_selection (mkDataArray (latitude xarray) lons (values xarray))).
  exact Hwf0.
Qed.
End SubsetTheorems.

(** ** Re-labelling the longitudes *)

Section Reassign.
Context {T V : Type} `{Numeric T}.
Variable na : V.

(** With [reassign=True] the longitudes are re-labelled first, and the
    filter then runs on the re-labelled grid. *)
Lemma reassign_then_filter (x : DataArray T V) (latmin latmax lonmin lonmax : T) :
  generate_geographical_subset na x latmin latmax lonmin lonmax true
  = generate_geographical_subset na
      (assign_coords x (map shift_longitude (longitude x)))
      latmin latmax lonmin lonmax false.
Proof. reflexivity. Qed.

(** Whatever the shape of the values, the longitudes of a subset are a
    selection of the longitudes the filter ran on. *)
Lemma subset_longitude_Forall (P : T -> Prop) (x : DataArray T V)
    (latmin latmax lonmin lonmax : T) (reassign : bool) :
  Forall P (if reassign then map shift_longitude (longitude x) else longitude x) ->
  Forall P (longitude (generate_geographical_subset na x latmin latmax lonmin lonmax reassign)).
Proof.
  intros HP. unfold generate_geographical_subset, where_drop.
  cbn [longitude]. apply Forall_isel.
  destruct reassign; exact HP.
Qed.
End Reassign.

(** *** Exact arithmetic *)

Module ExactFacts.
Local Open Scope Qc_scope.

Lemma this_Q2Qc (q : Q) : (this (Q2Qc q) == q)%Q.
Proof. simpl. apply Qred_correct. Qed.

(** Read a statement over [Qc] as a statement over [Q]. *)
Ltac to_Q :=
  unfold Qcdiv, Qcminus; unfold Qcplus, Qcmult, Qcopp, Qcinv;
  repeat match goal with
         | |- context [this (Q2Qc ?q)] => rewrite (this_Q2Qc q)
         end.

(** The remainder by 360 as a statement over [Q]. *)
Lemma shift_longitude_this (lon : Qc) :
  (this (shift_longitude lon)
   == (lon + 180) - 360 * inject_Z (Qfloor ((lon + 180) / 360)) - 180)%Q.
Proof.
  unfold shift_longitude. simpl num_sub. simpl num_mod. simpl num_add.
  simpl num_of_Z. unfold Exact.remainder, Exact.floor.
  assert (E : (this ((lon + Q2Qc (inject_Z 180)) / Q2Qc (inject_Z 360))
               == (lon + 180) / 360)%Q) by (to_Q; reflexivity).
  rewrite (Qfloor_comp _ _ E). to_Q.
  change (inject_Z 180) with 180%Q. change (inject_Z 360) with 360%Q.
  ring.
Qed.

Lemma Qfloor_unit (q : Q) : (0 <= q)%Q -> (q < 1)%Q -> Qfloor q = 0%Z.
Proof.
  intros H0 H1.
  pose proof (Qfloor_le q) as Hle. pose proof (Qlt_floor q) as Hlt.
  assert (Hk1 : (Qfloor q < 1)%Z)
    by (rewrite Zlt_Qlt; eapply Qle_lt_trans; [exact Hle | exact H1]).
  assert (Hk0 : (0 < Qfloor q + 1)%Z)
    by (rewrite Zlt_Qlt; eapply Qle_lt_trans; [exact H0 | exact Hlt]).
  lia.
Qed.

Lemma shift_longitude_range (lon : Qc) :
  Q2Qc (inject_Z (-180)) <= shift_longitude lon /\
  shift_longitude lon < Q2Qc (inject_Z 180).
Proof.
  unfold Qcle, Qclt. rewrite !this_Q2Qc, shift_longitude_this.
  set (t := ((lon + 180) / 360)%Q).
  pose proof (Qfloor_le t) as Hle. pose proof (Qlt_floor t) as Hlt.
  rewrite inject_Z_plus in Hlt.
  assert (Et : (lon + 180 == 360 * t)%Q) by (unfold t; field).
  set (k := inject_Z (Qfloor t)) in *.
  change (inject_Z 1) with 1%Q in Hlt. change (inject_Z (-180)) with (-180)%Q.
  change (inject_Z 180) with 180%Q.
  split; lra.
Qed.

Lemma shift_longitude_fixpoint (lon : Qc) :
  Q2Qc (inject_Z (-180)) <= lon -> lon < Q2Qc (inject_Z 180) ->
  shift_longitude lon = lon.
Proof.
  unfold Qcle, Qclt. rewrite !this_Q2Qc.
  change (inject_Z (-180)) with (-180)%Q. change (inject_Z 180) with 180%Q.
  intros Hlo Hhi. apply Qc_is_canon. rewrite shift_longitude_this.
  rewrite (Qfloor_unit ((lon + 180) / 360)).
  - change (inject_Z 0) with 0%Q. ring.
  - apply Qle_shift_div_l; [reflexivity | lra].
  - apply Qlt_shift_div_r; [reflexivity | lra].
Qed.

(** Over exact numbers, subsetting again with [reassign=True] changes nothing
    either: the longitudes of the first subset are already re-labelled. *)
Lemma generate_geographical_subset_twice_exact {V : Type} (na : V)
    (xarray : DataArray Qc V) (latmin latmax lonmin lonmax : Qc) :
  wf_array xarray ->
  let subset := generate_geographical_subset na xarray latmin latmax lonmin lonmax true in
  generate_geographical_subset na subset latmin latmax lonmin lonmax true = subset.
Proof.
  intros Hwf subset.
  assert (Hlon : map shift_longitude (longitude subset) = longitude subset).
  { rewrite <- (map_id (longitude subset)) at 2.
    apply map_ext_Forall.
    apply (subset_longitude_Forall na
             (fun lon => shift_longitude lon = lon) xarray _ _ _ _ true).
    apply Forall_map, Forall_forall. intros lon _.
    apply shift_longitude_fixpoint; apply shift_longitude_range. }
  rewrite reassign_then_filter, Hlon.
  replace (assign_coords subset (longitude subset)) with subset
    by (destruct subset; reflexivity).
  subst subset.
  rewrite (generate_geographical_subset_eq na xarray _ _ _ _ true Hwf).
  apply (subset_of_selection na
           (mkDataArray (latitude xarray) (map shift_longitude (longitude xarray))
              (values xarray))).
  apply (wf_assign_coords xarray); [assumption | apply length_map].
Qed.
End ExactFacts.

(** *** binary64 *)

Module B64Facts.
Import B64Check.
Local Open Scope float_scope.

Lemma eighth_range_complete (n : Z) :
  (-5760 <= n <= 5760)%Z -> In n eighth_range.
Proof.
  intros Hn. unfold eighth_range. apply in_map_iff.
  exists (Z.to_nat (n + 5760)). split; [cbv beta; lia|].
  apply in_seq. lia.
Qed.

Lemma shift_agrees_all : forallb shift_agrees eighth_range = true.
Proof. vm_compute. reflexivity. Qed.

(** On the multiples of an eighth of a degree between -720 and 720 the
    binary64 evaluation is exact. *)
Lemma shift_longitude_eighths (n : Z) :
  (-5760 <= n <= 5760)%Z ->
  let lon := shift_longitude (eighths n) in
  lon = eighths ((n + 1440) mod 2880 - 1440)%Z /\
  (-180 <=? lon) = true /\ (lon <? 180) = true.
Proof.
  intros Hn lon.
  pose proof shift_agrees_all as Hall. rewrite forallb_forall in Hall.
  specialize (Hall n (eighth_range_complete n Hn)).
  unfold shift_agrees in Hall. fold lon in Hall.
  apply andb_true_iff in Hall as [Hall Hlt].
  apply andb_true_iff in Hall as [Heq Hle].
  apply Leibniz.eqb_spec in Heq. auto.
Qed.

Lemma shift_longitude_eighths_fixpoint (n : Z) :
  (-1440 <= n < 1440)%Z -> shift_longitude (eighths n) = eighths n.
Proof.
  intros Hn.
  destruct (shift_longitude_eighths n) as [E _]; [lia|].
  rewrite E. f_equal. rewrite Z.mod_small; lia.
Qed.

(** 0.1 is the double 0x1.999999999999ap-4; it is re-labelled to
    0x1.9999999999800p-4 = 0.09999999999999432. *)
Lemma shift_longitude_rounds :
  shift_longitude 0x1.999999999999ap-4 = 0x1.99999999998p-4.
Proof. vm_compute. reflexivity. Qed.

(** The double just below -180 is re-labelled to 180. *)
Lemma shift_longitude_reaches_180 :
  shift_longitude (-0x1.6800000000001p+7) = 180.
Proof. vm_compute. reflexivity. Qed.

Lemma float_neq (a b : float) : Leibniz.eqb a b = false -> a <> b.
Proof.
  intros E Hab. apply Leibniz.eqb_spec in Hab. congruence.
Qed.
End B64Facts.

(** ** Normalisation *)

Section NormalizeProps.
Context {T : Type} `{Numeric T}.

Lemma mapM_ok {A B} (f : A -> result B) (g : A -> B) (l : list A) :
  Forall (fun x => f x = Ok (g x)) l -> mapM f l = Ok (map g l).
Proof.
  induction 1 as [|x l Hx _ IH]; [reflexivity|].
  change (mapM f (x :: l)) with (y ← f x; k ← mapM f l; mret (y :: k)).
  rewrite Hx, IH. reflexivity.
Qed.

Lemma mapM_rows_ok {A B} (f : A -> result B) (g : A -> B) (rows : list (list A)) :
  Forall (Forall (fun x => f x = Ok (g x))) rows ->
  mapM (mapM f) rows = Ok (map (map g) rows).
Proof.
  intros Hrows. apply mapM_ok.
  eapply Forall_impl; [exact Hrows|]. intros row. apply mapM_ok.
Qed.

Lemma fold_left_constant (op : T -> T -> T) (v : T) (l : list T) :
  op v v = v -> Forall (fun x => x = v) l -> fold_left op l v = v.
Proof.
  intros Hop. induction 1 as [|x l -> _ IH]; simpl; [reflexivity|].
  rewrite Hop. exact IH.
Qed.

Lemma dropna_constant (v : T) (l : list T) :
  Forall (fun x => x = v) l -> dropna l = if num_isnan v then [] else l.
Proof.
  unfold dropna. induction 1 as [|x l -> _ IH].
  - destruct (num_isnan v); reflexivity.
  - cbn [List.filter]. rewrite IH. destruct (num_isnan v); reflexivity.
Qed.

(** Any reduction by an idempotent operation of a non-empty constant array
    is the constant. *)
Lemma array_reduce_constant (op : T -> T -> T) (skipna : bool) (v : T) (l : list T) :
  op v v = v -> l <> [] -> Forall (fun x => x = v) l ->
  array_reduce op skipna l = Ok v.
Proof.
  intros Hop Hne Hl.
  assert (Hred : reduce op l = Ok v).
  { destruct Hl as [|x l -> Hl]; [contradiction|].
    simpl. rewrite (fold_left_constant op v l Hop Hl). reflexivity. }
  unfold array_reduce. destruct skipna; [|exact Hred].
  rewrite (dropna_constant v l Hl).
  destruct (num_isnan v); [exact Hred|].
  destruct l; [contradiction | exact Hred].
Qed.

Lemma minimum_idem (v : T) : minimum v v = v.
Proof. unfold minimum. destruct (_ || _); reflexivity. Qed.

Lemma maximum_idem (v : T) : maximum v v = v.
Proof. unfold maximum. destruct (_ || _); reflexivity. Qed.

Lemma Forall_concat_rows (P : T -> Prop) (rows : list (list T)) :
  Forall (Forall P) rows -> Forall P (concat rows).
Proof.
  induction 1 as [|row rows Hrow _ IH]; simpl; [constructor|].
  apply Forall_app; split; assumption.
Qed.
End NormalizeProps.

Module B64Normalize.
Local Open Scope float_scope.

(** [x - x] is a zero for a finite [x] and NaN otherwise; either way
    [(x - x) / (x - x)] is NaN. *)
Lemma sub_self_div_nan (v : float) : (v - v) / (v - v) = nan.
Proof.
  apply Prim2SF_inj. rewrite div_spec, sub_spec.
  destruct (Prim2SF v) as [s|s| |s m e].
  - destruct s; reflexivity.
  - destruct s; reflexivity.
  - reflexivity.
  - unfold SF64sub, SFsub. rewrite Z.sub_diag. reflexivity.
Qed.

(** C4.  A non-empty array whose elements are all the same binary64 value
    is normalised without an exception, to NaN at every position, whether
    the reductions skip NaN or not. *)
Theorem normalize_constant_nan (skipna : bool) (array : DataArray float float) (v : float) :
  concat (values array) <> [] ->
  Forall (Forall (fun x => x = v)) (values array) ->
  normalize skipna array
  = Ok (mkDataArray (latitude array) (longitude array)
          (map (map (fun _ => nan)) (values array))).
Proof.
  intros Hne Hconst. unfold normalize.
  pose proof (Forall_concat_rows _ _ Hconst) as Hflat.
  rewrite (array_reduce_constant minimum skipna v _ (minimum_idem v) Hne Hflat).
  rewrite (array_reduce_constant maximum skipna v _ (maximum_idem v) Hne Hflat).
  cbn [mbind result_bind].
  rewrite (mapM_rows_ok _ (fun _ => nan)); [reflexivity|].
  eapply Forall_impl; [exact Hconst|]. intros row Hrow.
  eapply Forall_impl; [exact Hrow|]. intros x ->.
  cbn. rewrite sub_self_div_nan. reflexivity.
Qed.
End B64Normalize.

Section NormalizeElementwise.
Context {T : Type} `{Numeric T}.

Lemma mapM_Forall2 {A B} (f : A -> result B) (l : list A) (k : list B) :
  mapM f l = Ok k -> Forall2 (fun x y => f x = Ok y) l k.
Proof.
  revert k; induction l as [|x l IH]; intros k E.
  - injection E as <-. constructor.
  - change (mapM f (x :: l)) with (y ← f x; k ← mapM f l; mret (y :: k)) in E.
    destruct (f x) as [y|] eqn:Ex; [|discriminate].
    destruct (mapM f l) as [k'|] eqn:El; [|discriminate].
    injection E as <-. constructor; [exact Ex | apply IH; reflexivity].
Qed.

(** Whatever the carrier, a result of [normalize] keeps the labels and has,
    cell by cell, the value of [(v - min) / (max - min)]. *)
Lemma normalize_elementwise (skipna : bool) (array out : DataArray T T) :
  normalize skipna array = Ok out ->
  exists array_min array_max,
    array_reduce minimum skipna (concat (values array)) = Ok array_min /\
    array_reduce maximum skipna (concat (values array)) = Ok array_max /\
    latitude out = latitude array /\
    longitude out = longitude array /\
    Forall2 (Forall2 (fun v n =>
               num_div (num_sub v array_min) (num_sub array_max array_min) = Ok n))
      (values array) (values out).
Proof.
  unfold normalize. intros E.
  destruct (array_reduce minimum skipna _) as [mn|] eqn:Emin; [|discriminate].
  destruct (array_reduce maximum skipna _) as [mx|] eqn:Emax; [|discriminate].
  cbn [mbind result_bind] in E.
  destruct (mapM _ (values array)) as [vs|] eqn:Evs; [|discriminate].
  injection E as <-. exists mn, mx. cbn [latitude longitude values].
  repeat split; try reflexivity.
  apply mapM_Forall2 in Evs.
  eapply Forall2_impl; [exact Evs|]. intros row out_row.
  apply mapM_Forall2.
Qed.
End NormalizeElementwise.

Module ExactNormalize.
Import Exact.

Local Open Scope Qc_scope.

Lemma ltb_lt (a b : Qc) : Exact.ltb a b = true <-> a < b.
Proof.
  unfold Exact.ltb. rewrite Qclt_alt.
  destruct (a ?= b); split; intros E; try discriminate; reflexivity.
Qed.

Lemma ltb_iff (a b a' b' : Qc) :
  (a < b <-> a' < b') -> Exact.ltb a b = Exact.ltb a' b'.
Proof.
  intros Hiff. destruct (Exact.ltb a b) eqn:E, (Exact.ltb a' b') eqn:E';
    try reflexivity.
  - apply ltb_lt, Hiff, ltb_lt in E. congruence.
  - apply ltb_lt, Hiff, ltb_lt in E'. congruence.
Qed.

Lemma dropna_exact (l : list Qc) : dropna l = l.
Proof.
  unfold dropna. simpl. induction l as [|x l IH]; simpl; congruence.
Qed.

Lemma array_reduce_exact (op : Qc -> Qc -> Qc) (skipna : bool) (l : list Qc) :
  array_reduce op skipna l = reduce op l.
Proof.
  unfold array_reduce. destruct skipna; [|reflexivity].
  rewrite dropna_exact. destruct l; reflexivity.
Qed.

Section Rescale.
Variables lo d : Qc.
Hypothesis d_pos : 0 < d.

Lemma d_nonzero : d <> 0.
Proof. intros E. rewrite E in d_pos. discriminate. Qed.

Lemma rescale_lt (a b : Qc) : a < b <-> rescale lo d a < rescale lo d b.
Proof.
  unfold rescale, Qcdiv, Qcminus.
  rewrite <- (Qcmult_lt_mono_pos_r _ _ (/ d)) by (apply Qcinv_pos, d_pos).
  apply Qcplus_lt_mono_r.
Qed.

Lemma minimum_rescale (a b : Qc) :
  minimum (rescale lo d a) (rescale lo d b) = rescale lo d (minimum a b).
Proof.
  unfold minimum. simpl. rewrite !orb_false_r.
  rewrite <- (ltb_iff a b _ _ (rescale_lt a b)).
  destruct (Exact.ltb a b); reflexivity.
Qed.

Lemma maximum_rescale (a b : Qc) :
  maximum (rescale lo d a) (rescale lo d b) = rescale lo d (maximum a b).
Proof.
  unfold maximum. simpl. rewrite !orb_false_r.
  rewrite <- (ltb_iff b a _ _ (rescale_lt b a)).
  destruct (Exact.ltb b a); reflexivity.
Qed.

Lemma fold_left_rescale (op : Qc -> Qc -> Qc) (l : list Qc) (x : Qc) :
  (forall a b, op (rescale lo d a) (rescale lo d b) = rescale lo d (op a b)) ->
  fold_left op (map (rescale lo d) l) (rescale lo d x) = rescale lo d (fold_left op l x).
Proof.
  intros Hop. revert x; induction l as [|y l IH]; intros x; simpl; [reflexivity|].
  rewrite Hop. apply IH.
Qed.

Lemma reduce_rescale (op : Qc -> Qc -> Qc) (l : list Qc) (r : Qc) :
  (forall a b, op (rescale lo d a) (rescale lo d b) = rescale lo d (op a b)) ->
  reduce op l = Ok r -> reduce op (map (rescale lo d) l) = Ok (rescale lo d r).
Proof.
  intros Hop. destruct l as [|x l]; simpl; [discriminate|].
  intros [= <-]. rewrite fold_left_rescale by exact Hop. reflexivity.
Qed.

Lemma div_rescale (v : Qc) : num_div (num_sub v lo) d = Ok (rescale lo d v).
Proof.
  simpl. unfold Exact.div. destruct (Qc_eq_dec d 0) as [E|_]; [|reflexivity].
  destruct (d_nonzero E).
Qed.
End Rescale.

Lemma rescale_min (lo d : Qc) : rescale lo d lo = 0.
Proof. unfold rescale, Qcdiv, Qcminus. rewrite Qcplus_opp_r. apply Qcmult_0_l. Qed.

Lemma rescale_max (lo hi : Qc) : lo < hi -> rescale lo (hi - lo) hi = 1.
Proof.
  intros Hlt. unfold rescale, Qcdiv. apply Qcmult_inv_r.
  intros E. apply Qclt_minus_iff in Hlt. unfold Qcminus in E.
  rewrite E in Hlt. discriminate.
Qed.

Lemma rescale_unit (v : Qc) : rescale 0 (1 - 0) v = v.
Proof. unfold rescale. field. discriminate. Qed.

Lemma concat_map_rows {A B} (f : A -> B) (rows : list (list A)) :
  concat (map (map f) rows) = map f (concat rows).
Proof. symmetry. apply concat_map. Qed.

Lemma map_rows_id (rows : list (list Qc)) :
  map (map (rescale 0 (1 - 0))) rows = rows.
Proof.
  rewrite <- (map_id rows) at 2. apply map_ext; intros row.
  rewrite <- (map_id row) at 2. apply map_ext, rescale_unit.
Qed.

(** Normalisation of a non-constant array over exact numbers. *)
Lemma normalize_exact (skipna : bool) (array : DataArray Qc Qc) (lo hi : Qc) :
  array_reduce minimum skipna (concat (values array)) = Ok lo ->
  array_reduce maximum skipna (concat (values array)) = Ok hi ->
  lo < hi ->
  let out := mkDataArray (latitude array) (longitude array)
               (map (map (fun v => (v - lo) / (hi - lo))) (values array)) in
  normalize skipna array = Ok out /\
  array_reduce minimum skipna (concat (values out)) = Ok 0 /\
  array_reduce maximum skipna (concat (values out)) = Ok 1 /\
  normalize skipna out = Ok out.
Proof.
  intros Hmin Hmax Hlt out.
  assert (Hd : 0 < hi - lo) by (apply Qclt_minus_iff in Hlt; exact Hlt).
  assert (Hout : normalize skipna array = Ok out).
  { unfold normalize. rewrite Hmin, Hmax. cbn [mbind result_bind].
    rewrite (mapM_rows_ok _ (rescale lo (hi - lo))); [reflexivity|].
    apply Forall_forall; intros row _. apply Forall_forall; intros v _.
    apply div_rescale, Hd. }
  assert (Hmin' : array_reduce minimum skipna (concat (values out)) = Ok 0).
  { rewrite array_reduce_exact in *. cbn [values out].
    change (fun v => (v - lo) / (hi - lo)) with (rescale lo (hi - lo)).
    rewrite concat_map_rows, <- (rescale_min lo (hi - lo)).
    apply reduce_rescale; [apply minimum_rescale, Hd | exact Hmin]. }
  assert (Hmax' : array_reduce maximum skipna (concat (values out)) = Ok 1).
  { rewrite array_reduce_exact in *. cbn [values out].
    change (fun v => (v - lo) / (hi - lo)) with (rescale lo (hi - lo)).
    rewrite concat_map_rows, <- (rescale_max lo hi Hlt).
    apply reduce_rescale; [apply maximum_rescale, Hd | exact Hmax]. }
  repeat split; try assumption.
  unfold normalize. rewrite Hmin', Hmax'. cbn [mbind result_bind].
  rewrite (mapM_rows_ok _ (rescale 0 (1 - 0))).
  - rewrite map_rows_id. reflexivity.
  - apply Forall_forall; intros row _. apply Forall_forall; intros v _.
    apply div_rescale. reflexivity.
Qed.
End ExactNormalize.

(** ** Binary64 arithmetic: rounding, order, subtraction and division *)

Module Binary64Facts.
Import Binary64.





Lemma pow2_pos (n : Z) : 0 <= n -> 0 < 2 ^ n.
Proof. intros. apply Z.pow_pos_nonneg; lia. Qed.

Lemma rn_bounds (N n : Z) : 0 <= n -> N / 2 ^ n <= rn N n <= N / 2 ^ n + 1.
Proof.
  intros Hn. unfold rn.
  destruct (2 * (N mod 2 ^ n) ?= 2 ^ n); [destruct (Z.even _)| |]; lia.
Qed.

Lemma rn_exact (k n : Z) : 0 <= n -> rn (k * 2 ^ n) n = k.
Proof.
  intros Hn. pose proof (pow2_pos n Hn) as HP. unfold rn.
  rewrite Z.mod_mul, Z.div_mul by lia.
  destruct (Z.compare_spec (2 * 0) (2 ^ n)); lia.
Qed.

Lemma rn_0 (N : Z) : rn N 0 = N.
Proof. rewrite <- (Z.mul_1_r N) at 1. exact (rn_exact N 0 (Z.le_refl 0)). Qed.

Lemma rn_mono (N1 N2 n : Z) : 0 <= n -> N1 <= N2 -> rn N1 n <= rn N2 n.
Proof.
  intros Hn HN. pose proof (pow2_pos n Hn) as HP.
  pose proof (Z.div_le_mono N1 N2 (2 ^ n) HP HN) as Hq.
  destruct (Z.eq_dec (N1 / 2 ^ n) (N2 / 2 ^ n)) as [E|NE].
  - pose proof (Z.div_mod N1 (2 ^ n) ltac:(lia)) as D1.
    pose proof (Z.div_mod N2 (2 ^ n) ltac:(lia)) as D2.
    assert (Hr : N1 mod 2 ^ n <= N2 mod 2 ^ n) by (rewrite E in D1; lia).
    unfold rn. rewrite E.
    destruct (Z.compare_spec (2 * (N1 mod 2 ^ n)) (2 ^ n)),
             (Z.compare_spec (2 * (N2 mod 2 ^ n)) (2 ^ n));
      try destruct (Z.even _); lia.
  - pose proof (rn_bounds N1 n Hn). pose proof (rn_bounds N2 n Hn). lia.
Qed.

Lemma rn_scale (N n k : Z) : 0 <= n -> 0 <= k -> rn (N * 2 ^ k) (n + k) = rn N n.
Proof.
  intros Hn Hk. pose proof (pow2_pos n Hn) as HP. pose proof (pow2_pos k Hk) as HK.
  unfold rn. rewrite Z.pow_add_r by lia.
  rewrite Z.div_mul_cancel_r by lia.
  rewrite Z.mul_mod_distr_r by lia.
  replace (2 * (N mod 2 ^ n * 2 ^ k)) with (2 * (N mod 2 ^ n) * 2 ^ k) by ring.
  rewrite <- Zmult_compare_compat_r by lia. reflexivity.
Qed.

Lemma ulp_exp_nonneg (W : Z) : 0 <= ulp_exp W.
Proof. unfold ulp_exp. lia. Qed.

Lemma rnd_0 : rnd 0 = 0.
Proof. reflexivity. Qed.

Lemma rnd_lower (W : Z) : 0 < W -> 2 ^ Z.log2 W <= rnd W.
Proof.
  intros HW. unfold rnd. set (n := ulp_exp W).
  assert (Hn : 0 <= n) by apply ulp_exp_nonneg.
  pose proof (pow2_pos n Hn) as HP.
  pose proof (Z.log2_spec W HW) as [HL _].
  pose proof (Z.log2_nonneg W) as HL0.
  pose proof (rn_bounds W n Hn) as [Hq _].
  assert (Hle : n <= Z.log2 W) by (unfold n, ulp_exp; lia).
  replace (Z.log2 W) with ((Z.log2 W - n) + n) in HL |- * by lia.
  rewrite Z.pow_add_r in HL |- * by lia.
  apply Z.mul_le_mono_nonneg_r; [lia|].
  etransitivity; [|exact Hq].
  apply Z.div_le_lower_bound; lia.
Qed.

Lemma rnd_pos (W : Z) : 0 < W -> 0 < rnd W.
Proof.
  intros HW. pose proof (rnd_lower W HW).
  pose proof (pow2_pos (Z.log2 W) (Z.log2_nonneg W)). lia.
Qed.

Lemma rnd_upper (W : Z) : 0 <= W -> rnd W <= 2 ^ (ulp_exp W + 53).
Proof.
  intros HW. unfold rnd. set (n := ulp_exp W).
  assert (Hn : 0 <= n) by apply ulp_exp_nonneg.
  pose proof (pow2_pos n Hn) as HP.
  rewrite Z.pow_add_r by lia. rewrite (Z.mul_comm (2 ^ n)).
  apply Z.mul_le_mono_nonneg_r; [lia|].
  pose proof (rn_bounds W n Hn) as [_ Hq].
  assert (W < 2 ^ 53 * 2 ^ n).
  { destruct (Z.eq_dec W 0) as [->|NZ]; [lia|].
    pose proof (Z.log2_spec W ltac:(lia)) as [_ HU].
    eapply Z.lt_le_trans; [exact HU|].
    rewrite <- Z.pow_add_r by lia.
    apply Z.pow_le_mono_r; [lia|]. unfold n, ulp_exp. lia. }
  assert (W / 2 ^ n < 2 ^ 53) by (apply Z.div_lt_upper_bound; lia).
  lia.
Qed.

Lemma rnd_mono (W1 W2 : Z) : 0 <= W1 -> W1 <= W2 -> rnd W1 <= rnd W2.
Proof.
  intros H1 H12.
  assert (Hn : ulp_exp W1 <= ulp_exp W2).
  { unfold ulp_exp. pose proof (Z.log2_le_mono W1 W2 H12). lia. }
  destruct (Z.eq_dec (ulp_exp W1) (ulp_exp W2)) as [E|NE].
  - unfold rnd. rewrite E.
    apply Z.mul_le_mono_nonneg_r.
    + pose proof (pow2_pos _ (ulp_exp_nonneg W2)). lia.
    + apply rn_mono; [apply ulp_exp_nonneg|exact H12].
  - pose proof (rnd_upper W1 H1) as HU.
    assert (HW2 : 0 < W2).
    { destruct (Z.eq_dec W2 0) as [->|]; [|lia].
      assert (W1 = 0) by lia. subst. lia. }
    pose proof (rnd_lower W2 HW2) as HL.
    pose proof (ulp_exp_nonneg W1).
    assert (ulp_exp W1 + 53 <= Z.log2 W2) by (unfold ulp_exp in *; lia).
    pose proof (Z.pow_le_mono_r 2 _ _ ltac:(lia) H0). lia.
Qed.

Lemma srnd_mono (z1 z2 : Z) : z1 <= z2 -> srnd z1 <= srnd z2.
Proof.
  intros H. unfold srnd.
  destruct (Z.sgn_spec z1) as [[? ->]|[[? ->]|[? ->]]],
           (Z.sgn_spec z2) as [[? ->]|[[? ->]|[? ->]]]; try lia.
  - rewrite !Z.mul_1_l. apply rnd_mono; lia.
  - subst. rewrite Z.abs_0, rnd_0.
    pose proof (rnd_pos (Z.abs z2) ltac:(lia)). lia.
  - pose proof (rnd_pos (Z.abs z2) ltac:(lia)).
    pose proof (rnd_pos (Z.abs z1) ltac:(lia)). lia.
  - subst. rewrite Z.abs_0, rnd_0.
    pose proof (rnd_pos (Z.abs z1) ltac:(lia)). lia.
  - pose proof (rnd_mono (Z.abs z2) (Z.abs z1) ltac:(lia) ltac:(lia)). lia.
Qed.

Lemma srnd_0 : srnd 0 = 0.
Proof. reflexivity. Qed.

Lemma srnd_pos (z : Z) : 0 < z -> 0 < srnd z.
Proof.
  intros H. unfold srnd. rewrite Z.sgn_pos, Z.abs_eq by lia.
  pose proof (rnd_pos z H). lia.
Qed.

Lemma srnd_nonneg (z : Z) : 0 <= z -> srnd z = rnd z.
Proof.
  intros H. unfold srnd. destruct (Z.eq_dec z 0) as [->|]; [reflexivity|].
  rewrite Z.sgn_pos, Z.abs_eq by lia. lia.
Qed.

Lemma digits2_size (p : positive) : digits2_pos p = Pos.size p.
Proof. induction p; simpl; congruence. Qed.

Lemma digits2_log2 (p : positive) : Z.pos (digits2_pos p) = Z.log2 (Z.pos p) + 1.
Proof.
  rewrite digits2_size. destruct p; simpl; try reflexivity; rewrite Pos2Z.inj_succ; lia.
Qed.

Lemma Zdigits2_log2 (m : Z) : 0 < m -> Zdigits2 m = Z.log2 m + 1.
Proof. destruct m; try lia. intros _. apply digits2_log2. Qed.

Lemma iter_pos_iter {A} (f : A -> A) (p : positive) (x : A) :
  SpecFloat.iter_pos f p x = Pos.iter f x p.
Proof.
  revert x. induction p as [p IH|p IH|]; intros x; simpl.
  - rewrite !IH, <- !Pos.iter_swap. reflexivity.
  - rewrite !IH. reflexivity.
  - reflexivity.
Qed.

Lemma shr_1_spec (m : Z) (r s : bool) :
  0 <= m ->
  shr_1 {| shr_m := m; shr_r := r; shr_s := s |}
  = {| shr_m := m / 2; shr_r := Z.odd m; shr_s := r || s |}.
Proof.
  intros Hm. rewrite <- Z.div2_div.
  destruct m as [|[p|p|]|]; try reflexivity; lia.
Qed.

Lemma mod_pow2_succ (N n : Z) :
  0 <= n ->
  N mod 2 ^ (n + 1) = N mod 2 ^ n + 2 ^ n * (if Z.odd (N / 2 ^ n) then 1 else 0).
Proof.
  intros Hn. pose proof (pow2_pos n Hn).
  rewrite Z.pow_add_r, Z.pow_1_r by lia.
  rewrite Z.rem_mul_r by lia. rewrite Zmod_odd. reflexivity.
Qed.

(** [p] right shifts of an exact record: the quotient, whether the remainder
    reaches one half, and whether it differs from zero and one half. *)
Lemma shr_iter (N : Z) (p : positive) :
  0 <= N ->
  SpecFloat.iter_pos shr_1 p {| shr_m := N; shr_r := false; shr_s := false |}
  = {| shr_m := N / 2 ^ Z.pos p;
       shr_r := 2 ^ (Z.pos p - 1) <=? N mod 2 ^ Z.pos p;
       shr_s := negb (N mod 2 ^ (Z.pos p - 1) =? 0) |}.
Proof.
  intros HN. rewrite iter_pos_iter.
  induction p as [|p IH] using Pos.peano_ind.
  - cbn [Pos.iter]. rewrite shr_1_spec by exact HN.
    change (2 ^ (1 - 1)) with 1. rewrite Z.mod_1_r. change (2 ^ 1) with 2.
    rewrite Zmod_odd. f_equal. destruct (Z.odd N); reflexivity.
  - rewrite Pos.iter_succ, IH.
    assert (Hq : 0 <= N / 2 ^ Z.pos p).
    { apply Z.div_pos; [exact HN|]. apply pow2_pos. lia. }
    rewrite shr_1_spec by exact Hq.
    rewrite Pos2Z.inj_succ. unfold Z.succ.
    replace (Z.pos p + 1 - 1) with (Z.pos p) by lia.
    pose proof (pow2_pos (Z.pos p) ltac:(lia)) as HP.
    pose proof (pow2_pos (Z.pos p - 1) ltac:(lia)) as HH.
    pose proof (Z.mod_pos_bound N (2 ^ Z.pos p) HP) as HB.
    pose proof (Z.mod_pos_bound N (2 ^ (Z.pos p - 1)) HH) as HB'.
    f_equal.
    + rewrite Z.div_div by lia. f_equal.
      rewrite Z.pow_add_r, Z.pow_1_r by lia. reflexivity.
    + rewrite (mod_pow2_succ N (Z.pos p)) by lia.
      destruct (Z.odd (N / 2 ^ Z.pos p)); lia.
    + pose proof (mod_pow2_succ N (Z.pos p - 1) ltac:(lia)) as E.
      replace (Z.pos p - 1 + 1) with (Z.pos p) in E by lia.
      destruct (Z.odd (N / 2 ^ (Z.pos p - 1))); lia.
Qed.

Lemma shr_iter_m (rec : shr_record) (p : positive) :
  0 <= shr_m rec -> shr_m (SpecFloat.iter_pos shr_1 p rec) = shr_m rec / 2 ^ Z.pos p.
Proof.
  intros HN. rewrite iter_pos_iter.
  induction p as [|p IH] using Pos.peano_ind.
  - cbn [Pos.iter]. destruct rec as [m r s]. cbn [shr_m] in *.
    rewrite shr_1_spec by exact HN. reflexivity.
  - rewrite Pos.iter_succ.
    destruct (Pos.iter shr_1 rec p) as [m r s] eqn:E. cbn [shr_m] in IH.
    assert (Hq : 0 <= m).
    { rewrite IH. apply Z.div_pos; [exact HN|]. apply pow2_pos. lia. }
    rewrite shr_1_spec by exact Hq. cbn [shr_m]. rewrite IH.
    rewrite Pos2Z.inj_succ. unfold Z.succ.
    rewrite Z.div_div by (try apply Z.pow_nonzero; try apply pow2_pos; lia).
    f_equal. rewrite Z.pow_add_r, Z.pow_1_r by lia. reflexivity.
Qed.

(** Rounding the shifted record is rounding to nearest even. *)
Lemma round_shr (N : Z) (p : positive) :
  0 <= N ->
  let rec := SpecFloat.iter_pos shr_1 p {| shr_m := N; shr_r := false; shr_s := false |} in
  round_nearest_even (shr_m rec) (loc_of_shr_record rec) = rn N (Z.pos p).
Proof.
  intros HN rec. unfold rec. rewrite shr_iter by exact HN.
  cbn [shr_m]. unfold rn, loc_of_shr_record, round_nearest_even.
  pose proof (pow2_pos (Z.pos p - 1) ltac:(lia)) as HH.
  pose proof (Z.mod_pos_bound N (2 ^ (Z.pos p - 1)) HH) as HB'.
  pose proof (mod_pow2_succ N (Z.pos p - 1) ltac:(lia)) as E.
  replace (Z.pos p - 1 + 1) with (Z.pos p) in E by lia.
  assert (EP : 2 ^ Z.pos p = 2 * 2 ^ (Z.pos p - 1)).
  { rewrite <- Z.pow_succ_r by lia. f_equal. lia. }
  destruct (Z.leb_spec (2 ^ (Z.pos p - 1)) (N mod 2 ^ Z.pos p)) as [L|L],
           (Z.eqb_spec (N mod 2 ^ (Z.pos p - 1)) 0) as [Z0|Z0]; cbn [negb];
    destruct (Z.compare_spec (2 * (N mod 2 ^ Z.pos p)) (2 ^ Z.pos p)) as [C|C|C];
    try reflexivity; exfalso;
    destruct (Z.odd (N / 2 ^ (Z.pos p - 1))); lia.
Qed.


Lemma shift_of_nonneg (m e : Z) : 0 <= shift_of m e.
Proof. unfold shift_of. lia. Qed.

Lemma shr_fexp_m (m e : Z) (l : location) :
  0 <= m ->
  shr_m (fst (shr_fexp prec emax m e l)) = m / 2 ^ shift_of m e /\
  snd (shr_fexp prec emax m e l) = e + shift_of m e.
Proof.
  intros Hm. unfold shr_fexp, shr, shift_of.
  assert (Hrec : shr_m (shr_record_of_loc m l) = m) by (destruct l as [|[]]; reflexivity).
  destruct (fexp prec emax (Zdigits2 m + e) - e) as [|p|p] eqn:E; cbn [fst snd].
  - rewrite Hrec. change (Z.max 0 0) with 0. rewrite Z.div_1_r. lia.
  - rewrite shr_iter_m by (rewrite Hrec; exact Hm). rewrite Hrec.
    rewrite Z.max_l by lia. split; reflexivity.
  - rewrite Hrec. rewrite Z.max_r by lia. rewrite Z.div_1_r. lia.
Qed.

Lemma shr_fexp_exact (m e : Z) :
  0 <= m ->
  let '(rec, e') := shr_fexp prec emax m e loc_Exact in
  round_nearest_even (shr_m rec) (loc_of_shr_record rec) = rn m (shift_of m e) /\
  e' = e + shift_of m e.
Proof.
  intros Hm. unfold shr_fexp, shr, shift_of. cbn [shr_record_of_loc].
  destruct (fexp prec emax (Zdigits2 m + e) - e) as [|p|p] eqn:E.
  - cbn. rewrite rn_0. lia.
  - rewrite (round_shr m p Hm). rewrite Z.max_l by lia. split; reflexivity.
  - cbn [shr_m loc_of_shr_record round_nearest_even]. rewrite Z.max_r by lia.
    rewrite rn_0. lia.
Qed.

(** [binary_round_aux] on an exact input, in closed form. *)
Lemma binary_round_aux_exact (s : bool) (m e : Z) :
  0 <= m ->
  binary_round_aux prec emax s m e loc_Exact =
  let m1 := rn m (shift_of m e) in
  let e1 := e + shift_of m e in
  let m2 := m1 / 2 ^ shift_of m1 e1 in
  let e2 := e1 + shift_of m1 e1 in
  match m2 with
  | 0 => S754_zero s
  | Z.pos p => if e2 <=? emax - prec then S754_finite s p e2 else S754_infinity s
  | Z.neg _ => S754_nan
  end.
Proof.
  intros Hm. unfold binary_round_aux.
  pose proof (shr_fexp_exact m e Hm) as H1.
  destruct (shr_fexp prec emax m e loc_Exact) as [rec1 e1]. destruct H1 as [H1 ->].
  rewrite H1.
  assert (Hm1 : 0 <= rn m (shift_of m e)).
  { pose proof (rn_bounds m (shift_of m e) (shift_of_nonneg m e)) as [L _].
    pose proof (Z.div_pos m (2 ^ shift_of m e) Hm
                  (pow2_pos _ (shift_of_nonneg m e))). lia. }
  pose proof (shr_fexp_m (rn m (shift_of m e)) (e + shift_of m e) loc_Exact Hm1) as [H2 H3].
  destruct (shr_fexp prec emax (rn m (shift_of m e)) (e + shift_of m e) loc_Exact)
    as [rec2 e2]. cbn [fst snd] in H2, H3. rewrite H2, H3. reflexivity.
Qed.

Lemma fexp_eq (x : Z) : fexp prec emax x = Z.max (x - 53) (-1074).
Proof. reflexivity. Qed.

Lemma iter_xO (m d : positive) : Z.pos (Pos.iter xO m d) = Z.pos m * 2 ^ Z.pos d.
Proof.
  induction d as [|d IH] using Pos.peano_ind.
  - cbn [Pos.iter]. change (2 ^ 1) with 2. lia.
  - rewrite Pos.iter_succ, Pos2Z.inj_xO, IH, Pos2Z.inj_succ, Z.pow_succ_r by lia. ring.
Qed.

Lemma shl_align_spec (m : positive) (e t : Z) :
  snd (shl_align m e t) = Z.min e t /\
  Z.pos (fst (shl_align m e t)) = Z.pos m * 2 ^ (e - Z.min e t).
Proof.
  unfold shl_align. destruct (t - e) as [|d|d] eqn:E; cbn [fst snd].
  - rewrite Z.min_l by lia. rewrite Z.sub_diag. lia.
  - rewrite Z.min_l by lia. rewrite Z.sub_diag. lia.
  - rewrite Z.min_r by lia. rewrite iter_xO. split; [reflexivity|].
    f_equal. f_equal. lia.
Qed.

Lemma log2_shift (m k : Z) : 0 < m -> 0 <= k -> Z.log2 (m * 2 ^ k) = Z.log2 m + k.
Proof. intros. rewrite Z.log2_mul_pow2 by lia. lia. Qed.

Lemma rn_range (M n : Z) :
  0 < M -> 0 <= n -> Z.log2 M + 1 <= 53 + n -> rn M n <= 2 ^ 53.
Proof.
  intros HM Hn HD. pose proof (pow2_pos n Hn) as HP.
  pose proof (rn_bounds M n Hn) as [_ HU].
  pose proof (Z.log2_spec M HM) as [_ HL].
  assert (M < 2 ^ 53 * 2 ^ n).
  { eapply Z.lt_le_trans; [exact HL|]. rewrite <- Z.pow_add_r by lia.
    apply Z.pow_le_mono_r; lia. }
  assert (M / 2 ^ n < 2 ^ 53) by (apply Z.div_lt_upper_bound; lia).
  lia.
Qed.

Lemma rn_normal (M n : Z) :
  0 < M -> 0 <= n -> 53 + n <= Z.log2 M + 1 -> 2 ^ 52 <= rn M n.
Proof.
  intros HM Hn HD. pose proof (pow2_pos n Hn) as HP.
  pose proof (rn_bounds M n Hn) as [HL _].
  pose proof (Z.log2_spec M HM) as [HS _].
  assert (2 ^ 52 * 2 ^ n <= M).
  { etransitivity; [|exact HS]. rewrite <- Z.pow_add_r by lia.
    apply Z.pow_le_mono_r; lia. }
  assert (2 ^ 52 <= M / 2 ^ n) by (apply Z.div_le_lower_bound; lia).
  lia.
Qed.

Lemma shift_of_eq (m e : Z) :
  0 < m -> shift_of m e = Z.max (Z.max (Z.log2 m + 1 + e - 53) (-1074) - e) 0.
Proof. intros Hm. unfold shift_of. rewrite fexp_eq, Zdigits2_log2 by exact Hm. reflexivity. Qed.

Lemma valid_finite_intro (s : bool) (m : positive) (e : Z) :
  Z.log2 (Z.pos m) < 53 -> (-1074 < e -> 52 <= Z.log2 (Z.pos m)) -> -1074 <= e <= 971 ->
  valid_binary (S754_finite s m e) = true.
Proof.
  intros Hd Hn He. cbn [SpecFloat.valid_binary]. unfold bounded, canonical_mantissa.
  rewrite andb_true_iff, Z.eqb_eq, Z.leb_le, fexp_eq, digits2_log2.
  change (emax - prec) with 971. lia.
Qed.

(** [binary_round] rounds the scaled integer [m * 2 ^ (e + 1074)] with
    [rnd], or overflows when the rounded value reaches [2 ^ 2098]. *)
Lemma binary_round_spec (s : bool) (m : positive) (e : Z) :
  -1074 <= e ->
  match binary_round prec emax s m e with
  | S754_finite s' m' e' =>
      s' = s /\ valid_binary (S754_finite s' m' e') = true /\
      Z.pos m' * 2 ^ (e' + 1074) = rnd (Z.pos m * 2 ^ (e + 1074))
  | S754_infinity s' => s' = s /\ 2 ^ 2098 <= rnd (Z.pos m * 2 ^ (e + 1074))
  | _ => False
  end.
Proof.
  intros He. unfold binary_round.
  set (t := fexp prec emax (Z.pos (digits2_pos m) + e)).
  assert (Et : t = Z.max (Z.log2 (Z.pos m) + 1 + e - 53) (-1074)).
  { unfold t. rewrite fexp_eq, digits2_log2. reflexivity. }
  pose proof (shl_align_spec m e t) as [Hez HM].
  destruct (shl_align m e t) as [mz ez]. cbn [fst snd] in Hez, HM.
  rewrite <- Hez in HM.
  set (M := Z.pos mz) in *.
  assert (HM0 : 0 < M) by (unfold M; lia).
  assert (Hez' : -1074 <= ez /\ ez <= t /\ ez <= e) by lia.
  assert (HlM : Z.log2 M = Z.log2 (Z.pos m) + (e - ez)).
  { rewrite HM. apply log2_shift; lia. }
  assert (Hsh : shift_of M ez = t - ez).
  { rewrite shift_of_eq by exact HM0. rewrite HlM. lia. }
  rewrite binary_round_aux_exact by lia. cbv zeta. rewrite Hsh.
  replace (ez + (t - ez)) with t by lia.
  set (n := t - ez). assert (Hn : 0 <= n) by (unfold n; lia).
  set (W := Z.pos m * 2 ^ (e + 1074)).
  assert (HW : W = M * 2 ^ (ez + 1074)).
  { unfold W. rewrite HM. rewrite <- Z.mul_assoc, <- Z.pow_add_r by lia.
    f_equal. f_equal. lia. }
  assert (HW0 : 0 < W).
  { unfold W. pose proof (pow2_pos (e + 1074) ltac:(lia)). lia. }
  assert (Hulp : ulp_exp W = t + 1074).
  { unfold ulp_exp, W. rewrite log2_shift by lia. lia. }
  set (m1 := rn M n).
  assert (Hrnd : rnd W = m1 * 2 ^ (t + 1074)).
  { unfold rnd. rewrite Hulp. f_equal. rewrite HW.
    replace (t + 1074) with (n + (ez + 1074)) by (unfold n; lia).
    apply rn_scale; lia. }
  assert (Hup : m1 <= 2 ^ 53).
  { apply rn_range; [exact HM0|exact Hn|]. rewrite HlM. unfold n. lia. }
  assert (Hlow : -1074 < t -> 2 ^ 52 <= m1).
  { intros Ht. apply rn_normal; [exact HM0|exact Hn|]. rewrite HlM. unfold n. lia. }
  assert (Hpos : 0 < m1).
  { destruct (Z.eq_dec n 0) as [E0|NE].
    - unfold m1. rewrite E0, rn_0. exact HM0.
    - assert (-1074 < t) by (unfold n in *; lia).
      specialize (Hlow H). lia. }
  assert (Hsh2 : shift_of m1 t = Z.max (Z.log2 m1 + 1 - 53) 0).
  { rewrite shift_of_eq by exact Hpos. lia. }
  rewrite Hsh2.
  destruct (Z.eq_dec m1 (2 ^ 53)) as [E53|N53].
  - rewrite E53. change (Z.log2 (2 ^ 53)) with 53.
    change (Z.max (53 + 1 - 53) 0) with 1.
    change (2 ^ 53 / 2 ^ 1) with (Z.pos 4503599627370496).
    cbv iota beta.
    assert (E2 : 2 ^ 52 * 2 ^ (t + 1 + 1074) = rnd W).
    { rewrite Hrnd, E53. replace (t + 1 + 1074) with (1 + (t + 1074)) by lia.
      rewrite Z.pow_add_r by lia. change (2 ^ 53) with (2 ^ 52 * 2 ^ 1). ring. }
    destruct (Z.leb_spec (t + 1) (emax - prec)) as [L|L].
    + split; [reflexivity|]. split; [|exact E2].
      change (emax - prec) with 971 in L.
      apply valid_finite_intro; change (Z.log2 (Z.pos 4503599627370496)) with 52; lia.
    + split; [reflexivity|]. rewrite <- E2.
      change (emax - prec) with 971 in L.
      change (2 ^ 2098) with (2 ^ 52 * 2 ^ 2046).
      apply Z.mul_le_mono_nonneg_l; [lia|]. apply Z.pow_le_mono_r; lia.
  - assert (Hl1 : Z.log2 m1 < 53) by (apply Z.log2_lt_pow2; lia).
    rewrite Z.max_r by lia. rewrite Z.div_1_r, Z.add_0_r.
    destruct m1 as [|p1|p1] eqn:Em1; try lia.
    destruct (Z.leb_spec t (emax - prec)) as [L|L].
    + split; [reflexivity|]. split; [|symmetry; exact Hrnd].
      change (emax - prec) with 971 in L.
      apply valid_finite_intro; [exact Hl1| |lia].
      intros Ht. apply Z.log2_le_pow2; [lia|]. exact (Hlow Ht).
    + split; [reflexivity|]. rewrite Hrnd.
      change (emax - prec) with 971 in L.
      change (2 ^ 2098) with (2 ^ 52 * 2 ^ 2046).
      specialize (Hlow ltac:(lia)).
      pose proof (Z.pow_le_mono_r 2 2046 (t + 1074) ltac:(lia) ltac:(lia)).
      apply Z.mul_le_mono_nonneg; lia.
Qed.




Lemma valid_finite_inv (s : bool) (m : positive) (e : Z) :
  valid_binary (S754_finite s m e) = true ->
  -1074 <= e <= 971 /\ Z.pos m < 2 ^ 53 /\ (-1074 < e -> 2 ^ 52 <= Z.pos m).
Proof.
  cbn [SpecFloat.valid_binary]. unfold bounded, canonical_mantissa.
  rewrite andb_true_iff, Z.eqb_eq, Z.leb_le, fexp_eq, digits2_log2.
  change (emax - prec) with 971. intros [Hc He].
  split; [lia|]. split.
  - apply Z.log2_lt_pow2; lia.
  - intros Hn. apply Z.log2_le_pow2; lia.
Qed.

Lemma valid_finite_ulp (s : bool) (m : positive) (e : Z) :
  valid_binary (S754_finite s m e) = true ->
  ulp_exp (Z.pos m * 2 ^ (e + 1074)) = e + 1074.
Proof.
  cbn [SpecFloat.valid_binary]. unfold bounded, canonical_mantissa.
  rewrite andb_true_iff, Z.eqb_eq, Z.leb_le, fexp_eq, digits2_log2.
  intros [Hc He]. unfold ulp_exp. rewrite log2_shift by lia. lia.
Qed.

(** A representable value is not rounded. *)
Lemma rnd_representable (s : bool) (m : positive) (e : Z) :
  valid_binary (S754_finite s m e) = true ->
  rnd (Z.pos m * 2 ^ (e + 1074)) = Z.pos m * 2 ^ (e + 1074).
Proof.
  intros Hv. unfold rnd. rewrite (valid_finite_ulp s m e Hv).
  pose proof (valid_finite_inv s m e Hv) as [He _].
  rewrite rn_exact by lia. reflexivity.
Qed.

Lemma finite_val_bounds (s : bool) (m : positive) (e : Z) :
  valid_binary (S754_finite s m e) = true ->
  0 < Z.pos m * 2 ^ (e + 1074) < 2 ^ 2098.
Proof.
  intros Hv. pose proof (valid_finite_inv s m e Hv) as (He & Hm & _).
  pose proof (pow2_pos (e + 1074) ltac:(lia)) as HP.
  split; [lia|].
  pose proof (Z.pow_le_mono_r 2 (e + 1074) 2045 ltac:(lia) ltac:(lia)) as HE.
  change (2 ^ 2098) with (2 ^ 53 * 2 ^ 2045).
  apply Z.lt_le_trans with (2 ^ 53 * 2 ^ (e + 1074)).
  - apply Z.mul_lt_mono_pos_r; lia.
  - apply Z.mul_le_mono_nonneg_l; lia.
Qed.

(** Within the canonical representation the exponent orders the values. *)
Lemma canonical_exponent_lt (s1 s2 : bool) (m1 m2 : positive) (e1 e2 : Z) :
  valid_binary (S754_finite s1 m1 e1) = true ->
  valid_binary (S754_finite s2 m2 e2) = true ->
  e1 < e2 ->
  Z.pos m1 * 2 ^ (e1 + 1074) < Z.pos m2 * 2 ^ (e2 + 1074).
Proof.
  intros H1 H2 Hlt.
  pose proof (valid_finite_inv _ _ _ H1) as (He1 & Hm1 & _).
  pose proof (valid_finite_inv _ _ _ H2) as (He2 & _ & Hm2).
  specialize (Hm2 ltac:(lia)).
  replace (e2 + 1074) with ((e2 - e1 - 1) + 1 + (e1 + 1074)) by lia.
  rewrite (Z.pow_add_r 2 (e2 - e1 - 1 + 1) (e1 + 1074)) by lia.
  rewrite (Z.pow_add_r 2 (e2 - e1 - 1) 1) by lia. change (2 ^ 1) with 2.
  pose proof (pow2_pos (e1 + 1074) ltac:(lia)) as HP.
  pose proof (pow2_pos (e2 - e1 - 1) ltac:(lia)) as HD.
  apply Z.lt_le_trans with (2 ^ 53 * 2 ^ (e1 + 1074)).
  - apply Z.mul_lt_mono_pos_r; lia.
  - rewrite Z.mul_assoc. apply Z.mul_le_mono_nonneg_r; [lia|].
    change (2 ^ 53) with (2 ^ 52 * 2). nia.
Qed.

Lemma compare_cont_Eq (m1 m2 : positive) :
  Pos.compare_cont Eq m1 m2 = (Z.pos m1 ?= Z.pos m2).
Proof. reflexivity. Qed.

Lemma finite_compare (s1 s2 : bool) (m1 m2 : positive) (e1 e2 : Z) :
  valid_binary (S754_finite s1 m1 e1) = true ->
  valid_binary (S754_finite s2 m2 e2) = true ->
  match e1 ?= e2 with
  | Eq => Pos.compare_cont Eq m1 m2
  | Lt => Lt
  | Gt => Gt
  end = (Z.pos m1 * 2 ^ (e1 + 1074) ?= Z.pos m2 * 2 ^ (e2 + 1074)).
Proof.
  intros H1 H2. destruct (Z.compare_spec e1 e2) as [E|L|G].
  - subst e2. pose proof (valid_finite_inv _ _ _ H1) as (He1 & _).
    rewrite compare_cont_Eq. apply Zmult_compare_compat_r.
    pose proof (pow2_pos (e1 + 1074) ltac:(lia)). lia.
  - symmetry. apply Z.compare_lt_iff. exact (canonical_exponent_lt _ _ _ _ _ _ H1 H2 L).
  - symmetry. apply Z.compare_gt_iff. exact (canonical_exponent_lt _ _ _ _ _ _ H2 H1 G).
Qed.

Ltac compare_by_lia :=
  symmetry;
  match goal with
  | |- (_ ?= _) = Lt => apply Z.compare_lt_iff
  | |- (_ ?= _) = Gt => apply Z.compare_gt_iff
  | |- (_ ?= _) = Eq => apply Z.compare_eq_iff
  end; lia.

(** The comparison of two numbers is the comparison of their values. *)
Lemma SFcompare_val (f1 f2 : spec_float) :
  valid_binary f1 = true -> valid_binary f2 = true ->
  SFnan f1 = false -> SFnan f2 = false ->
  SFcompare f1 f2 = Some (SFval f1 ?= SFval f2).
Proof.
  intros H1 H2 N1 N2.
  destruct f1 as [s1|s1| |s1 m1 e1], f2 as [s2|s2| |s2 m2 e2];
    try discriminate; cbn [SFcompare SFval].
  - reflexivity.
  - destruct s2; reflexivity.
  - pose proof (finite_val_bounds _ _ _ H2) as B.
    destruct s2; cbn [cond_Zopp]; f_equal; compare_by_lia.
  - destruct s1; reflexivity.
  - destruct s1, s2; reflexivity.
  - pose proof (finite_val_bounds _ _ _ H2) as B.
    destruct s1, s2; cbn [cond_Zopp]; f_equal; compare_by_lia.
  - pose proof (finite_val_bounds _ _ _ H1) as B.
    destruct s1; cbn [cond_Zopp]; f_equal; compare_by_lia.
  - pose proof (finite_val_bounds _ _ _ H1) as B.
    destruct s1, s2; cbn [cond_Zopp]; f_equal; compare_by_lia.
  - pose proof (finite_val_bounds _ _ _ H1) as B1.
    pose proof (finite_val_bounds _ _ _ H2) as B2.
    pose proof (finite_compare s1 s2 m1 m2 e1 e2 H1 H2) as C.
    destruct s1, s2; cbn [cond_Zopp]; f_equal.
    + rewrite Z.compare_opp.
      rewrite (Z.compare_antisym (Z.pos m1 * 2 ^ (e1 + 1074))), <- C.
      destruct (e1 ?= e2); reflexivity.
    + compare_by_lia.
    + compare_by_lia.
    + exact C.
Qed.

(** Two finite numbers of the same non-zero value are the same number. *)
Lemma SFval_inj (f1 f2 : spec_float) :
  valid_binary f1 = true -> valid_binary f2 = true ->
  SFfinite f1 = true -> SFfinite f2 = true ->
  SFval f1 = SFval f2 -> SFval f1 <> 0 -> f1 = f2.
Proof.
  intros H1 H2 F1 F2 E NZ.
  destruct f1 as [s1|s1| |s1 m1 e1]; try discriminate; [cbn in NZ; lia|].
  destruct f2 as [s2|s2| |s2 m2 e2]; try discriminate; [cbn in E; cbn in NZ; lia|].
  pose proof (finite_val_bounds _ _ _ H1) as B1.
  pose proof (finite_val_bounds _ _ _ H2) as B2.
  cbn [SFval] in E.
  assert (s1 = s2) by (destruct s1, s2; cbn [cond_Zopp] in E; try reflexivity; lia).
  subst s2.
  assert (E' : Z.pos m1 * 2 ^ (e1 + 1074) = Z.pos m2 * 2 ^ (e2 + 1074))
    by (destruct s1; cbn [cond_Zopp] in E; lia).
  pose proof (finite_compare s1 s1 m1 m2 e1 e2 H1 H2) as C.
  rewrite E', Z.compare_refl in C.
  destruct (Z.compare_spec e1 e2) as [Ee| |]; try discriminate.
  subst e2. rewrite compare_cont_Eq in C. apply Z.compare_eq in C.
  congruence.
Qed.

Lemma srnd_representable (s s' : bool) (m : positive) (e : Z) :
  valid_binary (S754_finite s m e) = true ->
  srnd (cond_Zopp s' (Z.pos m * 2 ^ (e + 1074))) = cond_Zopp s' (Z.pos m * 2 ^ (e + 1074)).
Proof.
  intros Hv. pose proof (finite_val_bounds s m e Hv) as B.
  pose proof (rnd_representable s m e Hv) as R. unfold srnd.
  destruct s'; cbn [cond_Zopp].
  - rewrite Z.sgn_neg, Z.abs_neq by lia. rewrite Z.opp_involutive, R. lia.
  - rewrite Z.sgn_pos, Z.abs_eq by lia. rewrite R. lia.
Qed.

Lemma shl_align_val (s : bool) (m : positive) (e ez : Z) :
  -1074 <= ez -> ez <= e ->
  cond_Zopp s (Z.pos (fst (shl_align m e ez))) * 2 ^ (ez + 1074)
  = cond_Zopp s (Z.pos m * 2 ^ (e + 1074)).
Proof.
  intros H1 H2. pose proof (shl_align_spec m e ez) as [_ E]. rewrite E.
  rewrite Z.min_r by lia.
  replace (e + 1074) with ((e - ez) + (ez + 1074)) by lia.
  rewrite (Z.pow_add_r 2 (e - ez)) by lia.
  destruct s; cbn [cond_Zopp]; ring.
Qed.

(** Subtraction of finite numbers rounds the exact difference. *)
Lemma SFsub_val (x y : spec_float) :
  valid_binary x = true -> valid_binary y = true ->
  SFfinite x = true -> SFfinite y = true ->
  match SF64sub x y with
  | S754_nan => False
  | S754_infinity _ => 2 ^ 2098 <= rnd (Z.abs (SFval x - SFval y))
  | r => SFval r = srnd (SFval x - SFval y)
  end.
Proof.
  intros Hx Hy Fx Fy.
  destruct x as [sx|sx| |sx mx ex]; try discriminate;
    destruct y as [sy|sy| |sy my ey]; try discriminate.
  - destruct sx, sy; reflexivity.
  - cbn [SF64sub SFsub SFval]. rewrite Z.sub_0_l.
    rewrite <- (srnd_representable sy (negb sy) my ey Hy).
    f_equal. destruct sy; cbn [cond_Zopp negb]; lia.
  - cbn [SF64sub SFsub SFval]. rewrite Z.sub_0_r.
    symmetry. exact (srnd_representable sx sx mx ex Hx).
  - pose proof (valid_finite_inv _ _ _ Hx) as (Hex & _).
    pose proof (valid_finite_inv _ _ _ Hy) as (Hey & _).
    cbn [SF64sub SFsub SFval]. cbv zeta.
    change (IntDef.Z.min ex ey) with (Z.min ex ey).
    set (ez := Z.min ex ey).
    assert (Hez : -1074 <= ez /\ ez <= ex /\ ez <= ey) by (unfold ez; lia).
    pose proof (shl_align_val sx mx ex ez ltac:(lia) ltac:(lia)) as EX.
    pose proof (shl_align_val sy my ey ez ltac:(lia) ltac:(lia)) as EY.
    set (X := cond_Zopp sx (Z.pos (fst (shl_align mx ex ez)))) in *.
    set (Y := cond_Zopp sy (Z.pos (fst (shl_align my ey ez)))) in *.
    rewrite <- EX, <- EY, <- Z.mul_sub_distr_r.
    pose proof (pow2_pos (ez + 1074) ltac:(lia)) as HP.
    unfold binary_normalize.
    destruct (X - Y) as [|n|n] eqn:EN.
    + reflexivity.
    + pose proof (binary_round_spec false n ez ltac:(lia)) as S.
      destruct (binary_round prec emax false n ez) as [s'|s'| |s' m' e']; try contradiction.
      * destruct S as [_ S]. rewrite Z.abs_eq by lia. exact S.
      * destruct S as (-> & _ & S). cbn [SFval cond_Zopp]. rewrite S.
        rewrite srnd_nonneg by lia. reflexivity.
    + pose proof (binary_round_spec true n ez ltac:(lia)) as S.
      destruct (binary_round prec emax true n ez) as [s'|s'| |s' m' e']; try contradiction.
      * destruct S as [_ S]. rewrite Z.abs_neq by lia.
        replace (- (Z.neg n * 2 ^ (ez + 1074))) with (Z.pos n * 2 ^ (ez + 1074)) by lia.
        exact S.
      * destruct S as (-> & _ & S). cbn [SFval cond_Zopp]. rewrite S.
        unfold srnd. rewrite Z.sgn_neg, Z.abs_neq by lia.
        replace (- (Z.neg n * 2 ^ (ez + 1074))) with (Z.pos n * 2 ^ (ez + 1074)) by lia.
        lia.
Qed.

Lemma round_nearest_even_bounds (m : Z) (l : location) :
  m <= round_nearest_even m l <= m + 1.
Proof. destruct l as [|[]]; cbn; try destruct (Z.even m); lia. Qed.

Lemma Zdigits2_le (m k : Z) : 0 <= m -> 0 <= k -> m < 2 ^ k -> Zdigits2 m <= k.
Proof.
  intros Hm Hk Hlt. destruct (Z.eq_dec m 0) as [->|NZ]; [cbn; lia|].
  rewrite Zdigits2_log2 by lia.
  pose proof (proj1 (Z.log2_lt_pow2 m k ltac:(lia)) Hlt). lia.
Qed.

(** Rounding a quantity below one gives at most one. *)
Lemma binary_round_aux_below_one (s : bool) (M E : Z) (l : location) :
  0 <= M -> E <= 0 -> M < 2 ^ (- E) ->
  match binary_round_aux prec emax s M E l with
  | S754_zero s' => s' = s
  | S754_finite s' m e => s' = s /\ -1074 <= e /\ Z.pos m * 2 ^ (e + 1074) <= 2 ^ 1074
  | _ => False
  end.
Proof.
  intros HM HE HB. unfold binary_round_aux.
  pose proof (shr_fexp_m M E l HM) as [H1 H1'].
  destruct (shr_fexp prec emax M E l) as [rec1 e1]. cbn [fst snd] in H1, H1'.
  set (n1 := shift_of M E) in *.
  assert (Hn1 : 0 <= n1) by apply shift_of_nonneg.
  assert (He1 : -1074 <= e1 <= 0).
  { subst e1. unfold n1, shift_of. rewrite fexp_eq.
    pose proof (Zdigits2_le M (- E) HM ltac:(lia) HB). lia. }
  set (m0 := shr_m rec1) in *.
  assert (Hm0 : 0 <= m0 < 2 ^ (- e1)).
  { rewrite H1. split.
    - apply Z.div_pos; [exact HM|]. apply pow2_pos; lia.
    - apply Z.div_lt_upper_bound; [apply pow2_pos; lia|].
      rewrite <- Z.pow_add_r by lia. replace (n1 + - e1) with (- E) by lia. exact HB. }
  pose proof (round_nearest_even_bounds m0 (loc_of_shr_record rec1)) as Hr.
  set (m1 := round_nearest_even m0 (loc_of_shr_record rec1)) in *.
  assert (Hm1 : 0 <= m1 <= 2 ^ (- e1)) by lia.
  pose proof (shr_fexp_m m1 e1 loc_Exact ltac:(lia)) as [H2 H2'].
  destruct (shr_fexp prec emax m1 e1 loc_Exact) as [rec2 e2]. cbn [fst snd] in H2, H2'.
  set (n2 := shift_of m1 e1) in *.
  assert (Hn2 : 0 <= n2) by apply shift_of_nonneg.
  assert (He2 : -1074 <= e2 <= 0).
  { subst e2. unfold n2, shift_of. rewrite fexp_eq.
    assert (m1 < 2 ^ (- e1 + 1)).
    { rewrite Z.pow_add_r by lia. pose proof (pow2_pos (- e1) ltac:(lia)). lia. }
    pose proof (Zdigits2_le m1 (- e1 + 1) ltac:(lia) ltac:(lia) H). lia. }
  assert (Hm2 : 0 <= shr_m rec2 <= 2 ^ (- e2)).
  { rewrite H2. split.
    - apply Z.div_pos; [lia|]. apply pow2_pos; lia.
    - apply Z.div_le_upper_bound; [apply pow2_pos; lia|].
      rewrite <- Z.pow_add_r by lia. replace (n2 + - e2) with (- e1) by lia. lia. }
  destruct (shr_m rec2) as [|m2|m2] eqn:Em2; try lia.
  - reflexivity.
  - change (emax - prec) with 971.
    destruct (Z.leb_spec e2 971) as [_|]; [|lia].
    split; [reflexivity|]. split; [lia|].
    replace 1074 with (- e2 + (e2 + 1074)) at 2 by lia.
    rewrite (Z.pow_add_r 2 (- e2)) by lia.
    apply Z.mul_le_mono_nonneg_r; [|lia].
    pose proof (pow2_pos (e2 + 1074) ltac:(lia)). lia.
Qed.

(** A quotient of two positive numbers, the smaller by the larger, is at most
    one. *)
Lemma SFdiv_below_one (ma md : positive) (ea ed : Z) :
  valid_binary (S754_finite false ma ea) = true ->
  valid_binary (S754_finite false md ed) = true ->
  Z.pos ma * 2 ^ (ea + 1074) < Z.pos md * 2 ^ (ed + 1074) ->
  match SF64div (S754_finite false ma ea) (S754_finite false md ed) with
  | S754_zero s' => s' = false
  | S754_finite s' m e => s' = false /\ -1074 <= e /\ Z.pos m * 2 ^ (e + 1074) <= 2 ^ 1074
  | _ => False
  end.
Proof.
  intros Ha Hd Hlt.
  pose proof (valid_finite_inv _ _ _ Ha) as (Hea & _).
  pose proof (valid_finite_inv _ _ _ Hd) as (Hed & _).
  cbn [SF64div SFdiv xorb]. unfold SFdiv_core_binary. cbv zeta.
  change (IntDef.Z.min) with Z.min. change (IntDef.Z.shiftl) with Z.shiftl.
  change (IntDef.Z.div_eucl) with Z.div_eucl.
  rewrite fexp_eq. cbn [Zdigits2]. rewrite !digits2_log2.
  set (E := Z.min (Z.max (Z.log2 (Z.pos ma) + 1 + ea - (Z.log2 (Z.pos md) + 1 + ed) - 53) (-1074))
                  (ea - ed)).
  set (sh := ea - ed - E).
  assert (Hsh : 0 <= sh) by (unfold sh, E; lia).
  pose proof (pow2_pos (ea + 1074) ltac:(lia)) as HPa.
  pose proof (pow2_pos (ed + 1074) ltac:(lia)) as HPd.
  pose proof (Z.log2_spec (Z.pos ma) ltac:(lia)) as [La _].
  pose proof (Z.log2_spec (Z.pos md) ltac:(lia)) as [_ Ld].
  pose proof (Z.log2_nonneg (Z.pos ma)) as La0.
  pose proof (Z.log2_nonneg (Z.pos md)) as Ld0.
  assert (Hdig : Z.log2 (Z.pos ma) + ea < Z.log2 (Z.pos md) + 1 + ed).
  { assert (2 ^ (Z.log2 (Z.pos ma) + (ea + 1074))
            < 2 ^ (Z.succ (Z.log2 (Z.pos md)) + (ed + 1074))).
    { rewrite (Z.pow_add_r 2 (Z.log2 (Z.pos ma))) by lia.
      rewrite (Z.pow_add_r 2 (Z.succ (Z.log2 (Z.pos md)))) by lia.
      apply Z.le_lt_trans with (Z.pos ma * 2 ^ (ea + 1074)).
      - apply Z.mul_le_mono_nonneg_r; lia.
      - eapply Z.lt_trans; [exact Hlt|]. apply Z.mul_lt_mono_pos_r; lia. }
    apply Z.pow_lt_mono_r_iff in H; lia. }
  assert (HE : E <= 0) by (unfold E; lia).
  set (m' := match sh with 0 => Z.pos ma | Z.pos _ => Z.shiftl (Z.pos ma) sh | Z.neg _ => 0 end).
  assert (Em' : m' = Z.pos ma * 2 ^ sh).
  { unfold m'. destruct sh eqn:Es; try lia.
    rewrite Z.shiftl_mul_pow2 by lia. reflexivity. }
  pose proof (Z_div_mod m' (Z.pos md) ltac:(lia)) as DM.
  destruct (Z.div_eucl m' (Z.pos md)) as [q r]. destruct DM as [DM Hr].
  apply binary_round_aux_below_one.
  - assert (0 <= m') by (rewrite Em'; pose proof (pow2_pos sh Hsh); lia). nia.
  - exact HE.
  - pose proof (pow2_pos sh Hsh) as HPs.
    pose proof (pow2_pos (- E) ltac:(lia)) as HPE.
    assert (K : m' < Z.pos md * 2 ^ (- E)).
    { rewrite Em'. apply Z.mul_lt_mono_pos_r with (p := 2 ^ (ed + 1074)); [lia|].
      replace (Z.pos ma * 2 ^ sh * 2 ^ (ed + 1074))
        with (Z.pos ma * 2 ^ (ea + 1074) * 2 ^ (- E)).
      - replace (Z.pos md * 2 ^ (- E) * 2 ^ (ed + 1074))
          with (Z.pos md * 2 ^ (ed + 1074) * 2 ^ (- E)) by ring.
        apply Z.mul_lt_mono_pos_r; lia.
      - rewrite <- !Z.mul_assoc, <- !Z.pow_add_r by lia. f_equal. f_equal.
        unfold sh. lia. }
    nia.
Qed.
Lemma ulp_exp_mono (W1 W2 : Z) : W1 <= W2 -> ulp_exp W1 <= ulp_exp W2.
Proof. intros H. unfold ulp_exp. pose proof (Z.log2_le_mono W1 W2 H). lia. Qed.

Lemma pow2_divide (a b : Z) : 0 <= a <= b -> (2 ^ a | 2 ^ b).
Proof.
  intros H. exists (2 ^ (b - a)). rewrite <- Z.pow_add_r by lia. f_equal. lia.
Qed.

(** A multiple of its own unit in the last place is not rounded. *)
Lemma rnd_divide (W : Z) : (2 ^ ulp_exp W | W) -> rnd W = W.
Proof.
  intros [c E]. unfold rnd. rewrite E at 1.
  rewrite rn_exact by apply ulp_exp_nonneg. symmetry. exact E.
Qed.

Lemma representable_divide (s : bool) (m : positive) (e : Z) :
  valid_binary (S754_finite s m e) = true ->
  (2 ^ ulp_exp (Z.pos m * 2 ^ (e + 1074)) | Z.pos m * 2 ^ (e + 1074)).
Proof.
  intros Hv. rewrite (valid_finite_ulp s m e Hv). exists (Z.pos m). reflexivity.
Qed.

(** Sterbenz: the difference of two representable numbers within a factor
    of two of each other is representable. *)
Lemma sterbenz_divide (Wa Wb : Z) :
  (2 ^ ulp_exp Wa | Wa) -> (2 ^ ulp_exp Wb | Wb) ->
  0 < Wb -> Wb <= Wa -> Wa <= 2 * Wb ->
  (2 ^ ulp_exp (Wa - Wb) | Wa - Wb).
Proof.
  intros Ha Hb H0 H1 H2.
  pose proof (ulp_exp_mono (Wa - Wb) Wb ltac:(lia)) as M1.
  pose proof (ulp_exp_mono Wb Wa H1) as M2.
  pose proof (ulp_exp_nonneg (Wa - Wb)) as N.
  apply Z.divide_sub_r.
  - eapply Z.divide_trans; [|exact Ha]. apply pow2_divide. lia.
  - eapply Z.divide_trans; [|exact Hb]. apply pow2_divide. lia.
Qed.

Lemma srnd_divide (z : Z) : (2 ^ ulp_exp (Z.abs z) | Z.abs z) -> srnd z = z.
Proof.
  intros H. unfold srnd. rewrite (rnd_divide _ H).
  destruct (Z.sgn_spec z) as [[? ->]|[[? ->]|[? ->]]]; lia.
Qed.

(** Addition of finite numbers rounds the exact sum. *)
Lemma SFadd_val (x y : spec_float) :
  valid_binary x = true -> valid_binary y = true ->
  SFfinite x = true -> SFfinite y = true ->
  match SF64add (x) y with
  | S754_nan => False
  | S754_infinity _ => 2 ^ 2098 <= rnd (Z.abs (SFval x + SFval y))
  | r => SFval r = srnd (SFval x + SFval y)
  end.
Proof.
  intros Hx Hy Fx Fy.
  destruct x as [sx|sx| |sx mx ex]; try discriminate;
    destruct y as [sy|sy| |sy my ey]; try discriminate.
  - destruct sx, sy; reflexivity.
  - cbn [SF64add SFadd SFval]. rewrite Z.add_0_l.
    symmetry. exact (srnd_representable sy sy my ey Hy).
  - cbn [SF64add SFadd SFval]. rewrite Z.add_0_r.
    symmetry. exact (srnd_representable sx sx mx ex Hx).
  - pose proof (valid_finite_inv _ _ _ Hx) as (Hex & _).
    pose proof (valid_finite_inv _ _ _ Hy) as (Hey & _).
    cbn [SF64add SFadd SFval]. cbv zeta.
    change (IntDef.Z.min ex ey) with (Z.min ex ey).
    set (ez := Z.min ex ey).
    assert (Hez : -1074 <= ez /\ ez <= ex /\ ez <= ey) by (unfold ez; lia).
    pose proof (shl_align_val sx mx ex ez ltac:(lia) ltac:(lia)) as EX.
    pose proof (shl_align_val sy my ey ez ltac:(lia) ltac:(lia)) as EY.
    set (X := cond_Zopp sx (Z.pos (fst (shl_align mx ex ez)))) in *.
    set (Y := cond_Zopp sy (Z.pos (fst (shl_align my ey ez)))) in *.
    rewrite <- EX, <- EY, <- Z.mul_add_distr_r.
    pose proof (pow2_pos (ez + 1074) ltac:(lia)) as HP.
    unfold binary_normalize.
    destruct (X + Y) as [|n|n] eqn:EN.
    + reflexivity.
    + pose proof (binary_round_spec false n ez ltac:(lia)) as S.
      destruct (binary_round prec emax false n ez) as [s'|s'| |s' m' e']; try contradiction.
      * destruct S as [_ S]. rewrite Z.abs_eq by lia. exact S.
      * destruct S as (-> & _ & S). cbn [SFval cond_Zopp]. rewrite S.
        rewrite srnd_nonneg by lia. reflexivity.
    + pose proof (binary_round_spec true n ez ltac:(lia)) as S.
      destruct (binary_round prec emax true n ez) as [s'|s'| |s' m' e']; try contradiction.
      * destruct S as [_ S]. rewrite Z.abs_neq by lia.
        replace (- (Z.neg n * 2 ^ (ez + 1074))) with (Z.pos n * 2 ^ (ez + 1074)) by lia.
        exact S.
      * destruct S as (-> & _ & S). cbn [SFval cond_Zopp]. rewrite S.
        unfold srnd. rewrite Z.sgn_neg, Z.abs_neq by lia.
        replace (- (Z.neg n * 2 ^ (ez + 1074))) with (Z.pos n * 2 ^ (ez + 1074)) by lia.
        lia.
Qed.

(** Normalising a number that is not zero: a valid finite number of the
    rounded value, or an overflow. *)
Lemma binary_normalize_spec (N e : Z) (sz : bool) :
  -1074 <= e -> N <> 0 ->
  match binary_normalize prec emax N e sz with
  | S754_finite s m e' =>
      valid_binary (S754_finite s m e') = true /\
      SFval (S754_finite s m e') = srnd (N * 2 ^ (e + 1074))
  | S754_infinity _ => 2 ^ 2098 <= rnd (Z.abs (N * 2 ^ (e + 1074)))
  | _ => False
  end.
Proof.
  intros He HN. pose proof (pow2_pos (e + 1074) ltac:(lia)) as HP.
  unfold binary_normalize. destruct N as [|n|n]; [contradiction| |].
  - pose proof (binary_round_spec false n e He) as S.
    destruct (binary_round prec emax false n e) as [s'|s'| |s' m' e']; try contradiction.
    + destruct S as [_ S]. rewrite Z.abs_eq by lia. exact S.
    + destruct S as (-> & Hv & S). split; [exact Hv|]. cbn [SFval cond_Zopp].
      rewrite S, srnd_nonneg by lia. reflexivity.
  - pose proof (binary_round_spec true n e He) as S.
    destruct (binary_round prec emax true n e) as [s'|s'| |s' m' e']; try contradiction.
    + destruct S as [_ S]. rewrite Z.abs_neq by lia.
      replace (- (Z.neg n * 2 ^ (e + 1074))) with (Z.pos n * 2 ^ (e + 1074)) by lia.
      exact S.
    + destruct S as (-> & Hv & S). split; [exact Hv|]. cbn [SFval cond_Zopp].
      rewrite S. unfold srnd. rewrite Z.sgn_neg, Z.abs_neq by lia.
      replace (- (Z.neg n * 2 ^ (e + 1074))) with (Z.pos n * 2 ^ (e + 1074)) by lia.
      lia.
Qed.
End Binary64Facts.

Module B64Arith.
Import Binary64 Binary64Facts.
Local Open Scope float_scope.

(** A finite double minus itself is +0. *)
Lemma sub_self_finite (x : float) :
  (exists s, Prim2SF x = S754_zero s) \/ (exists s m e, Prim2SF x = S754_finite s m e) ->
  x - x = 0.
Proof.
  intros Hx. apply Prim2SF_inj. rewrite sub_spec.
  destruct Hx as [[s ->] | (s & m & e & ->)].
  - destruct s; reflexivity.
  - unfold SF64sub, SFsub. rewrite Z.sub_diag. reflexivity.
Qed.

Lemma zero_div_finite (d : float) (s : bool) (m : positive) (e : Z) :
  Prim2SF d = S754_finite s m e -> 0 / d = if s then -0 else 0.
Proof.
  intros Hd. apply Prim2SF_inj. rewrite div_spec, Hd.
  destruct s; reflexivity.
Qed.

Lemma div_eucl_exact (a b : Z) : (0 < b)%Z -> Z.div_eucl (b * a) b = (a, 0%Z).
Proof.
  intros Hb.
  assert (Hb0 : b <> 0%Z) by lia.
  pose proof (Z.div_eucl_eq (b * a) b Hb0) as E.
  pose proof (Z.mod_pos_bound (b * a) b Hb) as Hr.
  unfold Z.modulo in Hr. destruct (Z.div_eucl (b * a) b) as [q r].
  assert (Hq : q = a) by nia. subst q.
  assert (Hr0 : r = 0%Z) by lia. subst r. reflexivity.
Qed.

(** A finite non-zero double divided by itself is 1. *)
Lemma div_self_finite (d : float) (s : bool) (m : positive) (e : Z) :
  Prim2SF d = S754_finite s m e -> d / d = 1.
Proof.
  intros Hd. apply Prim2SF_inj. rewrite div_spec, Hd.
  unfold SF64div, SFdiv, SFdiv_core_binary.
  replace (Zdigits2 (Z.pos m) + e - (Zdigits2 (Z.pos m) + e))%Z with 0%Z by lia.
  rewrite Z.sub_diag.
  change (Z.min (fexp prec emax 0) 0) with (-53)%Z.
  change (0 - -53)%Z with 53%Z. cbv iota.
  rewrite Z.shiftl_mul_pow2 by lia.
  rewrite (Z.mul_comm (Z.pos m)), (Z.mul_comm (2 ^ 53)).
  rewrite div_eucl_exact by lia.
  rewrite xorb_nilpotent.
  replace (new_location (Z.pos m) 0) with loc_Exact
    by (unfold new_location; destruct (Z.even (Z.pos m)); reflexivity).
  reflexivity.
Qed.

Lemma sub_zero_r (y : float) : y - 0 = y.
Proof.
  apply Prim2SF_inj. rewrite sub_spec.
  change (Prim2SF 0) with (S754_zero false).
  destruct (Prim2SF y) as [s|s| |s m e]; try reflexivity.
  destruct s; reflexivity.
Qed.

Lemma Prim2SF_one : Prim2SF 1 = S754_finite false 4503599627370496 (-52).
Proof. reflexivity. Qed.

(** Rounding a mantissa that is already canonical for its exponent. *)
Lemma binary_round_aux_canonical (s : bool) (m : positive) (e : Z) :
  fexp prec emax (Z.pos (digits2_pos m) + e) = e ->
  (e <= emax - prec)%Z ->
  binary_round_aux prec emax s (Z.pos m) e loc_Exact = S754_finite s m e.
Proof.
  intros Hc Hb. unfold binary_round_aux, shr_fexp. cbn [Zdigits2].
  rewrite Hc, Z.sub_diag. cbn [shr shr_record_of_loc shr_m loc_of_shr_record
                               round_nearest_even Zdigits2].
  rewrite Hc, Z.sub_diag. cbn [shr shr_m].
  apply Z.leb_le in Hb. rewrite Hb. reflexivity.
Qed.

Lemma div_one_r (y : float) : y / 1 = y.
Proof.
  apply Prim2SF_inj. rewrite div_spec, Prim2SF_one.
  pose proof (Prim2SF_valid y) as Hv.
  destruct (Prim2SF y) as [s|s| |s m e]; try (destruct s; reflexivity); try reflexivity.
  unfold valid_binary, bounded, canonical_mantissa in Hv.
  apply andb_true_iff in Hv as [Hc Hb].
  apply Z.eqb_eq in Hc. apply Z.leb_le in Hb.
  unfold SF64div, SFdiv, SFdiv_core_binary.
  change (Zdigits2 4503599627370496) with 53%Z.
  cbn [Zdigits2]. rewrite xorb_false_r.
  assert (Hc' := Hc). unfold fexp, SpecFloat.emin, prec, emax in Hc'.
  set (d := Z.pos (digits2_pos m)) in *.
  destruct (Z.eq_dec e (-1074)%Z) as [He | He].
  - replace (Z.min (fexp prec emax (d + e - (53 + -52))) (e - -52)) with e
      by (unfold fexp, SpecFloat.emin, prec, emax; lia).
    replace (e - -52 - e)%Z with 52%Z by lia. cbv iota.
    rewrite Z.shiftl_mul_pow2 by lia.
    rewrite Z.mul_comm, div_eucl_exact by lia.
    change (new_location 4503599627370496 0) with loc_Exact.
    apply binary_round_aux_canonical; assumption.
  - replace (Z.min (fexp prec emax (d + e - (53 + -52))) (e - -52)) with (e - 1)%Z
      by (unfold fexp, SpecFloat.emin, prec, emax; lia).
    replace (e - -52 - (e - 1))%Z with 53%Z by lia. cbv iota.
    rewrite Z.shiftl_mul_pow2 by lia.
    replace (Z.pos m * 2 ^ 53)%Z with (4503599627370496 * Z.pos m~0)%Z by lia.
    rewrite div_eucl_exact by lia.
    change (new_location 4503599627370496 0) with loc_Exact.
    unfold binary_round_aux, shr_fexp. cbn [Zdigits2 digits2_pos].
    replace (fexp prec emax (Z.pos (Pos.succ (digits2_pos m)) + (e - 1)) - (e - 1))%Z
      with 1%Z by (unfold fexp, SpecFloat.emin, prec, emax; fold d; lia).
    cbn [shr shr_record_of_loc SpecFloat.iter_pos shr_1 shr_m loc_of_shr_record orb
         round_nearest_even Zdigits2].
    replace (e - 1 + 1)%Z with e by lia.
    fold d. rewrite Hc, Z.sub_diag. cbn [shr shr_m].
    apply Z.leb_le in Hb. rewrite Hb. reflexivity.
Qed.

Lemma is_nan_spec (x : float) : is_nan x = SFnan (Prim2SF x).
Proof.
  unfold is_nan. rewrite FloatAxioms.eqb_spec. unfold SFeqb.
  destruct (Prim2SF x) as [s|s| |s m e]; cbn; try (destruct s; reflexivity); try reflexivity.
  destruct s; rewrite Z.compare_refl, Pos.compare_cont_refl; reflexivity.
Qed.

Lemma is_finite_spec (x : float) : is_finite x = SFfinite (Prim2SF x).
Proof.
  unfold is_finite, is_infinity. rewrite is_nan_spec, FloatAxioms.eqb_spec, abs_spec.
  change (Prim2SF infinity) with (S754_infinity false).
  destruct (Prim2SF x) as [s|s| |s m e]; reflexivity.
Qed.

Lemma is_finite_not_nan (x : float) : is_finite x = true -> is_nan x = false.
Proof.
  rewrite is_finite_spec, is_nan_spec. destruct (Prim2SF x); try discriminate; reflexivity.
Qed.

Lemma ltb_val (x y : float) :
  is_nan x = false -> is_nan y = false -> (x <? y) = (V x <? V y)%Z.
Proof.
  rewrite !is_nan_spec. intros Nx Ny. rewrite ltb_spec. unfold SFltb, V.
  rewrite (SFcompare_val _ _ (Prim2SF_valid x) (Prim2SF_valid y) Nx Ny).
  unfold Z.ltb. reflexivity.
Qed.

Lemma ltb_not_nan (x y : float) : (x <? y) = true -> is_nan x = false /\ is_nan y = false.
Proof.
  rewrite ltb_spec, !is_nan_spec. unfold SFltb.
  destruct (Prim2SF x) as [s|s| |s m e], (Prim2SF y) as [s'|s'| |s' m' e'];
    cbn; try discriminate; auto.
Qed.

Lemma V_finite_bound (x : float) : is_finite x = true -> (- 2 ^ 2098 < V x < 2 ^ 2098)%Z.
Proof.
  rewrite is_finite_spec. unfold V. pose proof (Prim2SF_valid x) as Hv.
  destruct (Prim2SF x) as [s|s| |s m e]; try discriminate; intros _; cbn [SFval].
  - lia.
  - pose proof (finite_val_bounds s m e Hv). destruct s; cbn [cond_Zopp]; lia.
Qed.

(** A number between two finite numbers is finite. *)
Lemma finite_between (lo hi y : float) :
  is_finite lo = true -> is_finite hi = true -> is_nan y = false ->
  (V lo <= V y <= V hi)%Z -> is_finite y = true.
Proof.
  intros Hlo Hhi Hy HB. pose proof (V_finite_bound lo Hlo). pose proof (V_finite_bound hi Hhi).
  rewrite is_finite_spec. rewrite is_nan_spec in Hy. unfold V in HB at 2 3.
  destruct (Prim2SF y) as [s|s| |s m e]; try reflexivity; try discriminate.
  destruct s; cbn [SFval cond_Zopp] in HB; lia.
Qed.

(** A finite difference has finite operands. *)
Lemma sub_finite_inv (x y : float) :
  is_nan x = false -> is_nan y = false -> is_finite (x - y) = true ->
  is_finite x = true /\ is_finite y = true.
Proof.
  rewrite !is_finite_spec, !is_nan_spec, sub_spec.
  destruct (Prim2SF x) as [s|s| |s m e], (Prim2SF y) as [s'|s'| |s' m' e'];
    try discriminate; auto; destruct s, s'; discriminate.
Qed.

(** The difference of finite numbers, when it does not overflow, is the
    rounded exact difference. *)
Lemma sub_val (x y : float) :
  is_finite x = true -> is_finite y = true ->
  (is_finite (x - y) = true /\ V (x - y) = srnd (V x - V y)) \/
  (is_finite (x - y) = false /\ (2 ^ 2098 <= rnd (Z.abs (V x - V y)))%Z).
Proof.
  rewrite !is_finite_spec. intros Fx Fy. unfold V. rewrite sub_spec.
  pose proof (SFsub_val _ _ (Prim2SF_valid x) (Prim2SF_valid y) Fx Fy) as S.
  destruct (SF64sub (Prim2SF x) (Prim2SF y)) as [s|s| |s m e]; try contradiction.
  - left. split; [reflexivity|exact S].
  - right. split; [reflexivity|exact S].
  - left. split; [reflexivity|exact S].
Qed.

Lemma V_zero : V 0 = 0%Z.
Proof. reflexivity. Qed.

Lemma V_one : V 1 = (2 ^ 1074)%Z.
Proof. reflexivity. Qed.

Lemma finite_forms (x : float) :
  is_finite x = true ->
  (exists s, Prim2SF x = S754_zero s) \/ (exists s m e, Prim2SF x = S754_finite s m e).
Proof.
  rewrite is_finite_spec. destruct (Prim2SF x) as [s|s| |s m e]; try discriminate; eauto.
Qed.

Lemma positive_form (x : float) :
  is_finite x = true -> (0 < V x)%Z -> exists m e, Prim2SF x = S754_finite false m e.
Proof.
  rewrite is_finite_spec. unfold V. pose proof (Prim2SF_valid x) as Hv.
  destruct (Prim2SF x) as [s|s| |s m e]; try discriminate; cbn [SFval]; intros _ H; try lia.
  pose proof (finite_val_bounds s m e Hv). destruct s; cbn [cond_Zopp] in H; [lia|eauto].
Qed.

Lemma V_inj (x y : float) :
  is_finite x = true -> is_finite y = true -> V x = V y -> V x <> 0%Z -> x = y.
Proof.
  rewrite !is_finite_spec. intros Fx Fy E NZ. apply Prim2SF_inj.
  exact (SFval_inj _ _ (Prim2SF_valid x) (Prim2SF_valid y) Fx Fy E NZ).
Qed.

(** The quotient of [a] by a positive [d] no smaller than [a]: a number of
    the unit interval, and not the negative zero unless [a] is. *)
Lemma div_unit (a d : float) :
  is_finite a = true -> is_finite d = true -> (0 <= V a <= V d)%Z -> (0 < V d)%Z ->
  is_finite (a / d) = true /\ (0 <= V (a / d) <= V 1)%Z /\
  ((0 < V a)%Z -> V (a / d) = 0%Z -> a / d = 0).
Proof.
  intros Fa Fd HB Hd.
  destruct (positive_form d Fd Hd) as (md & ed & Ed).
  destruct (Z.eq_dec (V a) 0%Z) as [Ea0|Na0].
  - assert (exists s, Prim2SF a = S754_zero s) as [s Ea].
    { destruct (finite_forms a Fa) as [?|(s & m & e & Ea)]; [assumption|].
      exfalso. unfold V in Ea0. pose proof (Prim2SF_valid a) as Hv. rewrite Ea in *.
      pose proof (finite_val_bounds s m e Hv).
      destruct s; cbn [SFval cond_Zopp] in Ea0; lia. }
    assert (Eq : Prim2SF (a / d) = S754_zero s).
    { rewrite div_spec, Ea, Ed. cbn. rewrite xorb_false_r. reflexivity. }
    assert (HV : V (a / d) = 0%Z) by (unfold V; rewrite Eq; reflexivity).
    rewrite is_finite_spec, Eq, HV, V_one.
    split; [reflexivity|]. split; [lia|]. intros; lia.
  - destruct (positive_form a Fa ltac:(lia)) as (ma & ea & Ea).
    destruct (Z.eq_dec (V a) (V d)) as [Ead|Nad].
    + assert (a = d) by (apply V_inj; assumption). subst a.
      rewrite (div_self_finite d false md ed Ed).
      split; [reflexivity|]. rewrite V_one. split; [lia|]. intros _ H. discriminate H.
    + pose proof (Prim2SF_valid a) as Hva. pose proof (Prim2SF_valid d) as Hvd.
      unfold V in HB, Nad. rewrite Ea, Ed in *. cbn [SFval cond_Zopp] in HB, Nad.
      pose proof (SFdiv_below_one ma md ea ed Hva Hvd ltac:(lia)) as S.
      assert (Eq : Prim2SF (a / d)
                   = SF64div (S754_finite false ma ea) (S754_finite false md ed))
        by (rewrite div_spec, Ea, Ed; reflexivity).
      rewrite is_finite_spec. unfold V at 1 2 5. rewrite Eq, V_one.
      destruct (SF64div (S754_finite false ma ea) (S754_finite false md ed))
        as [s|s| |s m e]; try contradiction.
      * subst s. cbn [SFfinite SFval]. split; [reflexivity|]. split; [lia|].
        intros _ _. apply Prim2SF_inj. rewrite Eq. reflexivity.
      * destruct S as (-> & He & S). cbn [SFfinite SFval cond_Zopp].
        pose proof (pow2_pos (e + 1074) ltac:(lia)).
        split; [reflexivity|]. split; [lia|]. intros _ H0. lia.
Qed.

Lemma add_val (x y : float) :
  is_finite x = true -> is_finite y = true ->
  (is_finite (x + y) = true /\ V (x + y) = srnd (V x + V y)) \/
  (is_finite (x + y) = false /\ (2 ^ 2098 <= rnd (Z.abs (V x + V y)))%Z).
Proof.
  rewrite !is_finite_spec. intros Fx Fy. unfold V. rewrite add_spec.
  pose proof (SFadd_val _ _ (Prim2SF_valid x) (Prim2SF_valid y) Fx Fy) as S.
  destruct (SF64add (Prim2SF x) (Prim2SF y)) as [s|s| |s m e]; try contradiction.
  - left. split; [reflexivity|exact S].
  - right. split; [reflexivity|exact S].
  - left. split; [reflexivity|exact S].
Qed.

Lemma leb_val (x y : float) :
  is_nan x = false -> is_nan y = false -> (x <=? y) = (V x <=? V y)%Z.
Proof.
  rewrite !is_nan_spec. intros Nx Ny. rewrite leb_spec. unfold SFleb, V.
  rewrite (SFcompare_val _ _ (Prim2SF_valid x) (Prim2SF_valid y) Nx Ny).
  unfold Z.leb. destruct (_ ?= _)%Z; reflexivity.
Qed.

Lemma eqb_val (x y : float) :
  is_nan x = false -> is_nan y = false -> (x =? y) = (V x =? V y)%Z.
Proof.
  rewrite !is_nan_spec. intros Nx Ny. rewrite FloatAxioms.eqb_spec. unfold SFeqb, V.
  rewrite (SFcompare_val _ _ (Prim2SF_valid x) (Prim2SF_valid y) Nx Ny).
  rewrite Z.eqb_compare. reflexivity.
Qed.

Lemma leb_not_nan (x y : float) : (x <=? y) = true -> is_nan x = false /\ is_nan y = false.
Proof.
  rewrite leb_spec, !is_nan_spec. unfold SFleb.
  destruct (Prim2SF x) as [s|s| |s m e], (Prim2SF y) as [s'|s'| |s' m' e'];
    cbn; try discriminate; auto.
Qed.

(** The largest finite value. *)
Lemma V_finite_max (x : float) :
  is_finite x = true -> (Z.abs (V x) <= (2 ^ 53 - 1) * 2 ^ 2045)%Z.
Proof.
  rewrite is_finite_spec. unfold V. pose proof (Prim2SF_valid x) as Hv.
  destruct (Prim2SF x) as [s|s| |s m e]; try discriminate; intros _; cbn [SFval].
  pose proof (valid_finite_inv s m e Hv) as (He & Hm & _).
  pose proof (pow2_pos (e + 1074) ltac:(lia)) as HP.
  pose proof (Z.pow_le_mono_r 2 (e + 1074) 2045 ltac:(lia) ltac:(lia)) as HE.
  assert (Z.pos m * 2 ^ (e + 1074) <= (2 ^ 53 - 1) * 2 ^ 2045)%Z.
  { apply Z.mul_le_mono_nonneg; lia. }
  destruct s; cbn [cond_Zopp]; lia.
Qed.

Lemma V_divide (x : float) :
  is_finite x = true -> (2 ^ ulp_exp (Z.abs (V x)) | Z.abs (V x))%Z.
Proof.
  rewrite is_finite_spec. unfold V. pose proof (Prim2SF_valid x) as Hv.
  destruct (Prim2SF x) as [s|s| |s m e]; try discriminate; intros _; cbn [SFval].
  - exists 0%Z. reflexivity.
  - pose proof (finite_val_bounds s m e Hv).
    replace (Z.abs (cond_Zopp s (Z.pos m * 2 ^ (e + 1074))))
      with (Z.pos m * 2 ^ (e + 1074))%Z by (destruct s; cbn [cond_Zopp]; lia).
    exact (representable_divide s m e Hv).
Qed.

Lemma srnd_V (x : float) : is_finite x = true -> srnd (V x) = V x.
Proof. intros F. apply srnd_divide, V_divide, F. Qed.

(** Finite numbers of the same value are the same up to the sign of zero;
    with a value that is not zero they are the same number. *)
Lemma V_eq_rnd (x y : float) :
  is_finite x = true -> is_finite y = true -> V x = srnd (V y) -> V y <> 0%Z -> x = y.
Proof.
  intros Fx Fy E NZ. rewrite (srnd_V y Fy) in E. apply V_inj; congruence.
Qed.
End B64Arith.

(** ** The longitude shift in binary64 *)

Module B64Longitude.
Import Binary64 Binary64Facts B64Arith.
Local Open Scope float_scope.

Lemma Prim2SF_SF2Prim_finite (s : bool) (m : positive) (e : Z) :
  valid_binary (S754_finite s m e) = true ->
  Prim2SF (SF2Prim (S754_finite s m e)) = S754_finite s m e.
Proof. apply Prim2SF_SF2Prim. Qed.

(** [fmod x y] for a finite [x] and a positive [y]: a finite number of the
    sign of [x], no larger than [y]. *)
Lemma fmod_val (x y : float) (my : positive) (ey : Z) :
  is_finite x = true -> Prim2SF y = S754_finite false my ey ->
  is_finite (B64.fmod x y) = true /\
  (Z.abs (V (B64.fmod x y)) <= V y)%Z /\
  ((0 <= V x)%Z -> (0 <= V (B64.fmod x y))%Z) /\
  ((V x <= 0)%Z -> (V (B64.fmod x y) <= 0)%Z).
Proof.
  intros Fx Ey. pose proof (Prim2SF_valid y) as Hvy. rewrite Ey in Hvy.
  pose proof (finite_val_bounds false my ey Hvy) as By.
  assert (EVy : V y = (Z.pos my * 2 ^ (ey + 1074))%Z) by (unfold V; rewrite Ey; reflexivity).
  pose proof (Prim2SF_valid x) as Hvx.
  unfold B64.fmod. rewrite Ey.
  destruct (Prim2SF x) as [sx|sx| |sx mx ex] eqn:Ex;
    try (rewrite is_finite_spec, Ex in Fx; discriminate).
  - assert (V x = 0%Z) by (unfold V; rewrite Ex; reflexivity).
    split; [exact Fx|]. rewrite H. split; [lia|]. split; lia.
  - pose proof (valid_finite_inv _ _ _ Hvx) as (Hex & _).
    pose proof (valid_finite_inv _ _ _ Hvy) as (Hey & _).
    cbv zeta. set (e := Z.min ex ey).
    assert (He : (-1074 <= e /\ e <= ex /\ e <= ey)%Z) by (unfold e; lia).
    set (X := (Z.pos mx * 2 ^ (ex - e))%Z).
    set (Y := (Z.pos my * 2 ^ (ey - e))%Z).
    assert (HY : (0 < Y)%Z).
    { unfold Y. pose proof (pow2_pos (ey - e) ltac:(lia)). lia. }
    pose proof (Z.mod_pos_bound X Y HY) as HR.
    set (R := (X mod Y)%Z) in *.
    pose proof (pow2_pos (e + 1074) ltac:(lia)) as HP.
    assert (EY : (Y * 2 ^ (e + 1074) = V y)%Z).
    { rewrite EVy. unfold Y. rewrite <- Z.mul_assoc, <- Z.pow_add_r by lia.
      f_equal. f_equal. lia. }
    assert (EVx : V x = cond_Zopp sx (Z.pos mx * 2 ^ (ex + 1074))%Z)
      by (unfold V; rewrite Ex; reflexivity).
    pose proof (finite_val_bounds sx mx ex Hvx) as Bx.
    destruct (Z.eq_dec R 0%Z) as [R0|RN].
    + rewrite R0. replace (cond_Zopp sx 0) with 0%Z by (destruct sx; reflexivity).
      cbn [binary_normalize].
      assert (E0 : Prim2SF (SF2Prim (S754_zero sx)) = S754_zero sx)
        by (apply Prim2SF_SF2Prim; reflexivity).
      assert (V0 : V (SF2Prim (S754_zero sx)) = 0%Z) by (unfold V; rewrite E0; reflexivity).
      rewrite is_finite_spec, E0, V0.
      split; [reflexivity|]. split; [lia|]. split; lia.
    + assert (HN : cond_Zopp sx R <> 0%Z) by (destruct sx; cbn [cond_Zopp]; lia).
      pose proof (binary_normalize_spec (cond_Zopp sx R) e sx ltac:(lia) HN) as S.
      assert (HW : (Z.abs (cond_Zopp sx R * 2 ^ (e + 1074)) <= V y)%Z).
      { rewrite <- EY. replace (Z.abs (cond_Zopp sx R * 2 ^ (e + 1074)))
          with (R * 2 ^ (e + 1074))%Z by (destruct sx; cbn [cond_Zopp]; nia).
        apply Z.mul_le_mono_nonneg_r; lia. }
      pose proof (rnd_mono _ _ (Z.abs_nonneg _) HW) as HM.
      assert (RY : rnd (V y) = V y).
      { rewrite EVy. exact (rnd_representable false my ey Hvy). }
      rewrite RY in HM.
      destruct (binary_normalize prec emax (cond_Zopp sx R) e sx) as [s|s| |s m e'];
        try contradiction.
      * exfalso. lia.
      * destruct S as [Hv S].
        assert (Vf : V (SF2Prim (S754_finite s m e'))
                     = srnd (cond_Zopp sx R * 2 ^ (e + 1074)))
          by (unfold V; rewrite (Prim2SF_SF2Prim_finite s m e' Hv); exact S).
        rewrite is_finite_spec, (Prim2SF_SF2Prim_finite s m e' Hv), Vf. cbn [SFfinite].
        split; [reflexivity|].
        assert (Hs : (Z.abs (srnd (cond_Zopp sx R * 2 ^ (e + 1074)))
                      = rnd (Z.abs (cond_Zopp sx R * 2 ^ (e + 1074))))%Z).
        { unfold srnd. pose proof (rnd_pos (Z.abs (cond_Zopp sx R * 2 ^ (e + 1074)))).
          destruct (Z.sgn_spec (cond_Zopp sx R * 2 ^ (e + 1074)))
            as [[? ->]|[[? ->]|[? ->]]]; lia. }
        split; [lia|].
        pose proof (srnd_mono 0 (cond_Zopp sx R * 2 ^ (e + 1074))) as P1.
        pose proof (srnd_mono (cond_Zopp sx R * 2 ^ (e + 1074)) 0) as P2.
        rewrite srnd_0 in P1, P2.
        assert (HRP : (0 < R * 2 ^ (e + 1074))%Z) by (apply Z.mul_pos_pos; lia).
        rewrite EVx. destruct sx; cbn [cond_Zopp] in P1, P2 |- *.
        -- split; [intros; lia|]. intros _. apply P2. lia.
        -- split; [|intros; lia]. intros _. apply P1. lia.
Qed.

(** On a positive number below [y], [fmod] is the identity. *)
Lemma fmod_small (x y : float) (mx my : positive) (ex ey : Z) :
  Prim2SF x = S754_finite false mx ex -> Prim2SF y = S754_finite false my ey ->
  (V x < V y)%Z -> B64.fmod x y = x.
Proof.
  intros Ex Ey Hlt.
  pose proof (Prim2SF_valid x) as Hvx. pose proof (Prim2SF_valid y) as Hvy.
  unfold V in Hlt. unfold B64.fmod. rewrite Ex, Ey in *. cbn [SFval cond_Zopp] in Hlt.
  pose proof (valid_finite_inv _ _ _ Hvx) as (Hex & _).
  pose proof (valid_finite_inv _ _ _ Hvy) as (Hey & _).
  cbv zeta. set (e := Z.min ex ey).
  assert (He : (-1074 <= e /\ e <= ex /\ e <= ey)%Z) by (unfold e; lia).
  set (X := (Z.pos mx * 2 ^ (ex - e))%Z).
  set (Y := (Z.pos my * 2 ^ (ey - e))%Z).
  pose proof (pow2_pos (e + 1074) ltac:(lia)) as HP.
  pose proof (pow2_pos (ex - e) ltac:(lia)) as HPx.
  assert (EX : (X * 2 ^ (e + 1074) = Z.pos mx * 2 ^ (ex + 1074))%Z).
  { unfold X. rewrite <- Z.mul_assoc, <- Z.pow_add_r by lia. f_equal. f_equal. lia. }
  assert (EY : (Y * 2 ^ (e + 1074) = Z.pos my * 2 ^ (ey + 1074))%Z).
  { unfold Y. rewrite <- Z.mul_assoc, <- Z.pow_add_r by lia. f_equal. f_equal. lia. }
  assert (HXY : (0 < X < Y)%Z).
  { split; [unfold X; lia|].
    apply Z.mul_lt_mono_pos_r with (p := (2 ^ (e + 1074))%Z); [lia|]. lia. }
  rewrite Z.mod_small by lia. cbn [cond_Zopp].
  pose proof (binary_normalize_spec X e false ltac:(lia) ltac:(lia)) as S.
  rewrite EX in S.
  pose proof (finite_val_bounds false mx ex Hvx) as Bx.
  pose proof (rnd_representable false mx ex Hvx) as Rx.
  destruct (binary_normalize prec emax X e false) as [s|s| |s m e']; try contradiction.
  - exfalso. rewrite Z.abs_eq in S by lia. lia.
  - destruct S as [Hv S]. rewrite srnd_nonneg, Rx in S by lia.
    assert (E : S754_finite s m e' = S754_finite false mx ex).
    { apply SFval_inj; try reflexivity; try assumption.
      rewrite S. cbn [SFval cond_Zopp]. lia. }
    rewrite E, <- Ex. apply SF2Prim_Prim2SF.
Qed.

Lemma remainder_360 (a : float) :
  B64.remainder a 360
  = if B64.fmod a 360 =? 0 then 0
    else if B64.fmod a 360 <? 0 then B64.fmod a 360 + 360 else B64.fmod a 360.
Proof.
  unfold B64.remainder. cbv zeta.
  change (360 =? 0) with false. change (get_sign 360) with false.
  change (360 <? 0) with false. cbv iota.
  destruct (B64.fmod a 360 =? 0); [reflexivity|].
  destruct (B64.fmod a 360 <? 0); reflexivity.
Qed.

Lemma V_360 : V 360 = (2 * V 180)%Z.
Proof. reflexivity. Qed.

Lemma V_180 : V 180 = (2 * V 90)%Z.
Proof. reflexivity. Qed.

Lemma V_90 : (0 < V 90)%Z.
Proof. reflexivity. Qed.

Lemma V_neg_180 : V (-180) = (- V 180)%Z.
Proof. reflexivity. Qed.

Lemma Prim2SF_360 : Prim2SF 360 = S754_finite false 6333186975989760 (-44).
Proof. reflexivity. Qed.

(** Nothing within 360 of a finite number overflows. *)
Lemma rnd_near_max (z : Z) :
  (Z.abs z <= (2 ^ 53 - 1) * 2 ^ 2045 + V 360)%Z -> (rnd (Z.abs z) < 2 ^ 2098)%Z.
Proof.
  intros H. pose proof (rnd_mono _ _ (Z.abs_nonneg z) H) as M.
  eapply Z.le_lt_trans; [exact M|]. vm_compute. reflexivity.
Qed.

Lemma finite_180 : is_finite 180 = true.
Proof. reflexivity. Qed.

Lemma finite_360 : is_finite 360 = true.
Proof. reflexivity. Qed.

(** Adding one of the constants to a finite number, or taking it away,
    does not overflow. *)
Lemma add_finite_const (x c : float) :
  is_finite x = true -> is_finite c = true -> (Z.abs (V c) <= V 360)%Z ->
  is_finite (x + c) = true /\ V (x + c) = srnd (V x + V c).
Proof.
  intros Fx Fc Hc. destruct (add_val x c Fx Fc) as [?|[_ H]]; [assumption|].
  exfalso. pose proof (V_finite_max x Fx).
  pose proof (rnd_near_max (V x + V c) ltac:(lia)). lia.
Qed.

Lemma sub_finite_const (x c : float) :
  is_finite x = true -> is_finite c = true -> (Z.abs (V c) <= V 360)%Z ->
  is_finite (x - c) = true /\ V (x - c) = srnd (V x - V c).
Proof.
  intros Fx Fc Hc. destruct (sub_val x c Fx Fc) as [?|[_ H]]; [assumption|].
  exfalso. pose proof (V_finite_max x Fx).
  pose proof (rnd_near_max (V x - V c) ltac:(lia)). lia.
Qed.

(** The floored remainder by 360 of a finite number lies in [0, 360]. *)
Lemma remainder_range (a : float) :
  is_finite a = true ->
  is_finite (B64.remainder a 360) = true /\ (0 <= V (B64.remainder a 360) <= V 360)%Z.
Proof.
  intros Fa. rewrite remainder_360.
  destruct (fmod_val a 360 _ _ Fa Prim2SF_360) as (Fm & Bm & _).
  set (m := B64.fmod a 360) in *.
  pose proof (is_finite_not_nan m Fm) as Nm.
  rewrite (eqb_val m 0 Nm eq_refl), (ltb_val m 0 Nm eq_refl), V_zero.
  pose proof V_90. pose proof V_180. pose proof V_360.
  destruct (Z.eqb_spec (V m) 0) as [E0|N0].
  - split; [reflexivity|]. rewrite V_zero. lia.
  - destruct (Z.ltb_spec (V m) 0) as [Hneg|Hpos].
    + destruct (add_finite_const m 360 Fm finite_360 ltac:(lia)) as [F E].
      split; [exact F|]. rewrite E.
      pose proof (srnd_mono 0 (V m + V 360) ltac:(lia)) as M1.
      pose proof (srnd_mono (V m + V 360) (V 360) ltac:(lia)) as M2.
      rewrite srnd_0 in M1. rewrite (srnd_V 360 finite_360) in M2. lia.
    + split; [exact Fm|]. lia.
Qed.

(** On a number of [0, 360) the remainder changes at most the sign of a
    zero, which the subtraction that follows forgets. *)
Lemma remainder_small (a : float) :
  is_finite a = true -> (0 <= V a < V 360)%Z ->
  B64.remainder a 360 - 180 = a - 180.
Proof.
  intros Fa Ha. rewrite remainder_360.
  destruct (finite_forms a Fa) as [[s Ea]|(s & m & e & Ea)].
  - assert (Em : B64.fmod a 360 = a).
    { unfold B64.fmod. rewrite Ea, Prim2SF_360. reflexivity. }
    rewrite Em.
    assert (E0 : (a =? 0) = true).
    { rewrite FloatAxioms.eqb_spec, Ea. reflexivity. }
    rewrite E0. apply Prim2SF_inj. rewrite !sub_spec, Ea. reflexivity.
  - assert (Hpos : (0 < V a)%Z).
    { unfold V in *. pose proof (Prim2SF_valid a) as Hv. rewrite Ea in *.
      pose proof (finite_val_bounds s m e Hv). destruct s; cbn [SFval cond_Zopp] in *; lia. }
    destruct (positive_form a Fa Hpos) as (m' & e' & Ea').
    rewrite (fmod_small a 360 m' _ e' _ Ea' Prim2SF_360 ltac:(lia)).
    pose proof (is_finite_not_nan a Fa) as Na.
    rewrite (eqb_val a 0 Na eq_refl), (ltb_val a 0 Na eq_refl), V_zero.
    destruct (Z.eqb_spec (V a) 0); [lia|].
    destruct (Z.ltb_spec (V a) 0); [lia|]. reflexivity.
Qed.

Lemma shift_longitude_b64 (lon : float) :
  shift_longitude lon = B64.remainder (lon + 180) 360 - 180.
Proof. reflexivity. Qed.

(** The shifted longitude of a finite number, in values. *)
Lemma shift_longitude_val (lon : float) :
  is_finite lon = true ->
  is_finite (shift_longitude lon) = true /\
  (- V 180 <= V (shift_longitude lon) <= V 180)%Z.
Proof.
  intros F. rewrite shift_longitude_b64.
  pose proof V_90. pose proof V_180. pose proof V_360.
  destruct (add_finite_const lon 180 F finite_180 ltac:(lia)) as [Fs _].
  destruct (remainder_range (lon + 180) Fs) as [Fr Br].
  set (r := B64.remainder (lon + 180) 360) in *.
  destruct (sub_finite_const r 180 Fr finite_180 ltac:(lia)) as [Fy Ey].
  split; [exact Fy|]. rewrite Ey.
  pose proof (srnd_mono (V (-180)) (V r - V 180) ltac:(rewrite V_neg_180; lia)) as M1.
  pose proof (srnd_mono (V r - V 180) (V 180) ltac:(lia)) as M2.
  rewrite (srnd_V (-180) eq_refl), V_neg_180 in M1.
  rewrite (srnd_V 180 finite_180) in M2. lia.
Qed.

(** From -180 up to where [lon + 180] reaches 360, the shift is
    [(lon + 180) - 180]. *)
Lemma shift_longitude_in_range (lon : float) :
  (-180 <=? lon) = true -> (lon + 180 <? 360) = true ->
  shift_longitude lon = (lon + 180) - 180.
Proof.
  intros Hlo Hhi. rewrite shift_longitude_b64.
  destruct (leb_not_nan _ _ Hlo) as [_ Nl].
  destruct (ltb_not_nan _ _ Hhi) as [Ns _].
  rewrite (leb_val (-180) lon eq_refl Nl), V_neg_180 in Hlo. apply Z.leb_le in Hlo.
  rewrite (ltb_val (lon + 180) 360 Ns eq_refl) in Hhi. apply Z.ltb_lt in Hhi.
  pose proof V_90. pose proof V_180. pose proof V_360.
  assert (F : is_finite lon = true).
  { rewrite is_finite_spec. rewrite is_nan_spec in Nl.
    assert (EV : V lon = SFval (Prim2SF lon)) by reflexivity.
    assert (EV' : V (lon + 180) = SFval (SF64add (Prim2SF lon) (Prim2SF 180)))
      by (unfold V; rewrite add_spec; reflexivity).
    rewrite EV in Hlo. rewrite EV' in Hhi. clear EV EV'.
    destruct (Prim2SF lon) as [s|s| |s m e]; try reflexivity; try discriminate.
    exfalso. destruct s.
    - cbn [SFval cond_Zopp] in Hlo. pose proof (V_finite_bound 180 finite_180). lia.
    - change (SFval (SF64add (S754_infinity false) (Prim2SF 180))) with (2 ^ 2098)%Z in Hhi.
      pose proof (V_finite_bound 360 finite_360). lia. }
  destruct (add_finite_const lon 180 F finite_180 ltac:(lia)) as [Fs Es].
  apply remainder_small; [exact Fs|]. split; [|exact Hhi].
  rewrite Es. pose proof (srnd_mono 0 (V lon + V 180) ltac:(lia)) as M.
  rewrite srnd_0 in M. exact M.
Qed.

(** Applying the shift to a shifted longitude other than 180 gives it
    back. *)
Lemma shift_longitude_twice (lon : float) :
  is_finite lon = true -> (shift_longitude lon <? 180) = true ->
  shift_longitude (shift_longitude lon) = shift_longitude lon.
Proof.
  intros F Hlt.
  destruct (shift_longitude_val lon F) as [Fy By].
  pose proof (is_finite_not_nan _ Fy) as Ny.
  rewrite (ltb_val (shift_longitude lon) 180 Ny eq_refl) in Hlt. apply Z.ltb_lt in Hlt.
  pose proof V_90 as P90. pose proof V_180 as P180. pose proof V_360 as P360.
  assert (Hy : exists r, is_finite r = true /\ (0 <= V r <= V 360)%Z /\
                         shift_longitude lon = r - 180 /\
                         V (shift_longitude lon) = srnd (V r - V 180)).
  { rewrite shift_longitude_b64.
    destruct (add_finite_const lon 180 F finite_180 ltac:(lia)) as [Fs _].
    destruct (remainder_range (lon + 180) Fs) as [Fr Br].
    exists (B64.remainder (lon + 180) 360). repeat split; try assumption; try lia.
    apply (sub_finite_const _ 180 Fr finite_180). lia. }
  destruct Hy as (r & Fr & Br & Ey & EVy).
  set (y := shift_longitude lon) in *.
  destruct (add_finite_const y 180 Fy finite_180 ltac:(lia)) as [Fs' Es'].
  assert (Hs : (V (y + 180) < V 360)%Z /\ (y + 180) - 180 = y).
  { destruct (Z.le_gt_cases (V 90) (V r)) as [Hr|Hr].
    - (* [r - 180] is exact, and [y + 180] is [r] *)
      assert (Ed : V y = (V r - V 180)%Z).
      { rewrite EVy. apply srnd_divide.
        pose proof (V_divide r Fr) as Dr. pose proof (V_divide 180 finite_180) as D180.
        rewrite Z.abs_eq in Dr, D180 by lia.
        destruct (Z.le_gt_cases (V 180) (V r)).
        - rewrite Z.abs_eq by lia. apply sterbenz_divide; try assumption; lia.
        - rewrite Z.abs_neq by lia.
          replace (- (V r - V 180))%Z with (V 180 - V r)%Z by lia.
          apply sterbenz_divide; try assumption; lia. }
      assert (Er : y + 180 = r).
      { apply V_eq_rnd; try assumption; [|lia].
        rewrite Es'. f_equal. lia. }
      rewrite Er. split; [lia|]. symmetry. exact Ey.
    - (* [y] lies in [-180, -90], and [y + 180] is exact *)
      assert (Hy : (- V 180 <= V y <= - V 90)%Z).
      { split; [lia|]. rewrite EVy.
        pose proof (srnd_mono (V r - V 180) (V (-90)) ltac:(change (V (-90)) with (- V 90)%Z; lia)) as M.
        rewrite (srnd_V (-90) eq_refl) in M. change (V (-90)) with (- V 90)%Z in M. exact M. }
      assert (Ed : V (y + 180) = (V y + V 180)%Z).
      { rewrite Es'. apply srnd_divide.
        pose proof (V_divide y Fy) as Dy. pose proof (V_divide 180 finite_180) as D180.
        rewrite Z.abs_neq in Dy by lia. rewrite Z.abs_eq in D180 by lia.
        rewrite Z.abs_eq by lia.
        replace (V y + V 180)%Z with (V 180 - - V y)%Z by lia.
        apply sterbenz_divide; try assumption; lia. }
      split; [lia|].
      destruct (sub_finite_const (y + 180) 180 Fs' finite_180 ltac:(lia)) as [Fz Ez].
      assert (EVz : V (y + 180 - 180) = V y).
      { rewrite Ez, Ed. replace (V y + V 180 - V 180)%Z with (V y) by lia.
        apply srnd_V, Fy. }
      apply V_inj; try assumption. lia. }
  destruct Hs as [Hs1 Hs2].
  rewrite shift_longitude_in_range.
  - exact Hs2.
  - rewrite (leb_val (-180) y eq_refl Ny), V_neg_180. apply Z.leb_le. lia.
  - rewrite (ltb_val (y + 180) 360 (is_finite_not_nan _ Fs') eq_refl).
    apply Z.ltb_lt. exact Hs1.
Qed.
(** Every finite longitude is shifted into [-180, 180]. *)
Lemma shift_longitude_bounds (lon : float) :
  is_finite lon = true ->
  (-180 <=? shift_longitude lon) = true /\ (shift_longitude lon <=? 180) = true.
Proof.
  intros F. destruct (shift_longitude_val lon F) as [Fy By].
  pose proof (is_finite_not_nan _ Fy) as Ny.
  rewrite (leb_val (-180) (shift_longitude lon) eq_refl Ny), V_neg_180.
  rewrite (leb_val (shift_longitude lon) 180 Ny eq_refl).
  split; apply Z.leb_le; lia.
Qed.
(** With finite longitudes and a box that ends at 180 or before, subsetting
    with [reassign=True] a grid that was subset with [reassign=True] gives
    it back: no longitude that is kept is 180. *)
Lemma generate_geographical_subset_twice_b64 {V : Type} (na : V)
    (xarray : DataArray float V) (latmin latmax lonmin lonmax : float) :
  wf_array xarray ->
  Forall (fun lon => is_finite lon = true) (longitude xarray) ->
  (lonmax <=? 180) = true ->
  let subset := generate_geographical_subset na xarray latmin latmax lonmin lonmax true in
  generate_geographical_subset na subset latmin latmax lonmin lonmax true = subset.
Proof.
  intros Hwf Hfin Hmax subset.
  pose proof (generate_geographical_subset_eq na xarray latmin latmax lonmin lonmax
                true Hwf) as Hsub.
  cbv zeta in Hsub. fold subset in Hsub.
  assert (Hlon : map shift_longitude (longitude subset) = longitude subset).
  { rewrite <- (map_id (longitude subset)) at 2.
    apply map_ext_Forall. rewrite Hsub.
    destruct (_ && _); [|constructor]. cbn [longitude].
    apply List.Forall_forall. intros y Hy.
    apply filter_In in Hy as [Hy Hin].
    apply in_map_iff in Hy as (lon & <- & Hlon).
    rewrite List.Forall_forall in Hfin. specialize (Hfin lon Hlon).
    apply shift_longitude_twice; [exact Hfin|].
    apply andb_true_iff in Hin as [Hlt _]. change (num_ltb ?a ?b) with (a <? b) in Hlt.
    destruct (ltb_not_nan _ _ Hlt) as [Ny Nm].
    destruct (leb_not_nan _ _ Hmax) as [_ N180].
    rewrite (ltb_val _ _ Ny Nm) in Hlt. rewrite (leb_val _ _ Nm N180) in Hmax.
    rewrite (ltb_val _ _ Ny N180). apply Z.ltb_lt in Hlt. apply Z.leb_le in Hmax.
    apply Z.ltb_lt. lia. }
  rewrite reassign_then_filter, Hlon.
  replace (assign_coords subset (longitude subset)) with subset
    by (destruct subset; reflexivity).
  subst subset.
  rewrite (generate_geographical_subset_eq na xarray _ _ _ _ true Hwf).
  apply (subset_of_selection na
           (mkDataArray (latitude xarray) (map shift_longitude (longitude xarray))
              (values xarray))).
  apply (wf_assign_coords xarray); [assumption | apply length_map].
Qed.
End B64Longitude.

(** ** Normalisation in binary64 *)

Module B64Range.
Import Binary64 Binary64Facts B64Arith.
Local Open Scope float_scope.

Lemma minimum_b64 (a b : float) :
  is_nan a = false -> minimum a b = if a <? b then a else b.
Proof. intros Ha. unfold minimum. simpl. rewrite Ha, orb_false_r. reflexivity. Qed.

Lemma maximum_b64 (a b : float) :
  is_nan a = false -> maximum a b = if b <? a then a else b.
Proof. intros Ha. unfold maximum. simpl. rewrite Ha, orb_false_r. reflexivity. Qed.

(** A NaN accumulator stays, and a NaN operand becomes the accumulator. *)
Lemma fold_minimum_nan_acc (rest : list float) (x : float) :
  is_nan x = true -> fold_left minimum rest x = x.
Proof.
  intros Hx. induction rest as [|b rest IH]; [reflexivity|].
  cbn [fold_left]. unfold minimum at 2. simpl. rewrite Hx, orb_true_r. exact IH.
Qed.

Lemma ltb_nan_r (x b : float) : is_nan b = true -> (x <? b) = false.
Proof.
  rewrite is_nan_spec, ltb_spec. unfold SFltb.
  destruct (Prim2SF b); try discriminate. intros _.
  destruct (Prim2SF x); reflexivity.
Qed.

Lemma fold_minimum_nan (rest : list float) (x : float) :
  Exists (fun v => is_nan v = true) (x :: rest) ->
  is_nan (fold_left minimum rest x) = true.
Proof.
  revert x. induction rest as [|b rest IH]; intros x Hex.
  - inversion Hex as [? ? Hx|? ? Hr]; [exact Hx|inversion Hr].
  - destruct (is_nan x) eqn:Hx.
    + rewrite fold_minimum_nan_acc by exact Hx. exact Hx.
    + cbn [fold_left]. apply IH.
      inversion Hex as [? ? Hx'|? ? Hr]; [congruence|].
      inversion Hr as [? ? Hb|? ? Hr']; [|right; exact Hr'].
      left. rewrite minimum_b64 by exact Hx.
      rewrite (ltb_nan_r x b Hb). exact Hb.
Qed.

Lemma fold_minimum_lower (rest : list float) (x : float) :
  Forall (fun v => is_nan v = false) (x :: rest) ->
  is_nan (fold_left minimum rest x) = false /\
  Forall (fun v => (V (fold_left minimum rest x) <= V v)%Z) (x :: rest).
Proof.
  revert x. induction rest as [|b rest IH]; intros x Hall.
  - cbn [fold_left]. inversion Hall; subst. split; [assumption|].
    constructor; [lia|constructor].
  - inversion Hall as [|? ? Hx Hrest]; subst. inversion Hrest as [|? ? Hb Hrest']; subst.
    cbn [fold_left]. rewrite minimum_b64 by exact Hx.
    rewrite (ltb_val x b Hx Hb).
    set (m := if (V x <? V b)%Z then x else b).
    assert (Hm : is_nan m = false) by (unfold m; destruct (V x <? V b)%Z; assumption).
    assert (Hle : (V m <= V x /\ V m <= V b)%Z).
    { unfold m. destruct (Z.ltb_spec (V x) (V b)); lia. }
    assert (Hall' : Forall (fun v => is_nan v = false) (m :: rest))
      by (constructor; assumption).
    destruct (IH m Hall') as [Hr Hfor].
    split; [exact Hr|].
    inversion Hfor as [|? ? Hrm Hfor']; subst.
    constructor; [lia|]. constructor; [lia|exact Hfor'].
Qed.

Lemma fold_maximum_upper (rest : list float) (x : float) :
  Forall (fun v => is_nan v = false) (x :: rest) ->
  Forall (fun v => (V v <= V (fold_left maximum rest x))%Z) (x :: rest).
Proof.
  revert x. induction rest as [|b rest IH]; intros x Hall.
  - cbn [fold_left]. constructor; [lia|constructor].
  - inversion Hall as [|? ? Hx Hrest]; subst. inversion Hrest as [|? ? Hb Hrest']; subst.
    cbn [fold_left]. rewrite maximum_b64 by exact Hx.
    rewrite (ltb_val b x Hb Hx).
    set (m := if (V b <? V x)%Z then x else b).
    assert (Hm : is_nan m = false) by (unfold m; destruct (V b <? V x)%Z; assumption).
    assert (Hle : (V x <= V m /\ V b <= V m)%Z).
    { unfold m. destruct (Z.ltb_spec (V b) (V x)); lia. }
    assert (Hall' : Forall (fun v => is_nan v = false) (m :: rest))
      by (constructor; assumption).
    pose proof (IH m Hall') as Hfor.
    inversion Hfor as [|? ? Hrm Hfor']; subst.
    constructor; [lia|]. constructor; [lia|exact Hfor'].
Qed.

Lemma dropna_not_nan (l : list float) : Forall (fun v => is_nan v = false) (dropna l).
Proof.
  unfold dropna. apply List.Forall_forall. intros v Hv.
  apply List.filter_In in Hv as [_ Hv]. simpl in Hv.
  destruct (is_nan v); [discriminate|reflexivity].
Qed.

Lemma dropna_id (l : list float) : Forall (fun v => is_nan v = false) l -> dropna l = l.
Proof.
  unfold dropna. induction 1 as [|v l Hv _ IH]; [reflexivity|].
  cbn [List.filter]. change (num_isnan v) with (is_nan v).
  rewrite Hv. cbn [negb]. rewrite IH. reflexivity.
Qed.

Lemma dropna_map (f : float -> float) (l : list float) :
  Forall (fun v => is_nan (f v) = is_nan v) l -> dropna (map f l) = map f (dropna l).
Proof.
  unfold dropna. induction 1 as [|v l Hv _ IH]; [reflexivity|].
  cbn [map List.filter]. change (num_isnan (f v)) with (is_nan (f v)).
  change (num_isnan v) with (is_nan v).
  rewrite Hv, IH. destruct (is_nan v); reflexivity.
Qed.

(** What the reductions range over when the minimum is a number: the cells
    that are not NaN, of which there is one; numpy's reduction then saw no
    NaN at all. *)
Lemma array_reduce_cells (skipna : bool) (l : list float) (lo : float) :
  array_reduce minimum skipna l = Ok lo -> is_nan lo = false ->
  dropna l <> [] /\ (skipna = false -> dropna l = l).
Proof.
  intros Hmin Hlo. unfold array_reduce in Hmin. destruct skipna.
  - split; [|discriminate]. intros E. rewrite E in Hmin.
    destruct l as [|x rest]; [discriminate|].
    injection Hmin as Hmin.
    assert (Hx : is_nan x = true).
    { unfold dropna in E. cbn [List.filter] in E.
      change (num_isnan x) with (is_nan x) in E.
      destruct (is_nan x); [reflexivity|discriminate]. }
    rewrite fold_minimum_nan_acc in Hmin by exact Hx. congruence.
  - destruct l as [|x rest]; [discriminate|]. injection Hmin as Hmin.
    assert (Hall : Forall (fun v => is_nan v = false) (x :: rest)).
    { apply List.Forall_forall. intros v Hv. destruct (is_nan v) eqn:Ev; [|reflexivity].
      assert (Hex : Exists (fun v => is_nan v = true) (x :: rest))
        by (apply List.Exists_exists; exists v; split; assumption).
      apply fold_minimum_nan in Hex. congruence. }
    rewrite (dropna_id _ Hall). split; [discriminate|reflexivity].
Qed.

Lemma array_reduce_dropna (op : float -> float -> float) (skipna : bool) (l : list float) :
  dropna l <> [] -> (skipna = false -> dropna l = l) ->
  array_reduce op skipna l = reduce op (dropna l).
Proof.
  intros Hne Hid. unfold array_reduce. destruct skipna.
  - destruct (dropna l); [contradiction|reflexivity].
  - rewrite Hid; reflexivity.
Qed.

Lemma sub_nan_l (x y : float) : is_nan x = true -> is_nan (x - y) = true.
Proof.
  rewrite !is_nan_spec, sub_spec. destruct (Prim2SF x); try discriminate. reflexivity.
Qed.

Lemma div_nan_l (x y : float) : is_nan x = true -> is_nan (x / y) = true.
Proof.
  rewrite !is_nan_spec, div_spec. destruct (Prim2SF x); try discriminate. reflexivity.
Qed.

Lemma rescale_zero_one (v : float) : (v - 0) / (1 - 0) = v.
Proof. rewrite sub_zero_r. change (1 - 0) with 1. apply div_one_r. Qed.

Section Rescale.
Variables lo hi : float.
Hypothesis lo_lt_hi : (lo <? hi) = true.
Hypothesis range_finite : is_finite (hi - lo) = true.

Local Abbreviation rescale := (Binary64.rescale lo hi).
Local Abbreviation in_range := (Binary64.in_range lo hi).



Lemma lo_hi_finite : is_finite lo = true /\ is_finite hi = true.
Proof.
  destruct (ltb_not_nan lo hi lo_lt_hi) as [Hlo Hhi].
  destruct (sub_finite_inv hi lo Hhi Hlo range_finite). auto.
Qed.

Lemma lo_hi_val : (V lo < V hi)%Z.
Proof.
  destruct (ltb_not_nan lo hi lo_lt_hi) as [Hlo Hhi].
  pose proof lo_lt_hi as H. rewrite (ltb_val lo hi Hlo Hhi) in H.
  apply Z.ltb_lt. exact H.
Qed.

Lemma range_val : V (hi - lo) = srnd (V hi - V lo) /\ (0 < V (hi - lo))%Z.
Proof.
  destruct lo_hi_finite as [Flo Fhi]. pose proof lo_hi_val as Hlt.
  destruct (sub_val hi lo Fhi Flo) as [[_ E]|[E _]]; [|congruence].
  split; [exact E|]. rewrite E. apply srnd_pos. lia.
Qed.

Lemma in_range_finite (v : float) : in_range v -> is_finite v = true.
Proof.
  intros [Hn HB]. destruct lo_hi_finite as [Flo Fhi].
  exact (finite_between lo hi v Flo Fhi Hn HB).
Qed.

Lemma in_range_sub (v : float) :
  in_range v ->
  is_finite (v - lo) = true /\ V (v - lo) = srnd (V v - V lo) /\
  (0 <= V (v - lo) <= V (hi - lo))%Z.
Proof.
  intros Hv. pose proof (in_range_finite v Hv) as Fv. destruct Hv as [_ HB].
  destruct lo_hi_finite as [Flo Fhi]. destruct range_val as [Ed Hd].
  pose proof (srnd_mono (V v - V lo) (V hi - V lo) ltac:(lia)) as Hmono.
  pose proof (srnd_mono 0 (V v - V lo) ltac:(lia)) as Hpos. rewrite srnd_0 in Hpos.
  destruct (sub_val v lo Fv Flo) as [[F E]|[_ Hovf]].
  - split; [exact F|]. split; [exact E|]. rewrite E, Ed. lia.
  - exfalso. rewrite Z.abs_eq in Hovf by lia.
    rewrite <- srnd_nonneg in Hovf by lia.
    pose proof (V_finite_bound (hi - lo) range_finite). lia.
Qed.

(** Every cell of the range is mapped into the unit interval, and only the
    cells equal to the minimum can be mapped to the negative zero. *)
Lemma rescale_cell (v : float) :
  in_range v ->
  is_finite (rescale v) = true /\ (0 <= V (rescale v) <= V 1)%Z /\
  ((V lo < V v)%Z -> V (rescale v) = 0%Z -> rescale v = 0).
Proof.
  intros Hv. destruct (in_range_sub v Hv) as (Fa & Ea & Ba).
  destruct range_val as [_ Hd].
  destruct (div_unit (v - lo) (hi - lo) Fa range_finite Ba Hd) as (Fq & Bq & Zq).
  split; [exact Fq|]. split; [exact Bq|].
  intros Hlt. apply Zq. rewrite Ea. apply srnd_pos. lia.
Qed.

Lemma rescale_lo : rescale lo = 0.
Proof.
  unfold Binary64.rescale. destruct lo_hi_finite as [Flo _].
  rewrite (sub_self_finite lo (finite_forms lo Flo)).
  destruct range_val as [_ Hd].
  destruct (positive_form (hi - lo) range_finite Hd) as (m & e & E).
  exact (zero_div_finite (hi - lo) false m e E).
Qed.

Lemma rescale_hi : rescale hi = 1.
Proof.
  unfold Binary64.rescale. destruct range_val as [_ Hd].
  destruct (positive_form (hi - lo) range_finite Hd) as (m & e & E).
  exact (div_self_finite (hi - lo) false m e E).
Qed.

Lemma rescale_nan (v : float) : is_nan v = true -> is_nan (rescale v) = true.
Proof. intros Hv. apply div_nan_l, sub_nan_l, Hv. Qed.

(** The minimum of the rescaled cells, folded along with the minimum of the
    cells: once the latter is at the array's minimum the former is at 0. *)
Lemma fold_minimum_rescale (rest : list float) (a n : float) :
  Forall in_range rest -> is_nan a = false ->
  is_finite n = true -> (0 <= V n)%Z -> (a = lo -> n = 0) ->
  fold_left minimum rest a = lo ->
  fold_left minimum (map rescale rest) n = 0.
Proof.
  revert a n. induction rest as [|b rest IH]; intros a n Hall Ha Fn Bn Hn Hfold.
  - cbn [map fold_left] in Hfold |- *. auto.
  - inversion Hall as [|b' rest' Hb Hrest]; subst b' rest'.
    destruct (rescale_cell b Hb) as (Fq & Bq & Zq). destruct Hb as [Nb HBb].
    cbn [map fold_left] in Hfold |- *.
    rewrite minimum_b64 in Hfold by exact Ha.
    rewrite (ltb_val a b Ha Nb) in Hfold.
    rewrite minimum_b64 by (apply is_finite_not_nan, Fn).
    rewrite (ltb_val n (rescale b) (is_finite_not_nan n Fn) (is_finite_not_nan _ Fq)).
    destruct (Z.ltb_spec (V a) (V b)) as [Hab|Hab].
    + eapply (IH a); try eassumption.
      * destruct (V n <? V (rescale b))%Z; assumption.
      * destruct (V n <? V (rescale b))%Z; lia.
      * intros ->. rewrite (Hn eq_refl), V_zero.
        destruct (Z.ltb_spec 0 (V (rescale b))) as [|Hle]; [reflexivity|].
        apply Zq; lia.
    + eapply (IH b); try eassumption.
      * destruct (V n <? V (rescale b))%Z; assumption.
      * destruct (V n <? V (rescale b))%Z; lia.
      * intros ->. rewrite rescale_lo, V_zero.
        destruct (Z.ltb_spec (V n) 0) as [|]; [lia|reflexivity].
Qed.

Lemma fold_maximum_rescale (rest : list float) (a n : float) :
  Forall in_range rest -> is_nan a = false ->
  is_finite n = true -> (V n <= V 1)%Z -> (a = hi -> n = 1) ->
  fold_left maximum rest a = hi ->
  fold_left maximum (map rescale rest) n = 1.
Proof.
  revert a n. induction rest as [|b rest IH]; intros a n Hall Ha Fn Bn Hn Hfold.
  - cbn [map fold_left] in Hfold |- *. auto.
  - inversion Hall as [|b' rest' Hb Hrest]; subst b' rest'.
    destruct (rescale_cell b Hb) as (Fq & Bq & _). destruct Hb as [Nb HBb].
    cbn [map fold_left] in Hfold |- *.
    rewrite maximum_b64 in Hfold by exact Ha.
    rewrite (ltb_val b a Nb Ha) in Hfold.
    rewrite maximum_b64 by (apply is_finite_not_nan, Fn).
    rewrite (ltb_val (rescale b) n (is_finite_not_nan _ Fq) (is_finite_not_nan n Fn)).
    destruct (Z.ltb_spec (V b) (V a)) as [Hab|Hab].
    + eapply (IH a); try eassumption.
      * destruct (V (rescale b) <? V n)%Z; assumption.
      * destruct (V (rescale b) <? V n)%Z; lia.
      * intros ->. rewrite (Hn eq_refl).
        destruct (Z.ltb_spec (V (rescale b)) (V 1)) as [|Hle]; [reflexivity|].
        apply V_inj; [exact Fq|reflexivity|lia|rewrite V_one in Hle; lia].
    + eapply (IH b); try eassumption.
      * destruct (V (rescale b) <? V n)%Z; assumption.
      * destruct (V (rescale b) <? V n)%Z; lia.
      * intros ->. rewrite rescale_hi.
        destruct (Z.ltb_spec (V 1) (V n)) as [|]; [lia|reflexivity].
Qed.

(** The reductions of the rescaled cells. *)
Lemma reduce_rescaled (cells : list float) :
  Forall (fun v => is_nan v = false) cells ->
  reduce minimum cells = Ok lo -> reduce maximum cells = Ok hi ->
  Forall in_range cells /\
  reduce minimum (map rescale cells) = Ok 0 /\
  reduce maximum (map rescale cells) = Ok 1.
Proof.
  intros Hnan Hmin Hmax. destruct cells as [|x rest]; [discriminate|].
  cbn [reduce] in Hmin, Hmax. injection Hmin as Hmin. injection Hmax as Hmax.
  destruct (fold_minimum_lower rest x Hnan) as [_ Hlow].
  pose proof (fold_maximum_upper rest x Hnan) as Hupp.
  rewrite Hmin in Hlow. rewrite Hmax in Hupp.
  assert (Hall : Forall in_range (x :: rest)).
  { rewrite List.Forall_forall in Hlow, Hupp, Hnan |- *. intros v Hv.
    split; [exact (Hnan v Hv)|].
    specialize (Hlow v Hv). specialize (Hupp v Hv). cbv beta in Hlow, Hupp. lia. }
  split; [exact Hall|].
  inversion Hall as [|x' rest' Hx Hrest]; subst x' rest'.
  destruct (rescale_cell x Hx) as (Fq & Bq & _).
  inversion Hnan as [|x' rest' Nx _]; subst x' rest'.
  cbn [map reduce]. split; f_equal.
  - apply (fold_minimum_rescale rest x); try assumption; [lia|].
    intros ->. apply rescale_lo.
  - apply (fold_maximum_rescale rest x); try assumption; [lia|].
    intros ->. apply rescale_hi.
Qed.
End Rescale.


Lemma normalize_b64 (skipna : bool) (array : DataArray float float) (lo hi : float) :
  array_reduce minimum skipna (concat (values array)) = Ok lo ->
  array_reduce maximum skipna (concat (values array)) = Ok hi ->
  normalize skipna array
  = Ok (mkDataArray (latitude array) (longitude array)
          (map (map (fun v => (v - lo) / (hi - lo))%float) (values array))).
Proof.
  intros Hmin Hmax. unfold normalize. rewrite Hmin, Hmax.
  cbn [mbind result_bind].
  rewrite (mapM_rows_ok _ (fun v => (v - lo) / (hi - lo))%float); [reflexivity|].
  apply Forall_forall; intros row _. apply Forall_forall; intros v _. reflexivity.
Qed.

Lemma map_rows_unit (rows : list (list float)) :
  map (map (fun v => (v - 0) / (1 - 0))) rows = rows.
Proof.
  rewrite <- (map_id rows) at 2. apply map_ext; intros row.
  rewrite <- (map_id row) at 2. apply map_ext, rescale_zero_one.
Qed.

(** Normalisation of a binary64 array whose minimum is below its maximum
    and whose range [max - min] does not overflow. *)
Lemma normalize_b64_range (skipna : bool) (array : DataArray float float) (lo hi : float) :
  array_reduce minimum skipna (concat (values array)) = Ok lo ->
  array_reduce maximum skipna (concat (values array)) = Ok hi ->
  (lo <? hi) = true ->
  is_finite (hi - lo) = true ->
  let out := mkDataArray (latitude array) (longitude array)
               (map (map (fun v => (v - lo) / (hi - lo))) (values array)) in
  normalize skipna array = Ok out /\
  array_reduce minimum skipna (concat (values out)) = Ok 0 /\
  array_reduce maximum skipna (concat (values out)) = Ok 1 /\
  normalize skipna out = Ok out.
Proof.
  intros Hmin Hmax Hlt Hfin out.
  set (flat := concat (values array)) in *.
  destruct (ltb_not_nan lo hi Hlt) as [Nlo Nhi].
  destruct (array_reduce_cells skipna flat lo Hmin Nlo) as [Hne Hid].
  rewrite (array_reduce_dropna minimum skipna flat Hne Hid) in Hmin.
  rewrite (array_reduce_dropna maximum skipna flat Hne Hid) in Hmax.
  destruct (reduce_rescaled lo hi Hlt Hfin (dropna flat) (dropna_not_nan flat) Hmin Hmax)
    as (Hall & Hmin' & Hmax').
  assert (Hflat : concat (values out) = map (rescale lo hi) flat).
  { cbn [values out]. symmetry. apply concat_map. }
  assert (Hdrop : dropna (map (rescale lo hi) flat) = map (rescale lo hi) (dropna flat)).
  { apply dropna_map. apply List.Forall_forall. intros v Hv.
    destruct (is_nan v) eqn:Ev.
    - apply rescale_nan, Ev.
    - assert (Hin : In v (dropna flat)).
      { unfold dropna. apply List.filter_In. split; [exact Hv|].
        change (num_isnan v) with (is_nan v). rewrite Ev. reflexivity. }
      rewrite List.Forall_forall in Hall.
      destruct (rescale_cell lo hi Hlt Hfin v (Hall v Hin)) as (Fq & _).
      apply is_finite_not_nan, Fq. }
  assert (Hne' : dropna (map (rescale lo hi) flat) <> []).
  { rewrite Hdrop. destruct (dropna flat); [contradiction|discriminate]. }
  assert (Hid' : skipna = false ->
                 dropna (map (rescale lo hi) flat) = map (rescale lo hi) flat).
  { intros E. rewrite Hdrop, (Hid E). reflexivity. }
  assert (Hmin'' : array_reduce minimum skipna (concat (values out)) = Ok 0).
  { rewrite Hflat, (array_reduce_dropna minimum skipna _ Hne' Hid'), Hdrop. exact Hmin'. }
  assert (Hmax'' : array_reduce maximum skipna (concat (values out)) = Ok 1).
  { rewrite Hflat, (array_reduce_dropna maximum skipna _ Hne' Hid'), Hdrop. exact Hmax'. }
  split; [|split; [exact Hmin''|split; [exact Hmax''|]]].
  - apply normalize_b64.
    + rewrite (array_reduce_dropna minimum skipna flat Hne Hid). exact Hmin.
    + rewrite (array_reduce_dropna maximum skipna flat Hne Hid). exact Hmax.
  - rewrite (normalize_b64 skipna out 0 1 Hmin'' Hmax'').
    cbn [latitude longitude values out]. rewrite map_rows_unit. reflexivity.
Qed.
End B64Range.

(** ** The store: lookups, aliasing and the absence of mutation *)

Section StoreProps.
Context {T : Type} `{Numeric T}.
Variable na : T.

Local Abbreviation store := (gmap ref (obj T)).

Lemma frame_ret {A} (a : A) : frame T (mret a : M store A).
Proof. intros s. reflexivity. Qed.

Lemma frame_lift {A} (r : result A) : frame T (lift r : M store A).
Proof. intros s. reflexivity. Qed.

Lemma frame_bind {A B} (m : M store A) (k : A -> M store B) :
  frame T m -> (forall a, frame T (k a)) -> frame T (m ≫= k).
Proof.
  intros Hm Hk s. unfold mbind, M_bind. specialize (Hm s).
  destruct (m s) as [[a|e] s1]; simpl in *; [|exact Hm].
  etrans; [exact Hm | apply Hk].
Qed.

Lemma frame_load_array (r : ref) : frame T (Py.load_array r).
Proof. intros s. unfold Py.load_array. destruct (s !! r) as [[]|]; reflexivity. Qed.

Lemma frame_load_bands (r : ref) : frame T (Py.load_bands r).
Proof. intros s. unfold Py.load_bands. destruct (s !! r) as [[]|]; reflexivity. Qed.

Lemma fresh_unused (s : store) : s !! fresh (dom s) = None.
Proof. apply not_elem_of_dom, is_fresh. Qed.

Lemma frame_new (o : obj T) : frame T (Py.new o).
Proof. intros s. simpl. apply insert_subseteq, fresh_unused. Qed.

Lemma frame_getitem (bands : gmap string ref) (key : string) :
  frame T (Py.getitem bands key).
Proof. unfold Py.getitem. destruct (bands !! key); [apply frame_ret | apply frame_lift]. Qed.

Lemma frame_generate_geographical_subset (x : ref)
    (latmin latmax lonmin lonmax : T) (reassign : bool) :
  frame T (Py.generate_geographical_subset na x latmin latmax lonmin lonmax reassign).
Proof.
  unfold Py.generate_geographical_subset.
  apply frame_bind.
  - destruct reassign; [|apply frame_ret].
    apply frame_bind; [apply frame_load_array | intros; apply frame_new].
  - intros x'. apply frame_bind; [apply frame_load_array | intros; apply frame_new].
Qed.

Lemma frame_normalize (skipna : bool) (x : ref) : frame T (Py.normalize skipna x).
Proof.
  unfold Py.normalize.
  apply frame_bind; [apply frame_load_array | intros a].
  apply frame_bind; [apply frame_lift | intros n]. apply frame_new.
Qed.

Lemma run_bind {A B} (m : M store A) (k : A -> M store B) (s s1 : store) (a : A) :
  m s = (Ok a, s1) -> (m ≫= k) s = k a s1.
Proof. intros E. unfold mbind, M_bind. rewrite E. reflexivity. Qed.

Lemma run_load_array (s : store) (x : ref) (g : DataArray T T) :
  s !! x = Some (ObjArray g) -> Py.load_array x s = (Ok g, s).
Proof. intros E. unfold Py.load_array. rewrite E. reflexivity. Qed.

Lemma run_load_bands (s : store) (x : ref) (bands : gmap string ref) :
  s !! x = Some (ObjBands bands) -> Py.load_bands x s = (Ok bands, s).
Proof. intros E. unfold Py.load_bands. rewrite E. reflexivity. Qed.

(** What a call of the subsetter does to the store: the argument stays as
    it was and the result is a new object holding the subset. *)
Lemma run_generate_geographical_subset (s : store) (x : ref) (g : DataArray T T)
    (latmin latmax lonmin lonmax : T) (reassign : bool) :
  s !! x = Some (ObjArray g) ->
  exists r s',
    Py.generate_geographical_subset na x latmin latmax lonmin lonmax reassign s
      = (Ok r, s') /\
    s !! r = None /\
    s' !! r = Some (ObjArray
                      (generate_geographical_subset na g latmin latmax lonmin lonmax reassign)) /\
    s' !! x = Some (ObjArray g).
Proof.
  intros Hx.
  pose proof (frame_generate_geographical_subset x latmin latmax lonmin lonmax
                reassign s) as Hframe.
  unfold Py.generate_geographical_subset in *.
  destruct reassign.
  - set (g1 := assign_coords g (map shift_longitude (longitude g))).
    set (x1 := fresh (dom s)).
    set (s1 := <[x1 := ObjArray g1]> s).
    assert (E1 : (Py.load_array x ≫= λ x0, Py.new
                    (ObjArray (assign_coords x0 (map shift_longitude (longitude x0))))) s
                 = (Ok x1, s1))
      by (rewrite (run_bind _ _ s s g) by (apply run_load_array, Hx); reflexivity).
    assert (Hs1 : s ⊆ s1) by apply insert_subseteq, fresh_unused.
    rewrite (run_bind _ _ _ _ _ E1) in Hframe |- *.
    rewrite (run_bind _ _ s1 s1 g1) in Hframe |- *
      by (apply run_load_array, lookup_insert_eq).
    cbn [Py.new] in Hframe |- *.
    eexists _, _. split; [reflexivity|]. split; [|split].
    + eapply lookup_weaken_None; [apply fresh_unused | exact Hs1].
    + apply lookup_insert_eq.
    + eapply lookup_weaken; [exact Hx | exact Hframe].
  - rewrite (run_bind _ _ s s x) in Hframe |- * by reflexivity.
    rewrite (run_bind _ _ s s g) in Hframe |- * by (apply run_load_array, Hx).
    cbn [Py.new] in Hframe |- *.
    eexists _, _. split; [reflexivity|]. split; [|split].
    + apply fresh_unused.
    + apply lookup_insert_eq.
    + eapply lookup_weaken; [exact Hx | exact Hframe].
Qed.

Lemma run_getitem_Some (s : store) (bands : gmap string ref) (key : string) (r : ref) :
  bands !! key = Some r -> Py.getitem bands key s = (Ok r, s).
Proof. intros E. unfold Py.getitem. rewrite E. reflexivity. Qed.

Lemma run_getitem_None {B} (s : store) (bands : gmap string ref) (key : string)
    (k : ref -> M store B) :
  bands !! key = None -> (Py.getitem bands key ≫= k) s = (Raise (KeyError key), s).
Proof. intros E. unfold Py.getitem, mbind, M_bind. rewrite E. reflexivity. Qed.

(** C6.  When the band set holds the three keys, the call returns the three
    references registered under them, in (red, green, blue) order: the very
    references of the band set, no object being created, and the store is
    left as it was. *)
Theorem select_channels_for_rgb_returns (s : store) (xarray : ref)
    (bands : gmap string ref) (red green blue : string) (X Y Z : ref) :
  s !! xarray = Some (ObjBands bands) ->
  bands !! red = Some X -> bands !! green = Some Y -> bands !! blue = Some Z ->
  Py.select_channels_for_rgb xarray red green blue s = (Ok (X, Y, Z), s).
Proof.
  intros Hx HX HY HZ. unfold Py.select_channels_for_rgb.
  rewrite (run_bind _ _ s s bands) by (apply run_load_bands, Hx).
  rewrite (run_bind _ _ s s X) by (apply run_getitem_Some, HX).
  rewrite (run_bind _ _ s s Y) by (apply run_getitem_Some, HY).
  rewrite (run_bind _ _ s s Z) by (apply run_getitem_Some, HZ).
  reflexivity.
Qed.

Lemma missing_key_outcome (bands : gmap string ref) (red green blue key : string)
    (s : store) :
  bands !! key = None -> In key [red; green; blue] ->
  let out : result (ref * ref * ref) * store := (Raise (KeyError key), s) in
  ((exists e, out.1 = Raise e)
     <-> bands !! red = None \/ bands !! green = None \/ bands !! blue = None) /\
  (forall e, out.1 = Raise e ->
     exists key, e = KeyError key /\ In key [red; green; blue] /\ bands !! key = None) /\
  out.2 = s.
Proof.
  intros Hkey Hin out. subst out. cbn [fst snd].
  split; [|split]; [split | | reflexivity].
  - intros _. destruct Hin as [<-|[<-|[<-|[]]]]; auto.
  - intros _. eexists. reflexivity.
  - intros e [= <-]. exists key. auto.
Qed.

(** C7.  The call raises exactly when one of the three keys is missing from
    the band set; what it raises is the key error of a missing key (the
    first one in red, green, blue order), no default is returned, and the
    store is left as it was. *)
Theorem select_channels_for_rgb_raises (s : store) (xarray : ref)
    (bands : gmap string ref) (red green blue : string) :
  s !! xarray = Some (ObjBands bands) ->
  let out := Py.select_channels_for_rgb xarray red green blue s in
  ((exists e, out.1 = Raise e)
     <-> bands !! red = None \/ bands !! green = None \/ bands !! blue = None) /\
  (forall e, out.1 = Raise e ->
     exists key, e = KeyError key /\ In key [red; green; blue] /\ bands !! key = None) /\
  out.2 = s.
Proof.
  intros Hx out. subst out. unfold Py.select_channels_for_rgb.
  rewrite (run_bind _ _ s s bands) by (apply run_load_bands, Hx).
  destruct (bands !! red) as [X|] eqn:HX.
  2: { rewrite run_getitem_None by exact HX.
       pose proof (missing_key_outcome bands red green blue red s HX) as L.
       rewrite ?HX, ?HY, ?HZ in L. apply L. simpl; auto. }
  rewrite (run_bind _ _ s s X) by (apply run_getitem_Some, HX).
  destruct (bands !! green) as [Y|] eqn:HY.
  2: { rewrite run_getitem_None by exact HY.
       pose proof (missing_key_outcome bands red green blue green s HY) as L.
       rewrite ?HX, ?HY, ?HZ in L. apply L. simpl; auto. }
  rewrite (run_bind _ _ s s Y) by (apply run_getitem_Some, HY).
  destruct (bands !! blue) as [Z|] eqn:HZ.
  2: { rewrite run_getitem_None by exact HZ.
       pose proof (missing_key_outcome bands red green blue blue s HZ) as L.
       rewrite ?HX, ?HY, ?HZ in L. apply L. simpl; auto. }
  rewrite (run_bind _ _ s s Z) by (apply run_getitem_Some, HZ).
  cbn. split; [|split]; [split | | reflexivity].
  - intros [e [=]].
  - intros [[=]|[[=]|[=]]].
  - intros e [=].
Qed.

(** C9.  None of the three transformations changes or removes an object of
    the store it is called in: what they return is held by references that
    were not in use.  In particular, after a call of the subsetter with
    [reassign=True] the caller's reference still holds the original grid,
    longitudes included, and the result is another object. *)
Theorem transformations_do_not_mutate (s : store) :
  (forall x latmin latmax lonmin lonmax reassign,
     s ⊆ (Py.generate_geographical_subset na x latmin latmax lonmin lonmax reassign s).2) /\
  (forall x red green blue,
     (Py.select_channels_for_rgb x red green blue s).2 = s) /\
  (forall skipna x, s ⊆ (Py.normalize skipna x s).2) /\
  (forall x g latmin latmax lonmin lonmax,
     s !! x = Some (ObjArray g) ->
     exists r s',
       Py.generate_geographical_subset na x latmin latmax lonmin lonmax true s
         = (Ok r, s') /\
       r <> x /\
       s' !! x = Some (ObjArray g) /\
       s' !! r = Some (ObjArray
                         (generate_geographical_subset na g latmin latmax lonmin lonmax true))).
Proof.
  split; [|split; [|split]].
  - intros. apply frame_generate_geographical_subset.
  - intros x red green blue. unfold Py.select_channels_for_rgb.
    unfold mbind, M_bind, Py.load_bands, Py.getitem, mret, M_ret, lift.
    destruct (s !! x) as [[|bands]|]; try reflexivity.
    destruct (bands !! red); [|reflexivity].
    destruct (bands !! green); [|reflexivity].
    destruct (bands !! blue); reflexivity.
  - intros. apply frame_normalize.
  - intros x g latmin latmax lonmin lonmax Hx.
    destruct (run_generate_geographical_subset s x g latmin latmax lonmin lonmax
                true Hx) as (r & s' & Hrun & Hfresh & Hr & Hx').
    exists r, s'. repeat split; try assumption.
    intros ->. congruence.
Qed.
End StoreProps.

(** ** The renderer and the file it writes *)

Module RenderFacts.
Import Render.
Section WithBackend.
Context {Proj Data Num Cmap Canvas Image : Type}.
Variable lib : @backend Proj Data Num Cmap Canvas Image.

Local Abbreviation state := (@state Canvas Image).

Lemma keeps_files_ret {A} (a : A) : keeps_files (mret a : M state A).
Proof. intros st. reflexivity. Qed.

Lemma keeps_files_lift {A} (r : result A) : keeps_files (lift r : M state A).
Proof. intros st. reflexivity. Qed.

Lemma keeps_files_bind {A B} (m : M state A) (k : A -> M state B) :
  keeps_files m -> (forall a, keeps_files (k a)) -> keeps_files (m ≫= k).
Proof.
  intros Hm Hk st. unfold mbind, M_bind. specialize (Hm st).
  destruct (m st) as [[a|e] st1]; simpl in *; [|exact Hm].
  rewrite Hk. exact Hm.
Qed.

Lemma keeps_files_plt (c : call) : keeps_files (plt lib c).
Proof. intros st. unfold plt. destruct (perform lib c (canvas st)); reflexivity. Qed.

Lemma keeps_files_when (b : bool) (m : M state unit) :
  keeps_files m -> keeps_files (when b m).
Proof. intros Hm. destruct b; [exact Hm | apply keeps_files_ret]. Qed.

Lemma saves_figure_bind {A B} (m : M state A) (k : A -> M state B) :
  keeps_files m -> (forall a, saves_figure lib (k a)) -> saves_figure lib (m ≫= k).
Proof.
  intros Hm Hk st. unfold mbind, M_bind. specialize (Hm st).
  destruct (m st) as [[a|e] st1]; simpl in *; [|exact Hm].
  specialize (Hk a st1). destruct (k a st1) as [[b|e] st2];
    rewrite Hm in Hk; exact Hk.
Qed.

Lemma saves_figure_savefig :
  saves_figure lib (savefig lib output_path ≫= λ _, current).
Proof.
  intros st. unfold mbind, M_bind, savefig, current.
  destruct (encode lib (canvas st)) as [img|e] eqn:E; simpl; [|reflexivity].
  exists img. split; [exact E | reflexivity].
Qed.

Lemma visualize_pcolormesh_saves (data_array longitude latitude : Data)
    (projection : Proj) (color_scale unit long_name : string) (vmin vmax : Num)
    (set_global : bool) (lonmin lonmax latmin latmax : Num) :
  saves_figure lib (visualize_pcolormesh lib data_array longitude latitude projection
                  color_scale unit long_name vmin vmax set_global
                  lonmin lonmax latmin latmax).
Proof.
  unfold visualize_pcolormesh.
  repeat (apply saves_figure_bind;
          [ first [ apply keeps_files_plt | apply keeps_files_lift
                  | apply keeps_files_when;
                    repeat (apply keeps_files_bind;
                            [apply keeps_files_plt | intros ?]);
                    apply keeps_files_plt ]
          | intros ? ]).
  apply saves_figure_savefig.
Qed.

(** A computation that returns from every state. *)
Local Abbreviation returns m :=
  (forall st : state, exists x st', m st = (Ok x, st')).

Lemma returns_bind {A B} (m : M state A) (k : A -> M state B) :
  returns m -> (forall a, returns (k a)) -> returns (m ≫= k).
Proof.
  intros Hm Hk st. unfold mbind, M_bind.
  destruct (Hm st) as (a & st1 & ->). apply Hk.
Qed.

Lemma returns_plt (c : call) :
  (forall c cv, exists cv', perform lib c cv = Ok cv') -> returns (plt lib c).
Proof.
  intros Hp st. unfold plt. destruct (Hp c (canvas st)) as [cv' ->].
  eexists _, _. reflexivity.
Qed.

Lemma returns_when (b : bool) (m : M state unit) : returns m -> returns (when b m).
Proof.
  intros Hm. destruct b; [exact Hm|]. intros st. eexists _, _. reflexivity.
Qed.

Lemma returns_savefig (fname : string) :
  (forall cv, exists img, encode lib cv = Ok img) -> returns (savefig lib fname).
Proof.
  intros He st. unfold savefig. destruct (He (canvas st)) as [img ->].
  eexists _, _. reflexivity.
Qed.

(** When the library performs every call, knows the colour scale and
    encodes the figure, the renderer returns. *)
Lemma visualize_pcolormesh_returns (data_array longitude latitude : Data)
    (projection : Proj) (color_scale unit long_name : string) (vmin vmax : Num)
    (set_global : bool) (lonmin lonmax latmin latmax : Num) :
  (forall c cv, exists cv', perform lib c cv = Ok cv') ->
  (exists cmap, get_cmap lib color_scale = Ok cmap) ->
  (forall cv, exists img, encode lib cv = Ok img) ->
  returns (visualize_pcolormesh lib data_array longitude latitude projection
             color_scale unit long_name vmin vmax set_global
             lonmin lonmax latmin latmax).
Proof.
  intros Hp [cmap Hc] He. unfold visualize_pcolormesh. rewrite Hc.
  repeat (apply returns_bind;
          [ first [ apply returns_plt, Hp
                  | apply returns_savefig, He
                  | intros st; eexists _, _; reflexivity
                  | apply returns_when;
                    repeat (apply returns_bind; [apply returns_plt, Hp | intros ?]);
                    apply returns_plt, Hp ]
          | intros ? ]).
  intros st. eexists _, _. reflexivity.
Qed.

(** C10.  Whatever the arguments, a call that returns has written the
    encoded figure to the file "wildfire_co_300.png" and to no other file;
    the next call that returns replaces what the first one wrote there.
    The path is the same for all arguments: none of them names or disables
    it.  A call returns, and so writes the file, whenever the plotting
    library performs every call, knows the colour scale and encodes the
    figure.  Not every call writes: one that the plotting library aborts
    with an exception raised before the save writes nothing. *)
Theorem visualize_pcolormesh_writes_fixed_path (a b : arguments) (st : state) :
  ((forall c cv, exists cv', perform lib c cv = Ok cv') ->
   (exists cmap, get_cmap lib (arg_color_scale a) = Ok cmap) ->
   (forall cv, exists img, encode lib cv = Ok img) ->
   exists fig st1 img,
     invoke lib a st = (Ok fig, st1) /\
     encode lib (canvas st1) = Ok img /\
     files st1 = <["wildfire_co_300.png" := img]> (files st)) /\
  match invoke lib a st with
  | (Ok _, st1) =>
      (exists img, encode lib (canvas st1) = Ok img /\
                   files st1 = <["wildfire_co_300.png" := img]> (files st)) /\
      match invoke lib b st1 with
      | (Ok _, st2) =>
          exists img, encode lib (canvas st2) = Ok img /\
                      files st2 = <["wildfire_co_300.png" := img]> (files st)
      | (Raise _, st2) => files st2 = files st1
      end
  | (Raise _, st1) => files st1 = files st
  end.
Proof.
  unfold invoke.
  pose proof (visualize_pcolormesh_saves (arg_data_array a) (arg_longitude a)
                (arg_latitude a) (arg_projection a) (arg_color_scale a) (arg_unit a)
                (arg_long_name a) (arg_vmin a) (arg_vmax a) (arg_set_global a)
                (arg_lonmin a) (arg_lonmax a) (arg_latmin a) (arg_latmax a) st) as Ha.
  split.
  { intros Hp Hc He.
    destruct (visualize_pcolormesh_returns (arg_data_array a) (arg_longitude a)
                (arg_latitude a) (arg_projection a) (arg_color_scale a) (arg_unit a)
                (arg_long_name a) (arg_vmin a) (arg_vmax a) (arg_set_global a)
                (arg_lonmin a) (arg_lonmax a) (arg_latmin a) (arg_latmax a)
                Hp Hc He st) as (fig & st1 & Hrun).
    rewrite Hrun in Ha. destruct Ha as (img & Himg & Hfiles).
    exists fig, st1, img. split; [exact Hrun|]. split; assumption. }
  destruct (visualize_pcolormesh lib _ _ _ _ _ _ _ _ _ _ _ _ _ _ st)
    as [[cv1|e1] st1]; [|exact Ha].
  split; [exact Ha|].
  pose proof (visualize_pcolormesh_saves (arg_data_array b) (arg_longitude b)
                (arg_latitude b) (arg_projection b) (arg_color_scale b) (arg_unit b)
                (arg_long_name b) (arg_vmin b) (arg_vmax b) (arg_set_global b)
                (arg_lonmin b) (arg_lonmax b) (arg_latmin b) (arg_latmax b) st1) as Hb.
  destruct (visualize_pcolormesh lib _ _ _ _ _ _ _ _ _ _ _ _ _ _ st1)
    as [[cv2|e2] st2]; [|exact Hb].
  destruct Ha as (img1 & _ & E1). destruct Hb as (img2 & Himg2 & E2).
  exists img2. split; [exact Himg2|].
  rewrite E2, E1. apply insert_insert_eq.
Qed.
End WithBackend.
End RenderFacts.

(** ** The file the renderer writes, at a concrete backend *)

Module RenderClaim.
Import Render.

Lemma visualize_pcolormesh_writes_fixed_path_witness :
  exists fig st1 img,
    invoke Recorder.lib
      (mkArguments tt tt tt "PlateCarree" "afmhot_r" "mol m-2" "CO total column"
         0 5 false (-80) (-60) (-45) (-25)) Recorder.start
    = (Ok fig, st1) /\
    encode Recorder.lib (canvas st1) = Ok img /\
    files st1 = <["wildfire_co_300.png" := img]> (files Recorder.start).
Proof.
  apply (proj1 (RenderFacts.visualize_pcolormesh_writes_fixed_path Recorder.lib
           (mkArguments tt tt tt "PlateCarree" "afmhot_r" "mol m-2" "CO total column"
              0 5 false (-80) (-60) (-45) (-25))
           (mkArguments tt tt tt "PlateCarree" "afmhot_r" "mol m-2" "CO total column"
              0 5 false (-80) (-60) (-45) (-25)) Recorder.start)).
  - intros c cv. destruct c; eexists; reflexivity.
  - eexists. vm_compute. reflexivity.
  - intros cv. eexists. reflexivity.
Defined.

(** A call that does not write the file: the plotting library does not
    know the colour scale, the call raises, and the working directory is
    as empty as before. *)
Lemma visualize_pcolormesh_no_file_counterexample :
  let run := invoke Recorder.lib
               (mkArguments tt tt tt "PlateCarree" "no_such_map" "mol m-2"
                  "CO total column" 0 5 false (-80) (-60) (-45)
                  (-25)) Recorder.start in
  run.1 = Raise (BackendError 0) /\
  files run.2 !! "wildfire_co_300.png" = None.
Proof. split; vm_compute; reflexivity. Qed.
End RenderClaim.

(** ** The claims about re-labelling and the concrete scenario *)

Module Scenario.
Local Open Scope float_scope.

Lemma shifted_axis :
  map shift_longitude [350; 355; 0; 5; 10] = [-10; -5; 0; 5; 10].
Proof. vm_compute. reflexivity. Qed.

(** C5.  A grid with the longitude axis [350, 355, 0, 5, 10], subset with
    [reassign=True] to the box -10 < lat < 10, -10 < lon < 10: the axis is
    re-labelled to [-10, -5, 0, 5, 10]; the cells kept are those of the
    latitudes strictly inside the box at the second, third and fourth
    longitude, that is at -5, 0 and 5; the boundary longitudes -10 and 10
    are dropped. *)
Theorem scenario_reassign_subset {V : Type} (na : V) (lats : list float)
    (vals : list (list V)) :
  let grid := mkDataArray lats [350; 355; 0; 5; 10] vals in
  wf_array grid ->
  let out := generate_geographical_subset na grid (-10) 10 (-10) 10 true in
  map shift_longitude (longitude grid) = [-10; -5; 0; 5; 10] /\
  longitude out
    = (if existsb (strictly_between (-10) 10) lats then [-5; 0; 5] else []) /\
  latitude out = List.filter (strictly_between (-10) 10) lats /\
  values out = isel (map (strictly_between (-10) 10) lats)
                 (map (isel [false; true; true; true; false]) vals).
Proof.
  intros grid Hwf out. split; [exact shifted_axis|].
  subst out. rewrite generate_geographical_subset_eq by exact Hwf.
  cbn [latitude longitude values grid]. rewrite shifted_axis.
  change (existsb (strictly_between (-10) 10) [-10; -5; 0; 5; 10]) with true.
  change (List.filter (strictly_between (-10) 10) [-10; -5; 0; 5; 10])
    with [-5; 0; 5].
  change (map (strictly_between (-10) 10) [-10; -5; 0; 5; 10])
    with [false; true; true; true; false].
  rewrite andb_true_r.
  destruct (existsb (strictly_between (-10) 10) lats) eqn:E;
    cbn [latitude longitude values].
  - repeat split.
  - rewrite (isel_none _ _ _ E).
    rewrite <- isel_map_filter, (isel_none _ _ _ E). repeat split.
Qed.
End Scenario.

Module ReassignClaim.
Import ExactFacts B64Facts B64Longitude.

(** C2, as the code has it.  With [reassign=True] every longitude is first
    re-labelled by [((lon + 180) % 360) - 180], evaluated in the arithmetic
    of the axis, and the filter runs on the re-labelled grid.  Over exact
    numbers every longitude of the result lies in [-180, 180) and a
    longitude already in that range is re-labelled to itself.  Over
    binary64 every finite longitude is re-labelled into the closed interval
    [-180, 180]; a longitude from -180 up to where [lon + 180] reaches 360
    is re-labelled to [(lon + 180) - 180], which is the longitude itself
    when the addition loses none of its bits; re-labelling a re-labelled
    longitude other than 180 gives it back; and on the longitudes [n / 8]
    between -720 and 720 degrees (whole, half, quarter and eighth degrees)
    the evaluation is exact, so that there the range is [-180, 180) and the
    longitudes of that range are kept. *)
Theorem reassign_shifts_longitude :
  (forall (T V : Type) (N : Numeric T) (na : V) (x : DataArray T V)
          (latmin latmax lonmin lonmax : T),
     generate_geographical_subset na x latmin latmax lonmin lonmax true
     = generate_geographical_subset na
         (assign_coords x
            (map (fun lon => num_sub (num_mod (num_add lon (num_of_Z 180))
                                        (num_of_Z 360)) (num_of_Z 180))
               (longitude x)))
         latmin latmax lonmin lonmax false) /\
  (forall (V : Type) (na : V) (x : DataArray Qc V) (latmin latmax lonmin lonmax : Qc),
     Forall (fun lon => (num_of_Z (-180) <= lon)%Qc /\ (lon < num_of_Z 180)%Qc)
       (longitude (generate_geographical_subset na x latmin latmax lonmin lonmax true))) /\
  (forall lon : Qc,
     (num_of_Z (-180) <= lon)%Qc -> (lon < num_of_Z 180)%Qc ->
     shift_longitude lon = lon) /\
  (forall (V : Type) (na : V) (x : DataArray float V)
          (latmin latmax lonmin lonmax : float),
     Forall (fun lon => is_finite lon = true) (longitude x) ->
     Forall (fun lon => (-180 <=? lon)%float = true /\ (lon <=? 180)%float = true)
       (longitude (generate_geographical_subset na x latmin latmax lonmin lonmax true))) /\
  (forall lon : float,
     (-180 <=? lon)%float = true -> (lon + 180 <? 360)%float = true ->
     shift_longitude lon = (lon + 180 - 180)%float) /\
  (forall lon : float,
     is_finite lon = true -> (shift_longitude lon <? 180)%float = true ->
     shift_longitude (shift_longitude lon) = shift_longitude lon) /\
  (forall n : Z,
     -5760 <= n <= 5760 ->
     let lon := shift_longitude (num_of_Z n / 8)%float in
     lon = (num_of_Z ((n + 1440) mod 2880 - 1440) / 8)%float /\
     (-180 <=? lon)%float = true /\ (lon <? 180)%float = true) /\
  (forall n : Z,
     -1440 <= n < 1440 ->
     shift_longitude (num_of_Z n / 8)%float = (num_of_Z n / 8)%float).
Proof.
  split; [|split; [|split; [|split; [|split; [|split; [|split]]]]]].
  - intros. apply reassign_then_filter.
  - intros V na x latmin latmax lonmin lonmax.
    apply subset_longitude_Forall.
    apply Forall_map, Forall_forall. intros lon _.
    apply shift_longitude_range.
  - exact shift_longitude_fixpoint.
  - intros V na x latmin latmax lonmin lonmax Hfin.
    apply subset_longitude_Forall. apply Forall_map.
    eapply Forall_impl; [exact Hfin|]. intros lon F.
    exact (shift_longitude_bounds lon F).
  - exact shift_longitude_in_range.
  - exact shift_longitude_twice.
  - exact shift_longitude_eighths.
  - exact shift_longitude_eighths_fixpoint.
Qed.

Lemma reassign_shifts_longitude_witness :
  (shift_longitude (num_of_Z 2802 / 8) = num_of_Z (-78) / 8)%float
  /\ shift_longitude (Q2Qc (7 # 2)) = Q2Qc (7 # 2)
  /\ (shift_longitude (shift_longitude 0x1.999999999999ap-4)
      = shift_longitude 0x1.999999999999ap-4)%float
  /\ (shift_longitude 0x1.999999999999ap-4 = 0x1.999999999999ap-4 + 180 - 180)%float
  /\ Forall (fun lon => (-180 <=? lon)%float = true /\ (lon <=? 180)%float = true)
       (longitude (generate_geographical_subset 0%nat
                     (mkDataArray [0] [350; 0x1.999999999999ap-4; 725.5]
                        [[1; 2; 3]]%nat)
                     (-1) 1 (-360) 360 true))%float.
Proof.
  destruct reassign_shifts_longitude
    as (_ & _ & Hfix & Hrange & Hin & Htwice & Heighths & _).
  split; [|split; [|split; [|split]]].
  - apply (Heighths 2802). lia.
  - apply (Hfix (Q2Qc (7 # 2))); vm_compute; first [reflexivity | discriminate].
  - apply (Htwice 0x1.999999999999ap-4%float); vm_compute; reflexivity.
  - apply (Hin 0x1.999999999999ap-4%float); vm_compute; reflexivity.
  - apply Hrange. repeat constructor.
Defined.

(** In binary64 the claim fails as it is stated.  The double 0.1 lies in
    [-180, 180) and is re-labelled to 0.09999999999999432; the grid whose
    only longitude is the double just below -180 comes out of the subsetter
    with the longitude 180, which is not below 180; and re-labelling that
    180 again gives -180. *)
Lemma reassign_binary64_counterexample :
  ((-180 <=? 0x1.999999999999ap-4) = true
   /\ (0x1.999999999999ap-4 <? 180) = true
   /\ shift_longitude 0x1.999999999999ap-4 <> 0x1.999999999999ap-4)%float
  /\ (longitude (generate_geographical_subset nan
                   (mkDataArray [0] [- 0x1.6800000000001p+7] [[1]])
                   (-1) 1 (-360) 360 true) = [180]
      /\ (180 <? 180) = false
      /\ shift_longitude (shift_longitude (- 0x1.6800000000001p+7)) = -180
      /\ shift_longitude (- 0x1.6800000000001p+7) <> -180)%float.
Proof.
  split; [split; [|split] | split; [|split; [|split]]];
    try (vm_compute; reflexivity).
  - rewrite shift_longitude_rounds. apply float_neq. vm_compute. reflexivity.
  - rewrite shift_longitude_reaches_180. apply float_neq. vm_compute. reflexivity.
Qed.
End ReassignClaim.

Module NormalizeClaim.
Import ExactNormalize Examples B64Facts B64Range.

(** C3, as the code has it.  [normalize] gives every cell the value of
    [(v - min) / (max - min)], computed in the arithmetic of the array, and
    keeps the shape and the labels: on any carrier for a call that returns,
    and on binary64, where the division never raises, for every array with
    an element.  For a binary64 array whose minimum is below its maximum and
    whose range [max - min] is finite, and for a non-constant array of exact
    numbers, the minimum of the result is 0, its maximum is 1, and
    normalising the result again gives it back. *)
Theorem normalize_rescales :
  (forall (T : Type) (N : Numeric T) (skipna : bool) (array out : DataArray T T),
     normalize skipna array = Ok out ->
     exists array_min array_max,
       array_reduce minimum skipna (concat (values array)) = Ok array_min /\
       array_reduce maximum skipna (concat (values array)) = Ok array_max /\
       latitude out = latitude array /\
       longitude out = longitude array /\
       Forall2 (Forall2 (fun v n =>
                  num_div (num_sub v array_min) (num_sub array_max array_min) = Ok n))
         (values array) (values out)) /\
  (forall (skipna : bool) (array : DataArray float float) (lo hi : float),
     array_reduce minimum skipna (concat (values array)) = Ok lo ->
     array_reduce maximum skipna (concat (values array)) = Ok hi ->
     normalize skipna array
     = Ok (mkDataArray (latitude array) (longitude array)
             (map (map (fun v => (v - lo) / (hi - lo))%float) (values array)))) /\
  (forall (skipna : bool) (array : DataArray float float) (lo hi : float),
     array_reduce minimum skipna (concat (values array)) = Ok lo ->
     array_reduce maximum skipna (concat (values array)) = Ok hi ->
     (lo <? hi)%float = true ->
     is_finite (hi - lo)%float = true ->
     let out := mkDataArray (latitude array) (longitude array)
                  (map (map (fun v => (v - lo) / (hi - lo))%float) (values array)) in
     normalize skipna array = Ok out /\
     array_reduce minimum skipna (concat (values out)) = Ok 0%float /\
     array_reduce maximum skipna (concat (values out)) = Ok 1%float /\
     normalize skipna out = Ok out) /\
  (forall (skipna : bool) (array : DataArray Qc Qc) (lo hi : Qc),
     array_reduce minimum skipna (concat (values array)) = Ok lo ->
     array_reduce maximum skipna (concat (values array)) = Ok hi ->
     (lo < hi)%Qc ->
     let out := mkDataArray (latitude array) (longitude array)
                  (map (map (fun v => (v - lo) / (hi - lo))%Qc) (values array)) in
     normalize skipna array = Ok out /\
     array_reduce minimum skipna (concat (values out)) = Ok 0%Qc /\
     array_reduce maximum skipna (concat (values out)) = Ok 1%Qc /\
     normalize skipna out = Ok out).
Proof.
  split; [|split; [|split]].
  - intros T N. exact (@normalize_elementwise T N).
  - exact normalize_b64.
  - exact normalize_b64_range.
  - exact normalize_exact.
Qed.

Lemma normalize_rescales_witness :
  (let array := mkDataArray [0] [0; 1; 2] [[2; 4; 10]] in
   let out := mkDataArray [0] [0; 1; 2] [map (fun v => (v - 2) / (10 - 2)) [2; 4; 10]] in
   normalize false array = Ok out /\
   array_reduce minimum false (concat (values out)) = Ok 0 /\
   array_reduce maximum false (concat (values out)) = Ok 1 /\
   normalize false out = Ok out)%float.
Proof.
  destruct normalize_rescales as (_ & _ & Hb64 & _).
  apply (Hb64 false (mkDataArray [0] [0; 1; 2] [[2; 4; 10]]) 2 10)%float;
    vm_compute; reflexivity.
Defined.

(** In binary64 the claim fails as it is stated.  The array [-huge, huge]
    of the two largest finite doubles is not constant, but [max - min]
    overflows to infinity: the result is [0, NaN], whose maximum is not 1
    (NaN for numpy, 0 when NaN is skipped), and normalising it again gives
    [NaN, NaN]; so it is with either kind of reduction. *)
Lemma normalize_binary64_counterexample :
  (array_reduce minimum false (concat (values wide)) = Ok (- huge)
   /\ array_reduce maximum false (concat (values wide)) = Ok huge
   /\ array_reduce minimum true (concat (values wide)) = Ok (- huge)
   /\ array_reduce maximum true (concat (values wide)) = Ok huge
   /\ (- huge <? huge) = true
   /\ is_finite (huge - - huge) = false
   /\ normalize false wide = Ok (mkDataArray [0] [0; 1] [[0; nan]])
   /\ normalize true wide = Ok (mkDataArray [0] [0; 1] [[0; nan]])
   /\ array_reduce maximum false [0; nan] = Ok nan
   /\ array_reduce maximum true [0; nan] = Ok 0
   /\ nan <> 1 /\ 0 <> 1
   /\ normalize false (mkDataArray [0] [0; 1] [[0; nan]])
      = Ok (mkDataArray [0] [0; 1] [[nan; nan]])
   /\ normalize true (mkDataArray [0] [0; 1] [[0; nan]])
      = Ok (mkDataArray [0] [0; 1] [[nan; nan]])
   /\ 0 <> nan)%float.
Proof.
  repeat split; try (vm_compute; reflexivity);
    apply float_neq; vm_compute; reflexivity.
Qed.
End NormalizeClaim.

(** ** Worked examples *)

Module ExampleRuns.
Import Examples.
Local Open Scope float_scope.

Lemma wf_grid : wf_array grid.
Proof. split; [reflexivity | repeat constructor]. Qed.

Example subset_grid_reassign :
  generate_geographical_subset 0%nat grid (-10) 10 (-10) 10 true
  = mkDataArray [-5; 0; 5] [-5; 0; 5]
      [[7; 8; 9]; [12; 13; 14]; [17; 18; 19]]%nat.
Proof. vm_compute. reflexivity. Qed.

Example subset_grid_plain :
  generate_geographical_subset 0%nat grid (-10) 10 (-10) 10 false
  = mkDataArray [-5; 0; 5] [0; 5] [[8; 9]; [13; 14]; [18; 19]]%nat.
Proof. vm_compute. reflexivity. Qed.

(** A box that contains no point of the grid gives the empty grid. *)
Example subset_grid_empty :
  generate_geographical_subset 0%nat grid 30 40 (-10) 10 true = mkDataArray [] [] [].
Proof. vm_compute. reflexivity. Qed.

(** On a condition that is not a product of a row and a column condition
    (as with two-dimensional coordinates) [where] keeps the enclosing rows
    and columns and blanks the cells in which the condition fails. *)
Example where_drop_blanks :
  where_drop 0%nat grid
    [[false; false; false; false; false];
     [false; true;  false; false; false];
     [false; false; true;  false; false];
     [false; false; false; false; false];
     [false; false; false; false; false]]
  = mkDataArray [-5; 0] [355; 0] [[7; 0]; [0; 13]]%nat.
Proof. vm_compute. reflexivity. Qed.

Example normalize_numpy :
  normalize false (mkDataArray [0] [0; 1; 2] [[2; 4; 10]])
  = Ok (mkDataArray [0] [0; 1; 2] [[0; 0.25; 1]]).
Proof. vm_compute. reflexivity. Qed.

(** xarray skips the NaN in the reductions; numpy does not. *)
Example normalize_skipna :
  normalize true (mkDataArray [0] [0; 1; 2] [[2; nan; 10]])
  = Ok (mkDataArray [0] [0; 1; 2] [[0; nan; 1]])
  /\ normalize false (mkDataArray [0] [0; 1; 2] [[2; nan; 10]])
     = Ok (mkDataArray [0] [0; 1; 2] [[nan; nan; nan]]).
Proof. split; vm_compute; reflexivity. Qed.

(** Over exact numbers a constant array raises instead. *)
Example normalize_exact_constant :
  normalize false (mkDataArray [Q2Qc 0] [Q2Qc 0; Q2Qc 1] [[Q2Qc 7; Q2Qc 7]])
  = Raise ZeroDivisionError.
Proof. vm_compute. reflexivity. Qed.

(** The reductions raise on an array without elements. *)
Example normalize_empty :
  normalize false (mkDataArray ([] : list float) [] []) = Raise ValueError.
Proof. reflexivity. Qed.

Example run_select :
  Py.select_channels_for_rgb 1%positive "Oa08_radiance" "Oa06_radiance" "Oa04_radiance"
    store0
  = (Ok (2%positive, 3%positive, 4%positive), store0).
Proof. vm_compute. reflexivity. Qed.

Example run_select_missing :
  Py.select_channels_for_rgb 1%positive "Oa08_radiance" "Oa17_radiance" "Oa04_radiance"
    store0
  = (Raise (KeyError "Oa17_radiance"), store0).
Proof. vm_compute. reflexivity. Qed.

(** With [reassign=True] the re-labelled copy is a first new object (5) and
    the subset a second one (6). *)
Example run_subset :
  (Py.generate_geographical_subset nan 2%positive (-10) 10 (-20) 20 true store0).1
  = Ok 6%positive.
Proof. vm_compute. reflexivity. Qed.

Example run_visualize :
  Render.visualize_pcolormesh Recorder.lib tt tt tt "PlateCarree" "afmhot_r" "mol m-2"
    "CO total column" 0%Z 5%Z false (-80)%Z (-60)%Z (-45)%Z (-25)%Z Recorder.start
  = (Ok Recorder.figure_co,
     Render.mkState Recorder.figure_co
       {[ "wildfire_co_300.png" := Recorder.figure_co ]}).
Proof. vm_compute. reflexivity. Qed.

(** An unknown colour map makes the library raise before anything is
    saved. *)
Example run_visualize_unknown_cmap :
  Render.visualize_pcolormesh Recorder.lib tt tt tt "PlateCarree" "no_such_map" "mol m-2"
    "CO total column" 0%Z 5%Z false (-80)%Z (-60)%Z (-45)%Z (-25)%Z Recorder.start
  = (Raise (BackendError 0),
     Render.mkState [Render.Figure 10 15 1200; Render.Axes "PlateCarree"] ∅).
Proof. vm_compute. reflexivity. Qed.
End ExampleRuns.

(** ** The theorems at concrete inputs *)

Module Witnesses.
Import Examples ExampleRuns.
Local Open Scope float_scope.

Lemma generate_geographical_subset_box_witness :
  latitude (generate_geographical_subset 0%nat grid (-10) 10 (-10) 10 true)
  = List.filter (strictly_between (-10) 10) (latitude grid).
Proof.
  exact (proj1 (proj2 (proj2
    (generate_geographical_subset_box 0%nat grid (-10) 10 (-10) 10 true wf_grid)))).
Defined.

Lemma generate_geographical_subset_idempotent_witness :
  generate_geographical_subset 0%nat
    (generate_geographical_subset 0%nat grid (-10) 10 (-10) 10 true)
    (-10) 10 (-10) 10 false
  = generate_geographical_subset 0%nat grid (-10) 10 (-10) 10 true.
Proof.
  exact (generate_geographical_subset_idempotent 0%nat grid (-10) 10 (-10) 10 true
           wf_grid).
Defined.

Lemma scenario_reassign_subset_witness :
  longitude (generate_geographical_subset 0%nat grid (-10) 10 (-10) 10 true)
  = [-5; 0; 5].
Proof.
  exact (proj1 (proj2
    (Scenario.scenario_reassign_subset 0%nat [-20; -5; 0; 5; 20] (values grid) wf_grid))).
Defined.

Lemma normalize_constant_nan_witness :
  normalize true (mkDataArray [0] [0; 1] [[7; 7]])
  = Ok (mkDataArray [0] [0; 1] [[nan; nan]]).
Proof.
  apply (B64Normalize.normalize_constant_nan true
           (mkDataArray [0] [0; 1] [[7; 7]]) 7).
  - discriminate.
  - repeat constructor.
Defined.

Lemma select_channels_for_rgb_returns_witness :
  Py.select_channels_for_rgb 1%positive "Oa08_radiance" "Oa06_radiance" "Oa04_radiance"
    store0
  = (Ok (2%positive, 3%positive, 4%positive), store0).
Proof.
  apply (select_channels_for_rgb_returns store0 1%positive bands); reflexivity.
Defined.

Lemma select_channels_for_rgb_raises_witness :
  (Py.select_channels_for_rgb 1%positive "Oa08_radiance" "Oa17_radiance" "Oa04_radiance"
     store0).2 = store0.
Proof.
  apply (select_channels_for_rgb_raises store0 1%positive bands). reflexivity.
Defined.

Lemma transformations_do_not_mutate_witness :
  exists r s',
    Py.generate_geographical_subset nan 2%positive (-10) 10 (-20) 20 true store0
    = (Ok r, s') /\
    r <> 2%positive /\
    s' !! 2%positive = Some (ObjArray red_band) /\
    s' !! r = Some (ObjArray
                      (generate_geographical_subset nan red_band (-10) 10 (-20) 20 true)).
Proof.
  apply (proj2 (proj2 (proj2 (transformations_do_not_mutate nan store0)))).
  reflexivity.
Defined.
End Witnesses.

(** ** Subsetting by two boxes *)

Lemma isel_nil_r {A} (mask : list bool) : isel mask (@nil A) = [].
Proof. destruct mask as [|[] mask]; reflexivity. Qed.

Lemma isel_isel {A B} (f g : A -> bool) (l : list A) (rows : list B) :
  isel (map f (List.filter g l)) (isel (map g l) rows)
  = isel (map (fun v => g v && f v) l) rows.
Proof.
  revert rows. induction l as [|a l IH]; intros rows; [reflexivity|].
  destruct rows as [|r rows].
  - cbn [map isel]. rewrite !isel_nil_r. reflexivity.
  - cbn [map isel List.filter]. destruct (g a); cbn [map isel andb].
    + destruct (f a); rewrite IH; reflexivity.
    + apply IH.
Qed.

Lemma map_isel {A B} (h : A -> B) (mask : list bool) (l : list A) :
  map h (isel mask l) = isel mask (map h l).
Proof.
  revert l. induction mask as [|b mask IH]; intros [|a l]; try reflexivity.
  cbn [isel map]. destruct b; cbn [map]; rewrite IH; reflexivity.
Qed.

Lemma filter_filter_andb {A} (f g : A -> bool) (l : list A) :
  List.filter f (List.filter g l) = List.filter (fun v => g v && f v) l.
Proof.
  induction l as [|a l IH]; [reflexivity|].
  cbn [List.filter]. destruct (g a); cbn [List.filter andb]; rewrite IH; reflexivity.
Qed.

Lemma existsb_filter_andb {A} (f g : A -> bool) (l : list A) :
  existsb f (List.filter g l) = existsb (fun v => g v && f v) l.
Proof.
  induction l as [|a l IH]; [reflexivity|].
  cbn [List.filter existsb]. destruct (g a); cbn [existsb andb]; rewrite IH; reflexivity.
Qed.

Lemma existsb_pointwise {A} (f f' : A -> bool) (l : list A) :
  (forall v, f v = f' v) -> existsb f l = existsb f' l.
Proof.
  intros Hf. induction l as [|a l IH]; [reflexivity|].
  cbn [existsb]. rewrite Hf, IH. reflexivity.
Qed.

Lemma existsb_andb_l {A} (f g : A -> bool) (l : list A) :
  existsb (fun v => g v && f v) l = true -> existsb g l = true.
Proof.
  rewrite !existsb_exists. intros (v & Hv & E). exists v.
  apply andb_true_iff in E as [E _]. auto.
Qed.

Section TwoBoxes.
Context {T V : Type} `{Numeric T}.
Variable na : V.

Lemma wf_selection_or_empty (f g : T -> bool) (x : DataArray T V) :
  wf_array x -> wf_array (selection f g x).
Proof.
  intros Hwf. unfold selection.
  destruct (existsb f (latitude x) && existsb g (longitude x)).
  - apply wf_selection, Hwf.
  - split; [reflexivity|constructor].
Qed.

Lemma selection_selection (f1 g1 f2 g2 : T -> bool) (x : DataArray T V) :
  selection f2 g2 (selection f1 g1 x)
  = selection (fun v => f1 v && f2 v) (fun v => g1 v && g2 v) x.
Proof.
  unfold selection at 2.
  destruct (existsb f1 (latitude x) && existsb g1 (longitude x)) eqn:E1.
  - unfold selection. cbn [latitude longitude values].
    rewrite !existsb_filter_andb, !filter_filter_andb.
    destruct (existsb (fun v => f1 v && f2 v) (latitude x)
              && existsb (fun v => g1 v && g2 v) (longitude x)); [|reflexivity].
    f_equal.
    rewrite map_isel, isel_isel. f_equal.
    rewrite map_map. apply map_ext. intros row. apply isel_isel.
  - assert (E2 : existsb (fun v => f1 v && f2 v) (latitude x)
                 && existsb (fun v => g1 v && g2 v) (longitude x) = false).
    { apply andb_false_iff. apply andb_false_iff in E1 as [E1|E1]; [left|right];
        apply not_true_is_false; intros E; apply existsb_andb_l in E; congruence. }
    unfold selection. rewrite E2. reflexivity.
Qed.

Lemma selection_ext (f f' g g' : T -> bool) (x : DataArray T V) :
  (forall v, f v = f' v) -> (forall v, g v = g' v) ->
  selection f g x = selection f' g' x.
Proof.
  intros Hf Hg. unfold selection.
  rewrite (existsb_pointwise f f' _ Hf), (existsb_pointwise g g' _ Hg).
  rewrite (List.filter_ext f f' Hf), (List.filter_ext g g' Hg).
  rewrite (map_ext f f' Hf), (map_ext g g' Hg). reflexivity.
Qed.

Lemma wf_relabel (reassign : bool) (x : DataArray T V) :
  wf_array x -> wf_array (relabel reassign x).
Proof.
  intros Hwf. destruct reassign; [|exact Hwf].
  apply (wf_assign_coords x); [assumption | apply length_map].
Qed.

Lemma generate_geographical_subset_selection (x : DataArray T V)
    (latmin latmax lonmin lonmax : T) (reassign : bool) :
  wf_array x ->
  generate_geographical_subset na x latmin latmax lonmin lonmax reassign
  = selection (strictly_between latmin latmax) (strictly_between lonmin lonmax)
      (relabel reassign x).
Proof.
  intros Hwf. rewrite (generate_geographical_subset_eq na x _ _ _ _ reassign Hwf).
  destruct reassign; reflexivity.
Qed.

(** A subset of a subset keeps what lies in both boxes. *)
Lemma generate_geographical_subset_both (x : DataArray T V)
    (latmin latmax lonmin lonmax latmin' latmax' lonmin' lonmax' : T)
    (reassign : bool) :
  wf_array x ->
  generate_geographical_subset na
    (generate_geographical_subset na x latmin latmax lonmin lonmax reassign)
    latmin' latmax' lonmin' lonmax' false
  = selection
      (fun v => strictly_between latmin latmax v && strictly_between latmin' latmax' v)
      (fun v => strictly_between lonmin lonmax v && strictly_between lonmin' lonmax' v)
      (relabel reassign x).
Proof.
  intros Hwf.
  rewrite (generate_geographical_subset_selection x _ _ _ _ reassign Hwf).
  rewrite generate_geographical_subset_selection
    by (apply wf_selection_or_empty, wf_relabel, Hwf).
  apply selection_selection.
Qed.

(** X1.  Subsetting by one box and then by another gives the same grid in
    either order: the rows and columns that lie in both boxes. *)
Theorem generate_geographical_subset_commutes (x : DataArray T V)
    (latmin latmax lonmin lonmax latmin' latmax' lonmin' lonmax' : T)
    (reassign : bool) :
  wf_array x ->
  generate_geographical_subset na
    (generate_geographical_subset na x latmin latmax lonmin lonmax reassign)
    latmin' latmax' lonmin' lonmax' false
  = generate_geographical_subset na
      (generate_geographical_subset na x latmin' latmax' lonmin' lonmax' reassign)
      latmin latmax lonmin lonmax false.
Proof.
  intros Hwf. rewrite !generate_geographical_subset_both by exact Hwf.
  apply selection_ext; intros v; apply andb_comm.
Qed.
End TwoBoxes.

(** ** Boxes in binary64 *)

Module B64Box.
Import Binary64 Binary64Facts B64Arith B64Longitude.
Local Open Scope float_scope.

Lemma strictly_between_val (lo hi v : float) :
  strictly_between lo hi v = true ->
  is_nan lo = false /\ is_nan hi = false /\ is_nan v = false /\
  (V lo < V v < V hi)%Z.
Proof.
  intros E. apply strictly_between_spec in E as [E1 E2].
  change (num_ltb lo v) with (lo <? v) in E1. change (num_ltb v hi) with (v <? hi) in E2.
  destruct (ltb_not_nan _ _ E1) as [Nlo Nv]. destruct (ltb_not_nan _ _ E2) as [_ Nhi].
  rewrite (ltb_val lo v Nlo Nv) in E1. rewrite (ltb_val v hi Nv Nhi) in E2.
  apply Z.ltb_lt in E1. apply Z.ltb_lt in E2. auto.
Qed.

Lemma strictly_between_intro (lo hi v : float) :
  is_nan lo = false -> is_nan hi = false -> is_nan v = false ->
  (V lo < V v < V hi)%Z -> strictly_between lo hi v = true.
Proof.
  intros Nlo Nhi Nv [H1 H2]. apply strictly_between_spec.
  change (num_ltb lo v) with (lo <? v). change (num_ltb v hi) with (v <? hi).
  rewrite (ltb_val lo v Nlo Nv), (ltb_val v hi Nv Nhi).
  split; apply Z.ltb_lt; assumption.
Qed.

(** Nothing lies strictly between two bounds that are not in order. *)
Lemma strictly_between_degenerate (lo hi v : float) :
  (lo <? hi) = false -> strictly_between lo hi v = false.
Proof.
  intros E. destruct (strictly_between lo hi v) eqn:Ev; [|reflexivity].
  apply strictly_between_val in Ev as (Nlo & Nhi & _ & Hv).
  rewrite (ltb_val lo hi Nlo Nhi) in E. apply Z.ltb_ge in E. lia.
Qed.

(** Inside the inner of two nested intervals is inside both. *)
Lemma strictly_between_nested (lo hi lo' hi' v : float) :
  (lo <=? lo') = true -> (hi' <=? hi) = true ->
  strictly_between lo hi v && strictly_between lo' hi' v = strictly_between lo' hi' v.
Proof.
  intros Hlo Hhi. destruct (strictly_between lo' hi' v) eqn:Ev; [|apply andb_false_r].
  rewrite andb_true_r.
  apply strictly_between_val in Ev as (Nlo' & Nhi' & Nv & Hv).
  destruct (leb_not_nan _ _ Hlo) as [Nlo _]. destruct (leb_not_nan _ _ Hhi) as [_ Nhi].
  rewrite (leb_val lo lo' Nlo Nlo') in Hlo. rewrite (leb_val hi' hi Nhi' Nhi) in Hhi.
  apply Z.leb_le in Hlo. apply Z.leb_le in Hhi.
  apply strictly_between_intro; try assumption. lia.
Qed.

Lemma existsb_false {A} (l : list A) : existsb (fun _ => false) l = false.
Proof. induction l; [reflexivity|assumption]. Qed.

Section Box.
Context {V : Type}.
Variable na : V.

(** X2.  For nested boxes, subsetting by the outer box and then by the inner
    one gives what subsetting by the inner box alone gives. *)
Theorem generate_geographical_subset_nested (x : DataArray float V)
    (latmin latmax lonmin lonmax latmin' latmax' lonmin' lonmax' : float)
    (reassign : bool) :
  wf_array x ->
  (latmin <=? latmin') = true -> (latmax' <=? latmax) = true ->
  (lonmin <=? lonmin') = true -> (lonmax' <=? lonmax) = true ->
  generate_geographical_subset na
    (generate_geographical_subset na x latmin latmax lonmin lonmax reassign)
    latmin' latmax' lonmin' lonmax' false
  = generate_geographical_subset na x latmin' latmax' lonmin' lonmax' reassign.
Proof.
  intros Hwf H1 H2 H3 H4.
  rewrite (generate_geographical_subset_both na x) by exact Hwf.
  rewrite (generate_geographical_subset_selection na x latmin' latmax' lonmin' lonmax'
             reassign Hwf).
  apply selection_ext; intros v; apply strictly_between_nested; assumption.
Qed.

(** X3.  A box whose bounds are not in order along either axis (equal,
    inverted, or a NaN bound) holds nothing: the subset is the empty grid. *)
Theorem generate_geographical_subset_degenerate (x : DataArray float V)
    (latmin latmax lonmin lonmax : float) (reassign : bool) :
  wf_array x ->
  (latmin <? latmax) = false \/ (lonmin <? lonmax) = false ->
  generate_geographical_subset na x latmin latmax lonmin lonmax reassign
  = mkDataArray [] [] [].
Proof.
  intros Hwf Hbox.
  rewrite (generate_geographical_subset_selection na x _ _ _ _ reassign Hwf).
  unfold selection.
  assert (E : existsb (strictly_between latmin latmax) (latitude (relabel reassign x))
              && existsb (strictly_between lonmin lonmax) (longitude (relabel reassign x))
              = false).
  { apply andb_false_iff. destruct Hbox as [Hb|Hb]; [left|right].
    - rewrite (existsb_pointwise _ (fun _ => false)); [apply existsb_false|].
      intros v. apply strictly_between_degenerate, Hb.
    - rewrite (existsb_pointwise _ (fun _ => false)); [apply existsb_false|].
      intros v. apply strictly_between_degenerate, Hb. }
  rewrite E. reflexivity.
Qed.

(** A longitude that is NaN or infinite is re-labelled to NaN. *)
Lemma shift_longitude_not_finite (lon : float) :
  is_finite lon = false -> is_nan (shift_longitude lon) = true.
Proof.
  intros F. rewrite shift_longitude_b64. apply B64Range.sub_nan_l.
  assert (Fs : SFfinite (Prim2SF (lon + 180)) = false).
  { rewrite is_finite_spec in F. rewrite add_spec.
    destruct (Prim2SF lon) as [s|s| |s m e]; try discriminate; reflexivity. }
  assert (Em : B64.fmod (lon + 180) 360 = nan).
  { unfold B64.fmod. rewrite Prim2SF_360.
    destruct (Prim2SF (lon + 180)) as [s|s| |s m e]; try discriminate; reflexivity. }
  rewrite remainder_360, Em. reflexivity.
Qed.

(** X4.  No coordinate of a subset is NaN, and with [reassign=True] every
    longitude of the subset is a finite number of [-180, 180], whatever the
    longitudes of the grid: those that are NaN or infinite are dropped. *)
Theorem generate_geographical_subset_numbers (x : DataArray float V)
    (latmin latmax lonmin lonmax : float) (reassign : bool) :
  wf_array x ->
  let out := generate_geographical_subset na x latmin latmax lonmin lonmax reassign in
  Forall (fun la => is_nan la = false) (latitude out) /\
  Forall (fun lo => is_nan lo = false) (longitude out) /\
  (reassign = true ->
   Forall (fun lo => is_finite lo = true /\
                     (-180 <=? lo) = true /\ (lo <=? 180) = true) (longitude out)).
Proof.
  intros Hwf out. subst out.
  rewrite (generate_geographical_subset_selection na x _ _ _ _ reassign Hwf).
  unfold selection.
  destruct (existsb _ _ && existsb _ _); cbn [latitude longitude];
    [|repeat split; intros; constructor].
  split; [|split].
  - apply List.Forall_forall. intros v Hv. apply filter_In in Hv as [_ Hv].
    apply strictly_between_val in Hv. tauto.
  - apply List.Forall_forall. intros v Hv. apply filter_In in Hv as [_ Hv].
    apply strictly_between_val in Hv. tauto.
  - intros ->. cbn [relabel assign_coords longitude].
    apply List.Forall_forall. intros v Hv. apply filter_In in Hv as [Hin Hv].
    apply in_map_iff in Hin as (lon & <- & _).
    apply strictly_between_val in Hv as (_ & _ & Nv & _).
    destruct (is_finite lon) eqn:F.
    + split; [apply (shift_longitude_val lon F)|apply (shift_longitude_bounds lon F)].
    + rewrite (shift_longitude_not_finite lon F) in Nv. discriminate.
Qed.
End Box.
End B64Box.

(** ** More on normalisation in binary64 *)

Module B64NormalizeEdges.
Import Binary64 Binary64Facts B64Arith B64Range.
Local Open Scope float_scope.

Lemma is_nan_eq (x : float) : is_nan x = true -> x = nan.
Proof.
  rewrite is_nan_spec. intros E. apply Prim2SF_inj.
  destruct (Prim2SF x); try discriminate. reflexivity.
Qed.

Lemma sub_nan_r (x : float) : x - nan = nan.
Proof.
  apply Prim2SF_inj. rewrite sub_spec. change (Prim2SF nan) with S754_nan.
  destruct (Prim2SF x) as [s|s| |s m e]; reflexivity.
Qed.

Lemma nan_div (y : float) : nan / y = nan.
Proof.
  apply Prim2SF_inj. rewrite div_spec. change (Prim2SF nan) with S754_nan. reflexivity.
Qed.

Lemma Forall2_map_same {A B} (R : A -> B -> Prop) (f : A -> B) (l : list A) :
  Forall (fun v => R v (f v)) l -> Forall2 R l (map f l).
Proof. induction 1; constructor; assumption. Qed.

Lemma Forall_rows_of_flat {A} (P : A -> Prop) (rows : list (list A)) :
  Forall P (concat rows) -> Forall (Forall P) rows.
Proof.
  induction rows as [|row rows IH]; cbn [concat]; intros Hall; [constructor|].
  apply Forall_app in Hall as [H1 H2]. constructor; [exact H1|apply IH, H2].
Qed.

Lemma Exists_flat_of_rows {A} (P : A -> Prop) (rows : list (list A)) :
  Exists (Exists P) rows -> Exists P (concat rows).
Proof.
  induction 1 as [row rows Hrow|row rows _ IH]; cbn [concat]; apply Exists_app; auto.
Qed.

(** X5.  For a binary64 array whose minimum is below its maximum and whose
    range is finite, the result of [normalize] is NaN exactly where the
    array is NaN, and every other cell of the result lies in [0, 1]. *)
Theorem normalize_unit_interval (skipna : bool) (array : DataArray float float)
    (lo hi : float) :
  array_reduce minimum skipna (concat (values array)) = Ok lo ->
  array_reduce maximum skipna (concat (values array)) = Ok hi ->
  (lo <? hi) = true ->
  is_finite (hi - lo) = true ->
  exists out,
    normalize skipna array = Ok out /\
    Forall2 (Forall2 (fun v n =>
               is_nan n = is_nan v /\
               (is_nan v = false -> (0 <=? n) = true /\ (n <=? 1) = true)))
      (values array) (values out).
Proof.
  intros Hmin Hmax Hlt Hfin.
  eexists. split; [exact (normalize_b64 skipna array lo hi Hmin Hmax)|].
  cbn [values]. set (flat := concat (values array)) in *.
  destruct (ltb_not_nan lo hi Hlt) as [Nlo Nhi].
  destruct (array_reduce_cells skipna flat lo Hmin Nlo) as [Hne Hid].
  rewrite (array_reduce_dropna minimum skipna flat Hne Hid) in Hmin.
  rewrite (array_reduce_dropna maximum skipna flat Hne Hid) in Hmax.
  destruct (reduce_rescaled lo hi Hlt Hfin (dropna flat) (dropna_not_nan flat) Hmin Hmax)
    as (Hall & _).
  assert (Hcells : Forall (fun v =>
            is_nan ((v - lo) / (hi - lo)) = is_nan v /\
            (is_nan v = false ->
             (0 <=? (v - lo) / (hi - lo)) = true /\ ((v - lo) / (hi - lo) <=? 1) = true))
            flat).
  { apply List.Forall_forall. intros v Hv. destruct (is_nan v) eqn:Ev.
    - split; [|discriminate]. apply (rescale_nan lo hi), Ev.
    - assert (Hin : In v (dropna flat)).
      { unfold dropna. apply List.filter_In. split; [exact Hv|].
        change (num_isnan v) with (is_nan v). rewrite Ev. reflexivity. }
      rewrite List.Forall_forall in Hall.
      destruct (rescale_cell lo hi Hlt Hfin v (Hall v Hin)) as (Fq & Bq & _).
      pose proof (is_finite_not_nan _ Fq) as Nq.
      change (rescale lo hi v) with ((v - lo) / (hi - lo)) in Fq, Bq, Nq.
      split; [exact Nq|]. intros _.
      rewrite (leb_val 0 _ eq_refl Nq), (leb_val _ 1 Nq eq_refl), V_zero.
      split; apply Z.leb_le; lia. }
  apply Forall_rows_of_flat in Hcells.
  apply Forall2_map_same. eapply Forall_impl; [exact Hcells|].
  intros row Hrow. apply Forall2_map_same. exact Hrow.
Qed.

(** X6.  With numpy's reductions a single NaN in the array makes every cell
    of the result NaN. *)
Theorem normalize_nan_spreads (array : DataArray float float) :
  Exists (Exists (fun v => is_nan v = true)) (values array) ->
  normalize false array
  = Ok (mkDataArray (latitude array) (longitude array)
          (map (map (fun _ => nan)) (values array))).
Proof.
  intros Hex. apply Exists_flat_of_rows in Hex.
  destruct (concat (values array)) as [|x rest] eqn:Eflat; [inversion Hex|].
  pose proof (fold_minimum_nan rest x Hex) as Hlo. apply is_nan_eq in Hlo.
  rewrite (normalize_b64 false array nan (fold_left maximum rest x)).
  - f_equal. f_equal. apply map_ext. intros row. apply map_ext. intros v.
    rewrite sub_nan_r. apply nan_div.
  - rewrite Eflat. cbn [array_reduce reduce]. f_equal. exact Hlo.
  - rewrite Eflat. reflexivity.
Qed.

(** X7.  On binary64 [normalize] raises only for an array without a cell,
    and then it is the [ValueError] of the reduction; any array with a cell
    is normalised to an array of the same shape and labels. *)
Theorem normalize_raises_on_empty_only (skipna : bool) (array : DataArray float float) :
  match normalize skipna array with
  | Ok out =>
      concat (values array) <> [] /\
      latitude out = latitude array /\ longitude out = longitude array /\
      Forall2 (fun row row' => length row = length row') (values array) (values out)
  | Raise e => e = ValueError /\ concat (values array) = []
  end.
Proof.
  destruct (concat (values array)) as [|x rest] eqn:Eflat.
  - unfold normalize. rewrite Eflat.
    destruct skipna; cbn; split; reflexivity.
  - assert (Hred : forall op, exists r, array_reduce op skipna (x :: rest) = Ok r).
    { intros op. unfold array_reduce. destruct skipna; [|eexists; reflexivity].
      destruct (dropna (x :: rest)); eexists; reflexivity. }
    destruct (Hred minimum) as [lo Hlo]. destruct (Hred maximum) as [hi Hhi].
    rewrite <- Eflat in Hlo, Hhi.
    rewrite (normalize_b64 skipna array lo hi Hlo Hhi). cbn [latitude longitude values].
    split; [discriminate|]. split; [reflexivity|]. split; [reflexivity|].
    apply Forall2_map_same. apply List.Forall_forall. intros row _.
    symmetry. apply length_map.
Qed.
End B64NormalizeEdges.

Module RenderEdges.
Import Render.
Section WithBackend.
Context {Proj Data Num Cmap Canvas Image : Type}.
Variable lib : @backend Proj Data Num Cmap Canvas Image.

Local Abbreviation state := (@state Canvas Image).

(** A computation that, when it returns, returns the current figure. *)
Local Abbreviation returns_canvas m :=
  (forall st : state, match m st with
                      | (Ok cv, st') => cv = canvas st'
                      | (Raise _, _) => True
                      end).

Lemma returns_canvas_bind {A} (m : M state A) (k : A -> M state Canvas) :
  (forall a, returns_canvas (k a)) -> returns_canvas (m ≫= k).
Proof.
  intros Hk st. unfold mbind, M_bind.
  destruct (m st) as [[a|e] st1]; [apply Hk | exact I].
Qed.

Lemma visualize_pcolormesh_returns_canvas (data_array longitude latitude : Data)
    (projection : Proj) (color_scale unit long_name : string) (vmin vmax : Num)
    (set_global : bool) (lonmin lonmax latmin latmax : Num) :
  returns_canvas (visualize_pcolormesh lib data_array longitude latitude projection
                    color_scale unit long_name vmin vmax set_global
                    lonmin lonmax latmin latmax).
Proof.
  unfold visualize_pcolormesh.
  repeat (apply returns_canvas_bind; intros ?).
  intros st. reflexivity.
Qed.

(** X8.  The figure a call of [visualize_pcolormesh] returns is the one it
    has saved: on return the file "wildfire_co_300.png" holds the encoding
    of the returned figure. *)
Theorem visualize_pcolormesh_returns_saved (a : arguments) (st : state) :
  match invoke lib a st with
  | (Ok fig, st') =>
      exists img, encode lib fig = Ok img /\ files st' !! output_path = Some img
  | (Raise _, _) => True
  end.
Proof.
  unfold invoke.
  pose proof (RenderFacts.visualize_pcolormesh_saves lib (arg_data_array a)
                (arg_longitude a) (arg_latitude a) (arg_projection a) (arg_color_scale a)
                (arg_unit a) (arg_long_name a) (arg_vmin a) (arg_vmax a) (arg_set_global a)
                (arg_lonmin a) (arg_lonmax a) (arg_latmin a) (arg_latmax a) st) as Hs.
  pose proof (visualize_pcolormesh_returns_canvas (arg_data_array a)
                (arg_longitude a) (arg_latitude a) (arg_projection a) (arg_color_scale a)
                (arg_unit a) (arg_long_name a) (arg_vmin a) (arg_vmax a) (arg_set_global a)
                (arg_lonmin a) (arg_lonmax a) (arg_latmin a) (arg_latmax a) st) as Hr.
  destruct (visualize_pcolormesh lib _ _ _ _ _ _ _ _ _ _ _ _ _ _ st)
    as [[fig|e] st']; [|exact I].
  destruct Hs as (img & Himg & Hfiles). exists img. subst fig.
  split; [exact Himg|]. rewrite Hfiles. apply lookup_insert_eq.
Qed.

(** X9.  A colour scale the library does not know makes [visualize_pcolormesh]
    raise before anything is drawn on the axes: the call raises, no file is
    written, and when the figure and the axes could be created the error is
    the one of the colour map lookup. *)
Theorem visualize_pcolormesh_unknown_cmap (a : arguments) (st : state) (e : exn) :
  get_cmap lib (arg_color_scale a) = Raise e ->
  exists e' st',
    invoke lib a st = (Raise e', st') /\
    files st' = files st /\
    (forall cv1 cv2,
       perform lib (Figure 10 15 1200) (canvas st) = Ok cv1 ->
       perform lib (Axes (arg_projection a)) cv1 = Ok cv2 ->
       e' = e /\ canvas st' = cv2).
Proof.
  intros Hc. unfold invoke, visualize_pcolormesh.
  unfold mbind, M_bind, plt at 1 2.
  destruct (perform lib (Figure 10 15 1200) (canvas st)) as [cv1|e1] eqn:E1; cbn [canvas files].
  2: { exists e1, st. split; [reflexivity|]. split; [reflexivity|]. intros ? ? [=]. }
  destruct (perform lib (Axes (arg_projection a)) cv1) as [cv2|e2] eqn:E2; cbn [canvas files].
  2: { eexists e2, _. split; [reflexivity|]. split; [reflexivity|].
       intros ? ? [= <-]. rewrite E2. intros [=]. }
  rewrite Hc. unfold lift.
  eexists e, _. split; [reflexivity|]. split; [reflexivity|].
  intros ? ? [= <-]. rewrite E2. intros [= <-]. split; reflexivity.
Qed.
End WithBackend.
End RenderEdges.

Module RenderRGBFacts.
Import RenderRGB.
Local Open Scope float_scope.

Lemma mul_nan_r (v : float) : v * nan = nan.
Proof.
  apply Prim2SF_inj. rewrite mul_spec. change (Prim2SF nan) with S754_nan.
  destruct (Prim2SF v) as [s|s| |s m e]; reflexivity.
Qed.

Lemma times_nan_shape (array array' : list (list float)) :
  Forall2 (fun row row' => length row = length row') array array' ->
  times_nan array = times_nan array'.
Proof.
  unfold times_nan. induction 1 as [|row row' rows rows' Hlen _ IH]; [reflexivity|].
  cbn [map]. f_equal; [|exact IH]. clear IH.
  revert row' Hlen. induction row as [|v row IHr]; intros [|v' row'] Hlen;
    try discriminate; [reflexivity|].
  cbn [map]. rewrite !mul_nan_r. f_equal. apply IHr.
  cbn [length] in Hlen. congruence.
Qed.

Section WithBackend.
Context {Proj Data Color Canvas Image : Type}.
Variable lib : @backend Proj Data Color Canvas.

Lemma keeps_files_plt_rgb (c : call) :
  Render.keeps_files (plt (Image := Image) lib c).
Proof.
  intros st. unfold plt. destruct (perform lib c (Render.canvas st)); reflexivity.
Qed.

(** X10.  [visualize_s3_pcolormesh] uses [array] only for its dimensions:
    the mesh it draws is NaN in every cell, so two arrays of the same shape
    give the same plot, whatever their values.  It writes no file. *)
Theorem visualize_s3_pcolormesh_shape_only (color_array : Color)
    (array array' : list (list float)) (latitude longitude : Data) (title : string)
    (st : @Render.state Canvas Image) :
  Forall2 (fun row row' => length row = length row') array array' ->
  visualize_s3_pcolormesh lib color_array array latitude longitude title st
  = visualize_s3_pcolormesh lib color_array array' latitude longitude title st /\
  Render.files
    (visualize_s3_pcolormesh lib color_array array latitude longitude title st).2
  = Render.files st.
Proof.
  intros Hshape. split.
  - unfold visualize_s3_pcolormesh. rewrite (times_nan_shape array array' Hshape).
    reflexivity.
  - revert st.
    change (Render.keeps_files
              (visualize_s3_pcolormesh (Image := Image) lib color_array array
                 latitude longitude title)).
    unfold visualize_s3_pcolormesh.
    repeat (apply RenderFacts.keeps_files_bind; [apply keeps_files_plt_rgb | intros ?]).
    apply keeps_files_plt_rgb.
Qed.
End WithBackend.
End RenderRGBFacts.

(** ** A box around the whole grid *)

Section WholeGrid.
Context {T V : Type} `{Numeric T}.
Variable na : V.

Lemma existsb_all_true {A} (f : A -> bool) (l : list A) :
  l <> [] -> Forall (fun a => f a = true) l -> existsb f l = true.
Proof.
  intros Hne Hall. destruct Hall as [|a l Ha _]; [congruence|].
  cbn [existsb]. rewrite Ha. reflexivity.
Qed.

Lemma filter_all_true {A} (f : A -> bool) (l : list A) :
  Forall (fun a => f a = true) l -> List.filter f l = l.
Proof.
  induction 1 as [|a l Ha _ IH]; [reflexivity|].
  cbn [List.filter]. rewrite Ha, IH. reflexivity.
Qed.

(** X11.  A box that has every latitude and every longitude of a grid
    strictly inside gives the grid back unchanged. *)
Theorem generate_geographical_subset_whole (x : DataArray T V)
    (latmin latmax lonmin lonmax : T) :
  wf_array x ->
  latitude x <> [] -> longitude x <> [] ->
  Forall (fun la => strictly_between latmin latmax la = true) (latitude x) ->
  Forall (fun lo => strictly_between lonmin lonmax lo = true) (longitude x) ->
  generate_geographical_subset na x latmin latmax lonmin lonmax false = x.
Proof.
  intros Hwf Nlat Nlon Hlat Hlon.
  rewrite (generate_geographical_subset_eq na x _ _ _ _ false Hwf). cbv zeta.
  rewrite (existsb_all_true _ _ Nlat Hlat), (existsb_all_true _ _ Nlon Hlon).
  cbn [andb]. rewrite (filter_all_true _ _ Hlat), (filter_all_true _ _ Hlon).
  destruct Hwf as [Hlen Hrows]. destruct x as [lats lons vals].
  cbn [latitude longitude values] in *. f_equal.
  assert (Hcols : map (isel (map (strictly_between lonmin lonmax) lons)) vals = vals).
  { rewrite <- (map_id vals) at 2. apply map_ext_Forall.
    eapply Forall_impl; [exact Hrows|]. intros row Hrow. cbn beta in Hrow.
    apply isel_true_mask; [|rewrite length_map; congruence].
    clear -Hlon. induction Hlon; cbn [map]; constructor; assumption. }
  rewrite Hcols. apply isel_true_mask; [|rewrite length_map; congruence].
  clear -Hlat. induction Hlat; cbn [map]; constructor; assumption.
Qed.
End WholeGrid.

(** ** Division in binary64 *)

Module Binary64QuotientFacts.
Import Binary64 Binary64Facts Binary64Quotient.

Lemma rnm_bounds (N M : Z) : N / M <= rnm N M <= N / M + 1.
Proof.
  unfold rnm. destruct (2 * (N mod M) ?= M); [destruct (Z.even _)| |]; lia.
Qed.

Lemma rnm_mono (N1 N2 M : Z) : 0 < M -> N1 <= N2 -> rnm N1 M <= rnm N2 M.
Proof.
  intros HP HN.
  pose proof (Z.div_le_mono N1 N2 M HP HN) as Hq.
  destruct (Z.eq_dec (N1 / M) (N2 / M)) as [E|NE].
  - pose proof (Z.div_mod N1 M ltac:(lia)) as D1.
    pose proof (Z.div_mod N2 M ltac:(lia)) as D2.
    assert (Hr : N1 mod M <= N2 mod M) by (rewrite E in D1; lia).
    unfold rnm. rewrite E.
    destruct (Z.compare_spec (2 * (N1 mod M)) M),
             (Z.compare_spec (2 * (N2 mod M)) M);
      try destruct (Z.even _); lia.
  - pose proof (rnm_bounds N1 M). pose proof (rnm_bounds N2 M). lia.
Qed.

Lemma rnm_scale (N M c : Z) : 0 < M -> 0 < c -> rnm (N * c) (M * c) = rnm N M.
Proof.
  intros HM Hc. unfold rnm.
  rewrite Z.div_mul_cancel_r by lia.
  rewrite Z.mul_mod_distr_r by lia.
  replace (2 * (N mod M * c)) with (2 * (N mod M) * c) by ring.
  rewrite <- Zmult_compare_compat_r by lia. reflexivity.
Qed.

(** The rounded quotient depends on the ratio only. *)
Lemma rnm_ratio (N M N' M' : Z) :
  0 < M -> 0 < M' -> N * M' = N' * M -> rnm N M = rnm N' M'.
Proof.
  intros HM HM' E.
  rewrite <- (rnm_scale N M M' HM HM'), <- (rnm_scale N' M' M HM' HM).
  rewrite E, (Z.mul_comm M M'). reflexivity.
Qed.

Lemma rnm_pow2 (N n : Z) : rnm N (2 ^ n) = rn N n.
Proof. reflexivity. Qed.

Lemma rnm_0 (M : Z) : 0 < M -> rnm 0 M = 0.
Proof.
  intros HM. unfold rnm. rewrite Z.mod_0_l, Z.div_0_l by lia.
  destruct (Z.compare_spec (2 * 0) M); lia.
Qed.

Lemma div_pow2_div (N D n : Z) : 0 < D -> 0 <= n -> N / (D * 2 ^ n) = N / D / 2 ^ n.
Proof.
  intros HD Hn. pose proof (pow2_pos n Hn). rewrite Z.div_div by lia. reflexivity.
Qed.

Lemma rndq_lower (N D : Z) : 0 < D -> 0 < N / D -> 2 ^ Z.log2 (N / D) <= rndq N D.
Proof.
  intros HD HW. unfold rndq. set (W := N / D) in *. set (n := ulp_exp W).
  assert (Hn : 0 <= n) by apply ulp_exp_nonneg.
  pose proof (pow2_pos n Hn) as HP.
  pose proof (Z.log2_spec W HW) as [HL _].
  pose proof (Z.log2_nonneg W) as HL0.
  pose proof (rnm_bounds N (D * 2 ^ n)) as [Hq _].
  rewrite (div_pow2_div N D n HD Hn) in Hq. fold W in Hq.
  assert (Hle : n <= Z.log2 W) by (unfold n, ulp_exp; lia).
  replace (Z.log2 W) with ((Z.log2 W - n) + n) in HL |- * by lia.
  rewrite Z.pow_add_r in HL |- * by lia.
  apply Z.mul_le_mono_nonneg_r; [lia|].
  etransitivity; [|exact Hq].
  apply Z.div_le_lower_bound; lia.
Qed.

Lemma rndq_upper (N D : Z) :
  0 < D -> 0 <= N / D -> rndq N D <= 2 ^ (ulp_exp (N / D) + 53).
Proof.
  intros HD HW. unfold rndq. set (W := N / D) in *. set (n := ulp_exp W).
  assert (Hn : 0 <= n) by apply ulp_exp_nonneg.
  pose proof (pow2_pos n Hn) as HP.
  rewrite Z.pow_add_r by lia. rewrite (Z.mul_comm (2 ^ n)).
  apply Z.mul_le_mono_nonneg_r; [lia|].
  pose proof (rnm_bounds N (D * 2 ^ n)) as [_ Hq].
  rewrite (div_pow2_div N D n HD Hn) in Hq. fold W in Hq.
  assert (W < 2 ^ 53 * 2 ^ n).
  { destruct (Z.eq_dec W 0) as [->|NZ]; [lia|].
    pose proof (Z.log2_spec W ltac:(lia)) as [_ HU].
    eapply Z.lt_le_trans; [exact HU|].
    rewrite <- Z.pow_add_r by lia.
    apply Z.pow_le_mono_r; [lia|]. unfold n, ulp_exp. lia. }
  assert (W / 2 ^ n < 2 ^ 53) by (apply Z.div_lt_upper_bound; lia).
  lia.
Qed.

(** Rounding a quotient is monotone in the numerator. *)
Lemma rndq_mono (N1 N2 D : Z) :
  0 < D -> 0 <= N1 -> N1 <= N2 -> rndq N1 D <= rndq N2 D.
Proof.
  intros HD H1 H12.
  pose proof (Z.div_le_mono N1 N2 D HD H12) as HW.
  pose proof (Z.div_pos N1 D H1 HD) as HW1.
  pose proof (ulp_exp_mono _ _ HW) as Hn.
  destruct (Z.eq_dec (ulp_exp (N1 / D)) (ulp_exp (N2 / D))) as [E|NE].
  - unfold rndq. rewrite E.
    pose proof (pow2_pos _ (ulp_exp_nonneg (N2 / D))).
    apply Z.mul_le_mono_nonneg_r; [lia|].
    apply rnm_mono; [lia|exact H12].
  - pose proof (rndq_upper N1 D HD HW1) as HU.
    pose proof (ulp_exp_nonneg (N1 / D)).
    assert (HW2 : 0 < N2 / D).
    { destruct (Z.eq_dec (N2 / D) 0) as [E0|]; [|lia].
      assert (N1 / D = 0) by lia. congruence. }
    pose proof (rndq_lower N2 D HD HW2) as HL.
    assert (ulp_exp (N1 / D) + 53 <= Z.log2 (N2 / D)) by (unfold ulp_exp in *; lia).
    pose proof (Z.pow_le_mono_r 2 _ _ ltac:(lia) H0). lia.
Qed.
End Binary64QuotientFacts.

Module Binary64DivFacts.
Import Binary64 Binary64Facts Binary64Quotient Binary64QuotientFacts.

Lemma new_location_spec (D r : Z) :
  new_location D r = if r =? 0 then loc_Exact else loc_Inexact (2 * r ?= D).
Proof.
  unfold new_location, new_location_even, new_location_odd.
  change (IntDef.Z.even) with Z.even. change (IntDef.Z.eqb) with Z.eqb.
  change (IntDef.Z.compare) with Z.compare. change (IntDef.Z.mul) with Z.mul.
  change (IntDef.Z.add) with Z.add.
  destruct (Z.even D) eqn:Ev; [reflexivity|].
  destruct (r =? 0); [reflexivity|]. f_equal.
  assert (Hodd : Z.odd D = true) by (rewrite <- Z.negb_even, Ev; reflexivity).
  apply Z.odd_spec in Hodd as [k Hk].
  destruct (Z.compare_spec (2 * r + 1) D), (Z.compare_spec (2 * r) D); try reflexivity; lia.
Qed.

(** [p] right shifts of any record. *)
Lemma shr_iter_sticky (N : Z) (r0 s0 : bool) (p : positive) :
  0 <= N ->
  SpecFloat.iter_pos shr_1 p {| shr_m := N; shr_r := r0; shr_s := s0 |}
  = {| shr_m := N / 2 ^ Z.pos p;
       shr_r := 2 ^ (Z.pos p - 1) <=? N mod 2 ^ Z.pos p;
       shr_s := negb (N mod 2 ^ (Z.pos p - 1) =? 0) || (r0 || s0) |}.
Proof.
  intros HN. rewrite iter_pos_iter.
  induction p as [|p IH] using Pos.peano_ind.
  - cbn [Pos.iter]. rewrite shr_1_spec by exact HN.
    change (2 ^ (1 - 1)) with 1. rewrite Z.mod_1_r. change (2 ^ 1) with 2.
    rewrite Zmod_odd. f_equal. destruct (Z.odd N); reflexivity.
  - rewrite Pos.iter_succ, IH.
    assert (Hq : 0 <= N / 2 ^ Z.pos p).
    { apply Z.div_pos; [exact HN|]. apply pow2_pos. lia. }
    rewrite shr_1_spec by exact Hq.
    rewrite Pos2Z.inj_succ. unfold Z.succ.
    replace (Z.pos p + 1 - 1) with (Z.pos p) by lia.
    pose proof (pow2_pos (Z.pos p) ltac:(lia)) as HP.
    pose proof (pow2_pos (Z.pos p - 1) ltac:(lia)) as HH.
    pose proof (Z.mod_pos_bound N (2 ^ Z.pos p) HP) as HB.
    pose proof (Z.mod_pos_bound N (2 ^ (Z.pos p - 1)) HH) as HB'.
    f_equal.
    + rewrite Z.div_div by lia. f_equal.
      rewrite Z.pow_add_r, Z.pow_1_r by lia. reflexivity.
    + rewrite (mod_pow2_succ N (Z.pos p)) by lia.
      destruct (Z.odd (N / 2 ^ Z.pos p)); lia.
    + pose proof (mod_pow2_succ N (Z.pos p - 1) ltac:(lia)) as E.
      replace (Z.pos p - 1 + 1) with (Z.pos p) in E by lia.
      destruct r0, s0; rewrite ?orb_true_r, ?orb_false_r; try reflexivity;
        destruct (Z.odd (N / 2 ^ (Z.pos p - 1))); lia.
Qed.

Lemma quotient_div (q r D M : Z) :
  0 < D -> 0 < M -> 0 <= r < D ->
  (q * D + r) / (D * M) = q / M /\ (q * D + r) mod (D * M) = (q mod M) * D + r.
Proof.
  intros HD HM Hr.
  assert (E1 : (q * D + r) / (D * M) = q / M).
  { rewrite <- Z.div_div by lia. f_equal.
    rewrite Z.div_add_l by lia. rewrite (Z.div_small r D) by lia. lia. }
  split; [exact E1|].
  rewrite Z.mod_eq by lia. rewrite E1.
  rewrite (Z.mod_eq q M) by lia. ring.
Qed.

(** Rounding the quotient and the location division leaves, with no shift. *)
Lemma round_quotient_0 (q r D : Z) :
  0 < D -> 0 <= r < D ->
  round_nearest_even q (new_location D r) = rnm (q * D + r) D.
Proof.
  intros HD Hr. rewrite new_location_spec. unfold rnm.
  rewrite Z.div_add_l, (Z.div_small r D), Z.add_0_r by lia.
  rewrite Z.add_comm, Z.mod_add, (Z.mod_small r D) by lia.
  destruct (Z.eqb_spec r 0) as [->|NZ].
  - cbn [round_nearest_even]. destruct (Z.compare_spec (2 * 0) D); lia.
  - reflexivity.
Qed.

(** The same after [p] right shifts. *)
Lemma round_quotient_shr (q r D : Z) (p : positive) :
  0 <= q -> 0 < D -> 0 <= r < D ->
  let rec := SpecFloat.iter_pos shr_1 p (shr_record_of_loc q (new_location D r)) in
  round_nearest_even (shr_m rec) (loc_of_shr_record rec)
  = rnm (q * D + r) (D * 2 ^ Z.pos p).
Proof.
  intros Hq HD Hr rec.
  pose proof (pow2_pos (Z.pos p) ltac:(lia)) as HP.
  pose proof (pow2_pos (Z.pos p - 1) ltac:(lia)) as HH.
  assert (EP : 2 ^ Z.pos p = 2 * 2 ^ (Z.pos p - 1)).
  { rewrite <- Z.pow_succ_r by lia. f_equal. lia. }
  destruct (quotient_div q r D (2 ^ Z.pos p) HD HP Hr) as [Ed Em].
  unfold rnm. rewrite Ed, Em.
  pose proof (mod_pow2_succ q (Z.pos p - 1) ltac:(lia)) as E.
  replace (Z.pos p - 1 + 1) with (Z.pos p) in E by lia.
  pose proof (Z.mod_pos_bound q (2 ^ (Z.pos p - 1)) HH) as HB'.
  set (low := q mod 2 ^ (Z.pos p - 1)) in *.
  set (H := 2 ^ (Z.pos p - 1)) in *.
  set (R := q mod 2 ^ Z.pos p) in *.
  assert (Hrec : exists r0 s0,
             shr_record_of_loc q (new_location D r)
             = {| shr_m := q; shr_r := r0; shr_s := s0 |} /\
             r0 || s0 = negb (r =? 0)).
  { rewrite new_location_spec. destruct (Z.eqb_spec r 0) as [->|NZ].
    - exists false, false. split; reflexivity.
    - destruct (2 * r ?= D); cbn [shr_record_of_loc negb];
        eexists _, _; (split; [reflexivity|reflexivity]). }
  destruct Hrec as (r0 & s0 & Hrec & Hrs).
  unfold rec. rewrite Hrec, shr_iter_sticky by exact Hq. rewrite Hrs.
  cbn [shr_m]. fold H. fold low. fold R.
  unfold loc_of_shr_record, round_nearest_even.
  assert (HDL : 0 <= low * D) by nia.
  assert (HDL0 : low = 0 -> low * D = 0) by (intros ->; reflexivity).
  assert (HDL1 : 0 < low -> D <= low * D) by nia.
  assert (HDH : 0 < H * D) by nia.
  destruct (Z.odd (q / H)).
  - assert (ER : R * D = H * D + low * D) by (rewrite E; ring).
    assert (EC : 2 * (R * D + r) - D * 2 ^ Z.pos p = 2 * (low * D + r)).
    { rewrite EP, ER. ring. }
    destruct (Z.leb_spec H R) as [L|L]; [|lia].
    destruct (Z.eqb_spec low 0) as [Z0|Z0], (Z.eqb_spec r 0) as [R0|R0]; cbn [negb orb];
      destruct (Z.compare_spec (2 * (R * D + r)) (D * 2 ^ Z.pos p)) as [C|C|C];
      try reflexivity; exfalso; lia.
  - assert (ER : R * D = low * D) by (rewrite E; ring).
    assert (EC : D * 2 ^ Z.pos p - 2 * (R * D + r) = 2 * (H * D - low * D - r)).
    { rewrite EP, ER. ring. }
    assert (low * D + r < H * D) by nia.
    destruct (Z.leb_spec H R) as [L|L]; [lia|].
    destruct (Z.compare_spec (2 * (R * D + r)) (D * 2 ^ Z.pos p)) as [C|C|C];
      try lia.
    destruct (negb (low =? 0) || negb (r =? 0)); reflexivity.
Qed.

(** [binary_round_aux] on a quotient [q] with remainder [r] by [D], in closed
    form. *)
Lemma binary_round_aux_quotient (s : bool) (q r D e : Z) :
  0 <= q -> 0 < D -> 0 <= r < D ->
  binary_round_aux prec emax s q e (new_location D r) =
  let m1 := rnm (q * D + r) (D * 2 ^ shift_of q e) in
  let e1 := e + shift_of q e in
  let m2 := m1 / 2 ^ shift_of m1 e1 in
  let e2 := e1 + shift_of m1 e1 in
  match m2 with
  | 0 => S754_zero s
  | Z.pos p => if e2 <=? emax - prec then S754_finite s p e2 else S754_infinity s
  | Z.neg _ => S754_nan
  end.
Proof.
  intros Hq HD Hr. unfold binary_round_aux.
  assert (H1 : let '(rec, e') := shr_fexp prec emax q e (new_location D r) in
               round_nearest_even (shr_m rec) (loc_of_shr_record rec)
               = rnm (q * D + r) (D * 2 ^ shift_of q e) /\
               e' = e + shift_of q e).
  { unfold shr_fexp, shr, shift_of.
    assert (Hid : forall l, loc_of_shr_record (shr_record_of_loc q l) = l /\
                            shr_m (shr_record_of_loc q l) = q)
      by (intros [|[]]; split; reflexivity).
    destruct (fexp prec emax (Zdigits2 q + e) - e) as [|p|p] eqn:E.
    - destruct (Hid (new_location D r)) as [-> ->].
      change (Z.max 0 0) with 0. rewrite Z.mul_1_r, Z.add_0_r.
      split; [apply round_quotient_0; assumption|reflexivity].
    - rewrite (round_quotient_shr q r D p Hq HD Hr). rewrite Z.max_l by lia.
      split; reflexivity.
    - destruct (Hid (new_location D r)) as [-> ->].
      rewrite Z.max_r by lia. rewrite Z.mul_1_r, Z.add_0_r.
      split; [apply round_quotient_0; assumption|reflexivity]. }
  destruct (shr_fexp prec emax q e (new_location D r)) as [rec1 e1].
  destruct H1 as [H1 ->]. rewrite H1.
  set (m1 := rnm (q * D + r) (D * 2 ^ shift_of q e)).
  assert (Hm1 : 0 <= m1).
  { pose proof (rnm_bounds (q * D + r) (D * 2 ^ shift_of q e)) as [L _].
    pose proof (pow2_pos _ (shift_of_nonneg q e)).
    assert (0 <= (q * D + r) / (D * 2 ^ shift_of q e)) by (apply Z.div_pos; nia).
    unfold m1. lia. }
  pose proof (shr_fexp_m m1 (e + shift_of q e) loc_Exact Hm1) as [H2 H3].
  destruct (shr_fexp prec emax m1 (e + shift_of q e) loc_Exact) as [rec2 e2].
  cbn [fst snd] in H2, H3. rewrite H2, H3. reflexivity.
Qed.

(** The second half of [binary_round_aux]: a significand of at most 53 bits
    (or [2 ^ 53] itself) at a canonical exponent becomes a valid number of
    the same value, or overflows. *)
Lemma round_finish (s : bool) (m1 e1 : Z) :
  0 <= m1 <= 2 ^ 53 -> -1074 <= e1 -> (-1074 < e1 -> 2 ^ 52 <= m1) ->
  match (let m2 := m1 / 2 ^ shift_of m1 e1 in
         let e2 := e1 + shift_of m1 e1 in
         match m2 with
         | 0 => S754_zero s
         | Z.pos p => if e2 <=? emax - prec then S754_finite s p e2 else S754_infinity s
         | Z.neg _ => S754_nan
         end) with
  | S754_zero s' => s' = s /\ m1 = 0
  | S754_finite s' m' e' =>
      s' = s /\ valid_binary (S754_finite s' m' e') = true /\
      Z.pos m' * 2 ^ (e' + 1074) = m1 * 2 ^ (e1 + 1074)
  | S754_infinity s' => s' = s /\ 2 ^ 2098 <= m1 * 2 ^ (e1 + 1074)
  | S754_nan => False
  end.
Proof.
  intros Hm1 He1 Hlow. cbv zeta.
  destruct (Z.eq_dec m1 0) as [->|NZ].
  - assert (E0 : shift_of 0 e1 = 0).
    { unfold shift_of. rewrite fexp_eq. cbn [Zdigits2]. lia. }
    rewrite E0. cbn. split; reflexivity.
  - assert (Hpos : 0 < m1) by lia.
    assert (Hsh2 : shift_of m1 e1 = Z.max (Z.log2 m1 + 1 - 53) 0).
    { rewrite shift_of_eq by exact Hpos. lia. }
    rewrite Hsh2.
    destruct (Z.eq_dec m1 (2 ^ 53)) as [E53|N53].
    + rewrite E53. change (Z.log2 (2 ^ 53)) with 53.
      change (Z.max (53 + 1 - 53) 0) with 1.
      change (2 ^ 53 / 2 ^ 1) with (Z.pos 4503599627370496).
      cbv iota beta.
      assert (E2 : 2 ^ 52 * 2 ^ (e1 + 1 + 1074) = 2 ^ 53 * 2 ^ (e1 + 1074)).
      { replace (e1 + 1 + 1074) with (1 + (e1 + 1074)) by lia.
        rewrite Z.pow_add_r by lia. change (2 ^ 53) with (2 ^ 52 * 2 ^ 1). ring. }
      destruct (Z.leb_spec (e1 + 1) (emax - prec)) as [L|L].
      * split; [reflexivity|]. split; [|exact E2].
        change (emax - prec) with 971 in L.
        apply valid_finite_intro; change (Z.log2 (Z.pos 4503599627370496)) with 52; lia.
      * split; [reflexivity|]. rewrite <- E2.
        change (emax - prec) with 971 in L.
        change (2 ^ 2098) with (2 ^ 52 * 2 ^ 2046).
        apply Z.mul_le_mono_nonneg_l; [lia|]. apply Z.pow_le_mono_r; lia.
    + assert (Hl1 : Z.log2 m1 < 53) by (apply Z.log2_lt_pow2; lia).
      rewrite Z.max_r by lia. rewrite Z.div_1_r, Z.add_0_r.
      destruct m1 as [|p1|p1] eqn:Em1; try lia.
      destruct (Z.leb_spec e1 (emax - prec)) as [L|L].
      * split; [reflexivity|]. split; [|reflexivity].
        change (emax - prec) with 971 in L.
        apply valid_finite_intro; [exact Hl1| |lia].
        intros Ht. apply Z.log2_le_pow2; [lia|]. exact (Hlow Ht).
      * split; [reflexivity|].
        change (emax - prec) with 971 in L.
        change (2 ^ 2098) with (2 ^ 52 * 2 ^ 2046).
        specialize (Hlow ltac:(lia)).
        pose proof (Z.pow_le_mono_r 2 2046 (e1 + 1074) ltac:(lia) ltac:(lia)).
        apply Z.mul_le_mono_nonneg; lia.
Qed.

(** The significand of a rounded quotient. *)
Lemma rndq_mantissa (N D : Z) :
  0 < D -> 0 <= N ->
  let k := ulp_exp (N / D) in
  0 <= rnm N (D * 2 ^ k) <= 2 ^ 53 /\ (0 < k -> 2 ^ 52 <= rnm N (D * 2 ^ k)).
Proof.
  intros HD HN k.
  pose proof (Z.div_pos N D HN HD) as HW. set (W := N / D) in *.
  assert (Hk : 0 <= k) by apply ulp_exp_nonneg.
  pose proof (pow2_pos k Hk) as HP.
  pose proof (rnm_bounds N (D * 2 ^ k)) as HB.
  rewrite (div_pow2_div N D k HD Hk) in HB. fold W in HB.
  pose proof (Z.div_pos W (2 ^ k) HW HP) as Hq0.
  assert (Hup : W / 2 ^ k < 2 ^ 53).
  { apply Z.div_lt_upper_bound; [exact HP|].
    destruct (Z.eq_dec W 0) as [->|NZ]; [lia|].
    pose proof (Z.log2_spec W ltac:(lia)) as [_ HU].
    eapply Z.lt_le_trans; [exact HU|].
    rewrite (Z.mul_comm (2 ^ k)), <- Z.pow_add_r by lia.
    apply Z.pow_le_mono_r; [lia|]. unfold k, ulp_exp. lia. }
  split; [lia|]. intros Hk0.
  assert (HWp : 0 < W).
  { destruct (Z.eq_dec W 0) as [E0|]; [|lia].
    exfalso. unfold k in Hk0. rewrite E0 in Hk0. change (ulp_exp 0) with 0 in Hk0. lia. }
  pose proof (Z.log2_spec W HWp) as [HL _].
  assert (El : Z.log2 W = k + 52) by (unfold k, ulp_exp in *; lia).
  assert (2 ^ 52 <= W / 2 ^ k).
  { apply Z.div_le_lower_bound; [exact HP|].
    rewrite <- Z.pow_add_r by lia. rewrite El in HL.
    replace (k + 52) with (52 + k)%Z in HL by lia. rewrite (Z.add_comm k 52). exact HL. }
  lia.
Qed.

Lemma log2_between (W q j : Z) :
  0 < q -> 0 <= j -> q * 2 ^ j <= W < (q + 1) * 2 ^ j -> Z.log2 W = Z.log2 q + j.
Proof.
  intros Hq Hj [HL HU]. pose proof (Z.log2_spec q Hq) as [L1 L2].
  pose proof (Z.log2_nonneg q). pose proof (pow2_pos j Hj).
  apply Z.log2_unique; [lia|]. split.
  - rewrite Z.pow_add_r by lia. etransitivity; [|exact HL].
    apply Z.mul_le_mono_nonneg_r; lia.
  - replace (Z.succ (Z.log2 q + j)) with (Z.succ (Z.log2 q) + j) by lia.
    rewrite Z.pow_add_r by lia.
    eapply Z.lt_le_trans; [exact HU|]. apply Z.mul_le_mono_nonneg_r; lia.
Qed.

(** The quotient of two positive numbers is their exact quotient, rounded:
    [SFdiv] in values. *)
Lemma SFdiv_val (ma md : positive) (ea ed : Z) :
  valid_binary (S754_finite false ma ea) = true ->
  valid_binary (S754_finite false md ed) = true ->
  let N := Z.pos ma * 2 ^ (ea + 1074) * 2 ^ 1074 in
  let D := Z.pos md * 2 ^ (ed + 1074) in
  match SF64div (S754_finite false ma ea) (S754_finite false md ed) with
  | S754_zero s' => s' = false /\ rndq N D = 0
  | S754_finite s' m e => s' = false /\ Z.pos m * 2 ^ (e + 1074) = rndq N D
  | S754_infinity s' => s' = false /\ 2 ^ 2098 <= rndq N D
  | S754_nan => False
  end.
Proof.
  intros Ha Hd N D.
  pose proof (valid_finite_inv _ _ _ Ha) as (Hea & Hma & Hna).
  pose proof (valid_finite_inv _ _ _ Hd) as (Hed & Hmd & Hnd).
  cbn [SF64div SFdiv xorb]. unfold SFdiv_core_binary. cbv zeta.
  change (IntDef.Z.min) with Z.min. change (IntDef.Z.shiftl) with Z.shiftl.
  change (IntDef.Z.div_eucl) with Z.div_eucl.
  rewrite fexp_eq. cbn [Zdigits2]. rewrite !digits2_log2.
  set (La := Z.log2 (Z.pos ma)). set (Ld := Z.log2 (Z.pos md)).
  set (E := Z.min (Z.max (La + 1 + ea - (Ld + 1 + ed) - 53) (-1074)) (ea - ed)).
  set (sh := ea - ed - E).
  assert (Hsh : 0 <= sh) by (unfold sh, E; lia).
  pose proof (pow2_pos (ea + 1074) ltac:(lia)) as HPa.
  pose proof (pow2_pos (ed + 1074) ltac:(lia)) as HPd.
  pose proof (pow2_pos sh Hsh) as HPs.
  pose proof (Z.log2_spec (Z.pos ma) ltac:(lia)) as [La1 La2]. fold La in La1, La2.
  pose proof (Z.log2_spec (Z.pos md) ltac:(lia)) as [Ld1 Ld2]. fold Ld in Ld1, Ld2.
  pose proof (Z.log2_nonneg (Z.pos ma)) as La0. fold La in La0.
  pose proof (Z.log2_nonneg (Z.pos md)) as Ld0. fold Ld in Ld0.
  assert (La3 : La < 53) by (apply Z.log2_lt_pow2; lia).
  assert (Ld3 : Ld < 53) by (apply Z.log2_lt_pow2; lia).
  set (m' := match sh with 0 => Z.pos ma | Z.pos _ => Z.shiftl (Z.pos ma) sh | Z.neg _ => 0 end).
  assert (Em' : m' = Z.pos ma * 2 ^ sh).
  { unfold m'. destruct sh eqn:Es; try lia.
    rewrite Z.shiftl_mul_pow2 by lia. reflexivity. }
  assert (Hm'0 : 0 < m') by (rewrite Em'; lia).
  pose proof (Z_div_mod m' (Z.pos md) ltac:(lia)) as DM.
  destruct (Z.div_eucl m' (Z.pos md)) as [q r]. destruct DM as [DM Hr].
  assert (Hq0 : 0 <= q) by nia.
  assert (HD0 : 0 < D) by (unfold D; lia).
  assert (HN0 : 0 <= N) by (unfold N; lia).
  rewrite (binary_round_aux_quotient false q r (Z.pos md) E Hq0 ltac:(lia) Hr).
  cbv zeta.
  replace (q * Z.pos md + r) with m' by lia.
  set (n1 := shift_of q E).
  assert (Hn1 : 0 <= n1) by apply shift_of_nonneg.
  assert (Hk : E + n1 + 1074 = ulp_exp (N / D)).
  { destruct (Z_lt_le_dec E (-1074)) as [Hj|Hj].
    - (* the quotient is below the smallest exponent *)
      assert (EE : E = ea - ed) by (unfold E in *; lia).
      assert (Es : sh = 0) by (unfold sh; lia).
      assert (Em : m' = Z.pos ma) by (rewrite Em', Es; cbn; lia).
      assert (Hq53 : q < 2 ^ 53) by nia.
      assert (En1 : n1 = -1074 - E).
      { unfold n1. destruct (Z.eq_dec q 0) as [->|NZ].
        - unfold shift_of. rewrite fexp_eq. cbn [Zdigits2]. lia.
        - rewrite shift_of_eq by lia.
          assert (Z.log2 q < 53) by (apply Z.log2_lt_pow2; lia). lia. }
      assert (HW : N / D < 2 ^ 53).
      { apply Z.div_lt_upper_bound; [exact HD0|]. unfold N, D.
        rewrite <- Z.mul_assoc, <- Z.pow_add_r by lia.
        pose proof (pow2_pos (ea + 1074 + 1074) ltac:(lia)).
        pose proof (Z.pow_le_mono_r 2 (ea + 1074 + 1074) (ed + 1074) ltac:(lia) ltac:(lia)).
        nia. }
      pose proof (Z.div_pos N D HN0 HD0) as HW0.
      unfold ulp_exp.
      destruct (Z.eq_dec (N / D) 0) as [->|NZ]; [cbn; lia|].
      assert (Z.log2 (N / D) < 53) by (apply Z.log2_lt_pow2; lia). lia.
    - set (j := E + 1074). assert (Hj0 : 0 <= j) by (unfold j; lia).
      pose proof (pow2_pos j Hj0) as HPj.
      assert (EN : N = m' * (2 ^ j * 2 ^ (ed + 1074))).
      { unfold N. rewrite Em'. rewrite <- !Z.mul_assoc. f_equal.
        rewrite <- !Z.pow_add_r by lia. f_equal. unfold j, sh. lia. }
      assert (HWb : q * 2 ^ j <= N / D < (q + 1) * 2 ^ j).
      { split.
        - apply Z.div_le_lower_bound; [exact HD0|]. rewrite EN. unfold D. nia.
        - apply Z.div_lt_upper_bound; [exact HD0|]. rewrite EN. unfold D. nia. }
      destruct (Z.eq_dec j 0) as [Ej|Nj].
      + rewrite Ej in HWb. change (2 ^ 0) with 1 in HWb.
        assert (EW : N / D = q) by lia. rewrite EW.
        assert (EE : E = -1074) by (unfold j in Ej; lia).
        unfold n1, ulp_exp. destruct (Z.eq_dec q 0) as [->|NZ].
        * unfold shift_of. rewrite fexp_eq. cbn [Zdigits2]. cbn. lia.
        * rewrite shift_of_eq by lia. lia.
      + assert (EE : E = La + ea - Ld - ed - 53) by (unfold E, j in *; lia).
        assert (Es : sh = 53 - La + Ld) by (unfold sh; lia).
        assert (Hq52 : 2 ^ 52 <= q).
        { assert (2 ^ 52 * Z.pos md <= m'); [|nia].
          rewrite Em', Es.
          assert (2 ^ La * 2 ^ (53 - La + Ld) <= Z.pos ma * 2 ^ (53 - La + Ld))
            by (apply Z.mul_le_mono_nonneg_r; lia).
          rewrite <- Z.pow_add_r in H by lia.
          replace (La + (53 - La + Ld)) with (52 + Z.succ Ld) in H by lia.
          rewrite Z.pow_add_r in H by lia. nia. }
        assert (Hlq : 52 <= Z.log2 q) by (apply Z.log2_le_pow2; lia).
        unfold n1, ulp_exp.
        rewrite (log2_between (N / D) q j ltac:(lia) Hj0 HWb).
        rewrite shift_of_eq by lia. unfold j. lia. }
  assert (Hm : rnm m' (Z.pos md * 2 ^ n1) = rnm N (D * 2 ^ ulp_exp (N / D))).
  { pose proof (pow2_pos n1 Hn1). pose proof (ulp_exp_nonneg (N / D)) as Hk0.
    pose proof (pow2_pos _ Hk0).
    apply rnm_ratio; [lia|lia|].
    rewrite <- Hk. unfold N, D. rewrite Em'.
    assert (EP : 2 ^ sh * (2 ^ (ed + 1074) * 2 ^ (E + n1 + 1074))
                 = 2 ^ (ea + 1074) * 2 ^ 1074 * 2 ^ n1).
    { rewrite <- !Z.pow_add_r by lia. f_equal. unfold sh. lia. }
    transitivity (Z.pos ma * Z.pos md * (2 ^ sh * (2 ^ (ed + 1074) * 2 ^ (E + n1 + 1074))));
      [ring|]. rewrite EP. ring. }
  rewrite Hm.
  destruct (rndq_mantissa N D HD0 HN0) as [HB HL]. cbv zeta in HB, HL.
  set (m1 := rnm N (D * 2 ^ ulp_exp (N / D))) in *.
  pose proof (ulp_exp_nonneg (N / D)) as Hk0.
  pose proof (round_finish false m1 (E + n1) HB ltac:(lia) ltac:(intros; apply HL; lia)) as F.
  cbv zeta in F.
  assert (EV : m1 * 2 ^ (E + n1 + 1074) = rndq N D).
  { unfold rndq. rewrite Hk. reflexivity. }
  rewrite EV in F.
  revert F.
  destruct (m1 / 2 ^ shift_of m1 (E + n1)) as [|p|p];
    [|destruct (E + n1 + shift_of m1 (E + n1) <=? emax - prec)|]; intros F.
  - destruct F as [_ F]. split; [reflexivity|]. rewrite <- EV, F. reflexivity.
  - destruct F as (_ & _ & F). split; [reflexivity|exact F].
  - destruct F as [_ F]. split; [reflexivity|exact F].
  - exact F.
Qed.
End Binary64DivFacts.

(** ** Division in values, and the order of normalised cells *)

Module B64Quotient.
Import Binary64 Binary64Facts B64Arith B64Range.
Import Binary64Quotient Binary64QuotientFacts Binary64DivFacts.
Local Open Scope float_scope.

(** The quotient of a number that is not negative by a positive one: the
    exact quotient rounded, or infinity when that overflows. *)
Lemma div_val (a d : float) :
  is_finite a = true -> is_finite d = true -> (0 <= V a)%Z -> (0 < V d)%Z ->
  is_nan (a / d) = false /\
  V (a / d) = Z.min (rndq (V a * 2 ^ 1074) (V d)) (2 ^ 2098).
Proof.
  intros Fa Fd Ha Hd.
  destruct (positive_form d Fd Hd) as (md & ed & Ed).
  pose proof (Prim2SF_valid d) as Vd. rewrite Ed in Vd.
  assert (EVd : V d = (Z.pos md * 2 ^ (ed + 1074))%Z) by (unfold V; rewrite Ed; reflexivity).
  assert (EVq : V (a / d) = SFval (Prim2SF (a / d))) by reflexivity.
  destruct (Z.eq_dec (V a) 0%Z) as [Ea0|Na0].
  - assert (exists s, Prim2SF a = S754_zero s) as [s Ea].
    { destruct (finite_forms a Fa) as [?|(s & m & e & Ea)]; [assumption|].
      exfalso. unfold V in Ea0. pose proof (Prim2SF_valid a) as Hv. rewrite Ea in *.
      pose proof (finite_val_bounds s m e Hv).
      destruct s; cbn [SFval cond_Zopp] in Ea0; lia. }
    assert (Eq : Prim2SF (a / d) = S754_zero s).
    { rewrite div_spec, Ea, Ed. cbn. rewrite xorb_false_r. reflexivity. }
    rewrite is_nan_spec, EVq, Eq, Ea0. split; [reflexivity|].
    cbn [SFval]. unfold rndq. rewrite Z.mul_0_l, Z.div_0_l by lia.
    change (ulp_exp 0) with 0%Z. rewrite rnm_0 by lia. reflexivity.
  - destruct (positive_form a Fa ltac:(lia)) as (ma & ea & Ea).
    pose proof (Prim2SF_valid a) as Va. rewrite Ea in Va.
    assert (EVa : V a = (Z.pos ma * 2 ^ (ea + 1074))%Z)
      by (unfold V; rewrite Ea; reflexivity).
    pose proof (SFdiv_val ma md ea ed Va Vd) as Hdiv. cbv zeta in Hdiv.
    pose proof (Prim2SF_valid (a / d)) as Vq.
    rewrite is_nan_spec, EVq, EVa, EVd.
    rewrite div_spec, Ea, Ed in Vq |- *.
    destruct (SF64div (S754_finite false ma ea) (S754_finite false md ed))
      as [s|s| |s m e]; try contradiction.
    + destruct Hdiv as [_ ->]. split; reflexivity.
    + destruct Hdiv as [-> Hdiv]. split; [reflexivity|].
      cbn [SFval cond_Zopp]. lia.
    + destruct Hdiv as [-> Hdiv]. split; [reflexivity|].
      cbn [SFval cond_Zopp]. pose proof (finite_val_bounds false m e Vq). lia.
Qed.

(** Division by a positive number keeps the order. *)
Lemma div_mono (a b d : float) :
  is_finite a = true -> is_finite b = true -> is_finite d = true ->
  (0 <= V a <= V b)%Z -> (0 < V d)%Z -> (V (a / d) <= V (b / d))%Z.
Proof.
  intros Fa Fb Fd Hab Hd.
  destruct (div_val a d Fa Fd ltac:(lia) Hd) as [_ ->].
  destruct (div_val b d Fb Fd ltac:(lia) Hd) as [_ ->].
  pose proof (rndq_mono (V a * 2 ^ 1074) (V b * 2 ^ 1074) (V d) Hd ltac:(lia) ltac:(lia)).
  lia.
Qed.

(** X12.  [normalize] keeps the order of the cells: for a binary64 array
    whose minimum is below its maximum and whose range is finite, a cell
    that is at most another cell is normalised to a value that is at most
    the value of the other. *)
Theorem normalize_keeps_order (skipna : bool) (array : DataArray float float)
    (lo hi : float) :
  array_reduce minimum skipna (concat (values array)) = Ok lo ->
  array_reduce maximum skipna (concat (values array)) = Ok hi ->
  (lo <? hi) = true ->
  is_finite (hi - lo) = true ->
  exists out,
    normalize skipna array = Ok out /\
    values out = map (map (rescale lo hi)) (values array) /\
    forall v w,
      In v (concat (values array)) -> In w (concat (values array)) ->
      (v <=? w) = true -> (rescale lo hi v <=? rescale lo hi w) = true.
Proof.
  intros Hmin Hmax Hlt Hfin.
  eexists. split; [exact (normalize_b64 skipna array lo hi Hmin Hmax)|].
  split; [reflexivity|].
  set (flat := concat (values array)) in *.
  destruct (ltb_not_nan lo hi Hlt) as [Nlo Nhi].
  destruct (array_reduce_cells skipna flat lo Hmin Nlo) as [Hne Hid].
  rewrite (array_reduce_dropna minimum skipna flat Hne Hid) in Hmin.
  rewrite (array_reduce_dropna maximum skipna flat Hne Hid) in Hmax.
  destruct (reduce_rescaled lo hi Hlt Hfin (dropna flat) (dropna_not_nan flat) Hmin Hmax)
    as (Hall & _).
  rewrite List.Forall_forall in Hall.
  assert (Hcell : forall v, In v flat -> is_nan v = false -> in_range lo hi v).
  { intros v Hv Nv. apply Hall. unfold dropna. apply List.filter_In.
    split; [exact Hv|]. change (num_isnan v) with (is_nan v). rewrite Nv. reflexivity. }
  intros v w Hv Hw Hle.
  destruct (leb_not_nan v w Hle) as [Nv Nw].
  rewrite (leb_val v w Nv Nw) in Hle. apply Z.leb_le in Hle.
  pose proof (Hcell v Hv Nv) as Rv. pose proof (Hcell w Hw Nw) as Rw.
  destruct (in_range_sub lo hi Hlt Hfin v Rv) as (Fv & Ev & Bv).
  destruct (in_range_sub lo hi Hlt Hfin w Rw) as (Fw & Ew & Bw).
  destruct (range_val lo hi Hlt Hfin) as [_ Hd].
  assert (Hsub : (V (v - lo) <= V (w - lo))%Z).
  { rewrite Ev, Ew. apply srnd_mono. lia. }
  pose proof (div_mono (v - lo) (w - lo) (hi - lo) Fv Fw Hfin ltac:(lia) Hd) as Hq.
  destruct (div_val (v - lo) (hi - lo) Fv Hfin ltac:(lia) Hd) as [Nqv _].
  destruct (div_val (w - lo) (hi - lo) Fw Hfin ltac:(lia) Hd) as [Nqw _].
  unfold rescale. rewrite (leb_val _ _ Nqv Nqw). apply Z.leb_le. exact Hq.
Qed.
End B64Quotient.

(** ** The further theorems at concrete inputs *)

Module MoreWitnesses.
Import Examples ExampleRuns.
Local Open Scope float_scope.

Lemma generate_geographical_subset_commutes_witness :
  generate_geographical_subset 0%nat
    (generate_geographical_subset 0%nat grid (-10) 10 (-10) 10 true)
    (-6) 30 (-30) 6 false
  = generate_geographical_subset 0%nat
      (generate_geographical_subset 0%nat grid (-6) 30 (-30) 6 true)
      (-10) 10 (-10) 10 false.
Proof.
  exact (generate_geographical_subset_commutes 0%nat grid (-10) 10 (-10) 10
           (-6) 30 (-30) 6 true wf_grid).
Defined.

Lemma generate_geographical_subset_nested_witness :
  generate_geographical_subset 0%nat
    (generate_geographical_subset 0%nat grid (-10) 10 (-10) 10 true)
    (-6) 6 (-6) 6 false
  = generate_geographical_subset 0%nat grid (-6) 6 (-6) 6 true.
Proof.
  apply (B64Box.generate_geographical_subset_nested 0%nat grid (-10) 10 (-10) 10
           (-6) 6 (-6) 6 true wf_grid); reflexivity.
Defined.

Lemma generate_geographical_subset_degenerate_witness :
  generate_geographical_subset 0%nat grid 10 (-10) (-10) 10 true = mkDataArray [] [] [].
Proof.
  apply (B64Box.generate_geographical_subset_degenerate 0%nat grid 10 (-10) (-10) 10
           true wf_grid).
  left. reflexivity.
Defined.

Lemma generate_geographical_subset_numbers_witness :
  Forall (fun lo => is_finite lo = true /\ (-180 <=? lo) = true /\ (lo <=? 180) = true)
    (longitude (generate_geographical_subset 0%nat grid (-10) 10 (-10) 10 true)).
Proof.
  exact (proj2 (proj2
    (B64Box.generate_geographical_subset_numbers 0%nat grid (-10) 10 (-10) 10 true
       wf_grid)) eq_refl).
Defined.

Lemma normalize_unit_interval_witness :
  exists out,
    normalize true (mkDataArray [0] [0; 1; 2] [[2; nan; 10]]) = Ok out /\
    Forall2 (Forall2 (fun v n =>
               is_nan n = is_nan v /\
               (is_nan v = false -> (0 <=? n) = true /\ (n <=? 1) = true)))
      [[2; nan; 10]] (values out).
Proof.
  apply (B64NormalizeEdges.normalize_unit_interval true
           (mkDataArray [0] [0; 1; 2] [[2; nan; 10]]) 2 10); reflexivity.
Defined.

Lemma normalize_nan_spreads_witness :
  normalize false (mkDataArray [0] [0; 1; 2] [[2; nan; 10]])
  = Ok (mkDataArray [0] [0; 1; 2] [[nan; nan; nan]]).
Proof.
  apply (B64NormalizeEdges.normalize_nan_spreads
           (mkDataArray [0] [0; 1; 2] [[2; nan; 10]])).
  apply Exists_cons_hd, Exists_cons_tl, Exists_cons_hd. reflexivity.
Defined.

Lemma visualize_pcolormesh_unknown_cmap_witness :
  exists e' st',
    Render.invoke Recorder.lib
      (Render.mkArguments tt tt tt "PlateCarree" "no_such_map" "mol m-2"
         "CO total column" 0%Z 5%Z false (-80)%Z (-60)%Z (-45)%Z
         (-25)%Z) Recorder.start
    = (Raise e', st') /\
    Render.files st' = Render.files Recorder.start /\
    (forall cv1 cv2,
       Render.perform Recorder.lib (Render.Figure 10 15 1200)
         (Render.canvas Recorder.start) = Ok cv1 ->
       Render.perform Recorder.lib (Render.Axes "PlateCarree") cv1 = Ok cv2 ->
       e' = BackendError 0 /\ Render.canvas st' = cv2).
Proof.
  apply (RenderEdges.visualize_pcolormesh_unknown_cmap Recorder.lib
           (Render.mkArguments tt tt tt "PlateCarree" "no_such_map" "mol m-2"
              "CO total column" 0%Z 5%Z false (-80)%Z (-60)%Z (-45)%Z
              (-25)%Z) Recorder.start (BackendError 0)).
  vm_compute. reflexivity.
Defined.

Lemma visualize_s3_pcolormesh_shape_only_witness :
  RenderRGB.visualize_s3_pcolormesh RenderRGB.recorder "rgb" [[1; 2]; [3; 4]] tt tt
    "True colour" (Render.mkState (Image := unit) [] ∅)
  = RenderRGB.visualize_s3_pcolormesh RenderRGB.recorder "rgb" [[0; nan]; [-7; 9]] tt tt
      "True colour" (Render.mkState [] ∅).
Proof.
  apply (RenderRGBFacts.visualize_s3_pcolormesh_shape_only RenderRGB.recorder "rgb"
           [[1; 2]; [3; 4]] [[0; nan]; [-7; 9]] tt tt "True colour"
           (Render.mkState [] ∅)).
  repeat constructor.
Defined.

Lemma generate_geographical_subset_whole_witness :
  generate_geographical_subset 0%nat grid (-30) 30 (-1) 400 false = grid.
Proof.
  apply (generate_geographical_subset_whole 0%nat grid (-30) 30 (-1) 400 wf_grid);
    try discriminate; repeat constructor.
Defined.
Lemma normalize_keeps_order_witness :
  exists out,
    normalize true (mkDataArray [0] [0; 1; 2; 3] [[2; 7; 4; 10]]) = Ok out /\
    values out = map (map (Binary64.rescale 2 10)) [[2; 7; 4; 10]] /\
    forall v w,
      In v [2; 7; 4; 10] -> In w [2; 7; 4; 10] ->
      (v <=? w) = true ->
      (Binary64.rescale 2 10 v <=? Binary64.rescale 2 10 w) = true.
Proof.
  exact (B64Quotient.normalize_keeps_order true
           (mkDataArray [0] [0; 1; 2; 3] [[2; 7; 4; 10]]) 2 10
           eq_refl eq_refl eq_refl eq_refl).
Defined.
End MoreWitnesses.
